(** * Verification of [projects.py]: reconciling Git projects with a specification

    The development embeds [src/projects.py] (the [main] procedure, the
    state query [_remote_mode_url] and the candidate generator
    [_fetchable_remote_urls]) and proves properties of the embedding.

    Modelling decisions, all taken from the source:
    - a Python [dict] is an association list in insertion order with unique
      keys ([Dict.t]); [d.get(k)], [k in d], [d[k] = v], [d.items()],
      [d.values()] and [==] are the operations of CPython;
    - a Python [str] is the string of the bytes of its UTF-8 encoding, on
      which the order of the code points is the order of the bytes;
    - [sorted(set(a).union(b))] sorts the distinct keys of both dicts by the
      code-point order of Python strings ([String.leb]);
    - the outside world (the git client, the file system, [os.listdir]) is
      an oracle, a record [World]; the result of a subprocess may depend on
      everything that happened before it;
    - a query of lines 124-128 may also have no result, because git cannot
      be started, because [--git-encoding] does not name an encoding, or
      because its output is not text in the encoding: the source has a
      handler for the first case (line 174).  The commands of
      the loop over the projects are followed for every exit status, and
      are taken to start and to write text: the statements about that loop
      are statements about such runs;
    - the specification is a JSON object of the documented shape, project
      to remote to mode to URL, so the value found for a project is a
      remote map (the assertion of line 221 holds by its type);
    - the procedure runs in a small state-and-exception monad: the store is
      the mutable object of the current scope, the trace collects log
      records and subprocess invocations in chronological order, and an
      uncaught Python exception is the result [Raised]. *)

From Stdlib Require Import String Ascii List Bool Arith ZArith Lia Sorted.
Import ListNotations.
Local Open Scope list_scope.
Local Open Scope string_scope.

Set Implicit Arguments.

(* ===================================================================== *)
(** ** Python strings *)
(* ===================================================================== *)

Module PyStr.

(** The newline, carriage return, tab and space characters. *)
Definition LF : ascii := ascii_of_nat 10.
Definition CR : ascii := ascii_of_nat 13.
Definition TAB : ascii := ascii_of_nat 9.
Definition SP : ascii := ascii_of_nat 32.
Definition nl : string := String LF EmptyString.

(** [bool(s)]: a string is true when it is not empty. *)
Definition truthy (s : string) : bool :=
  match s with EmptyString => false | String _ _ => true end.

(** The characters for which [str.isspace] holds, by the bytes of their
    UTF-8 encoding: U+0009 to U+000D, U+001C to U+0020 (one byte); U+0085
    and U+00A0 (two bytes); U+1680, U+2000 to U+200A, U+2028, U+2029,
    U+202F, U+205F and U+3000 (three bytes). *)
Definition space1 (a : ascii) : bool :=
  let n := nat_of_ascii a in
  (Nat.leb 9 n && Nat.leb n 13) || (Nat.leb 28 n && Nat.leb n 32).

Definition space2 (a b : ascii) : bool :=
  Nat.eqb (nat_of_ascii a) 194
  && (Nat.eqb (nat_of_ascii b) 133 || Nat.eqb (nat_of_ascii b) 160).

Definition space3 (a b c : ascii) : bool :=
  let x := nat_of_ascii a in
  let y := nat_of_ascii b in
  let z := nat_of_ascii c in
  (Nat.eqb x 225 && Nat.eqb y 154 && Nat.eqb z 128)
  || (Nat.eqb x 226 && Nat.eqb y 128
      && ((Nat.leb 128 z && Nat.leb z 138)
          || Nat.eqb z 168 || Nat.eqb z 169 || Nat.eqb z 175))
  || (Nat.eqb x 226 && Nat.eqb y 129 && Nat.eqb z 159)
  || (Nat.eqb x 227 && Nat.eqb y 128 && Nat.eqb z 128).

(** Is the string exactly one such character? *)
Definition isspace (s : string) : bool :=
  match s with
  | String a EmptyString => space1 a
  | String a (String b EmptyString) => space2 a b
  | String a (String b (String c EmptyString)) => space3 a b c
  | _ => false
  end.

(** [s.lstrip()] and [s.rstrip()]: the white space at one end is removed,
    character by character. *)
Fixpoint lstrip_space (s : string) : string :=
  match s with
  | EmptyString => EmptyString
  | String a s1 =>
      if space1 a then lstrip_space s1
      else
        match s1 with
        | EmptyString => s
        | String b s2 =>
            if space2 a b then lstrip_space s2
            else
              match s2 with
              | EmptyString => s
              | String c s3 => if space3 a b c then lstrip_space s3 else s
              end
        end
  end.

Fixpoint rstrip_space (s : string) : string :=
  match s with
  | EmptyString => EmptyString
  | String a s' =>
      let r := String a (rstrip_space s') in
      if isspace r then EmptyString else r
  end.

Fixpoint lstrip (p : ascii -> bool) (s : string) : string :=
  match s with
  | EmptyString => EmptyString
  | String a s' => if p a then lstrip p s' else s
  end.

Fixpoint rstrip (p : ascii -> bool) (s : string) : string :=
  match s with
  | EmptyString => EmptyString
  | String a s' =>
      match rstrip p s' with
      | EmptyString => if p a then EmptyString else String a EmptyString
      | r => String a r
      end
  end.

(** [s.strip()] and [s.strip(chars)]. *)
Definition strip_by (p : ascii -> bool) (s : string) : string :=
  rstrip p (lstrip p s).
Definition strip (s : string) : string := rstrip_space (lstrip_space s).
Definition strip_chars (chars : list ascii) (s : string) : string :=
  strip_by (fun a => existsb (Ascii.eqb a) chars) s.

(** [s.split(sep)] for a one-character separator. *)
Fixpoint split (sep : ascii) (s : string) : list string :=
  match s with
  | EmptyString => [EmptyString]
  | String a s' =>
      if Ascii.eqb a sep then EmptyString :: split sep s'
      else match split sep s' with
           | [] => [String a EmptyString]
           | w :: ws => String a w :: ws
           end
  end.

(** The last occurrence of [sep] in [s]: what is before it and what is
    after it, or [None] when [sep] does not occur. *)
Fixpoint rfind_split (sep : ascii) (s : string) : option (string * string) :=
  match s with
  | EmptyString => None
  | String a s' =>
      match rfind_split sep s' with
      | Some (h, t) => Some (String a h, t)
      | None => if Ascii.eqb a sep then Some (EmptyString, s') else None
      end
  end.

(** [s.rpartition(sep)], without the middle component. *)
Definition rpartition (sep : ascii) (s : string) : string * string :=
  match rfind_split sep s with
  | Some ht => ht
  | None => (EmptyString, s)
  end.

(** [s.startswith(c)] and [s.endswith(c)] for one character. *)
Definition startswith (c : ascii) (s : string) : bool :=
  match s with String a _ => Ascii.eqb a c | EmptyString => false end.
Fixpoint endswith (c : ascii) (s : string) : bool :=
  match s with
  | EmptyString => false
  | String a EmptyString => Ascii.eqb a c
  | String _ s' => endswith c s'
  end.

(** ['%s' % x] where [x] may be [None]. *)
Definition str_opt (o : option string) : string :=
  match o with None => "None" | Some s => s end.

End PyStr.

(** [os.path.join(a, b)] on POSIX. *)
Definition os_path_join (a b : string) : string :=
  if PyStr.startswith "/"%char b then b
  else if negb (PyStr.truthy a) || PyStr.endswith "/"%char a then a ++ b
  else a ++ "/" ++ b.

(* ===================================================================== *)
(** ** Python dictionaries and sorting *)
(* ===================================================================== *)

Definition opt_eqb {A} (eqb : A -> A -> bool) (x y : option A) : bool :=
  match x, y with
  | Some a, Some b => eqb a b
  | None, None => true
  | _, _ => false
  end.

Module Dict.
Section Dict.
Variable V : Type.

(** Insertion order, first component unique. *)
Definition t := list (string * V).

Definition empty : t := [].

(** [d.get(k)] *)
Fixpoint get (k : string) (d : t) : option V :=
  match d with
  | [] => None
  | (k', v) :: d' => if String.eqb k k' then Some v else get k d'
  end.

(** [k in d] *)
Definition mem (k : string) (d : t) : bool :=
  match get k d with Some _ => true | None => false end.

(** [d[k] = v]: an existing key keeps its place, a new key goes last. *)
Fixpoint set (k : string) (v : V) (d : t) : t :=
  match d with
  | [] => [(k, v)]
  | (k', v') :: d' =>
      if String.eqb k k' then (k', v) :: d' else (k', v') :: set k v d'
  end.

Definition keys (d : t) : list string := map fst d.
Definition values (d : t) : list V := map snd d.
Definition items (d : t) : list (string * V) := d.

(** [bool(d)] *)
Definition truthy (d : t) : bool :=
  match d with [] => false | _ :: _ => true end.

(** [a == b]: same length, and every key of [a] is bound in [b] to a
    value equal to [a[k]]. *)
Definition eqb (veqb : V -> V -> bool) (a b : t) : bool :=
  Nat.eqb (length a) (length b)
  && forallb (fun k => opt_eqb veqb (get k a) (get k b)) (keys a).

End Dict.
End Dict.

Arguments Dict.empty {V}.

(** Insertion of one string into a sorted list. *)
Fixpoint insert_sorted (x : string) (l : list string) : list string :=
  match l with
  | [] => [x]
  | y :: l' => if String.leb x y then x :: l else y :: insert_sorted x l'
  end.

(** [sorted(l)] for a list of strings. *)
Definition sorted (l : list string) : list string :=
  fold_right insert_sorted [] l.

(** [set(a).union(b)]: the distinct members of both key lists. *)
Definition set_union (a b : list string) : list string :=
  nodup string_dec (a ++ b)%list.

(* ===================================================================== *)
(** ** The data model *)
(* ===================================================================== *)

(** [_REMOTE_MODE_URL_TYPE = Dict[str, Dict[str, str]]], a type alias. *)
Abbreviation MODE_URL_TYPE := (Dict.t string) (only parsing).
Abbreviation REMOTE_MODE_URL_TYPE := (Dict.t (Dict.t string)) (only parsing).

(** [subprocess.CompletedProcess]; what was not captured is empty. *)
Record CompletedProcess := {
  returncode : Z;
  stdout : string;
  stderr : string
}.

(** [subprocess.CalledProcessError]: the command and what it produced. *)
Record CalledProcessError := {
  cmd : list string;
  output : CompletedProcess
}.

(** [_REMOTE_MODE_URL_RETURN_TYPE]: the remotes of a project, or the
    failure of the query, as a value. *)
Inductive REMOTE_MODE_URL_RETURN_TYPE :=
| Remotes (remote_mode_url : REMOTE_MODE_URL_TYPE)
| QueryFailed (exc : CalledProcessError).

(** [expected] and [observed]: project name to remotes (or failure). *)
Abbreviation Topology := (Dict.t REMOTE_MODE_URL_RETURN_TYPE) (only parsing).

Definition mode_url_eqb : MODE_URL_TYPE -> MODE_URL_TYPE -> bool :=
  Dict.eqb String.eqb.
Definition remote_mode_url_eqb
  : REMOTE_MODE_URL_TYPE -> REMOTE_MODE_URL_TYPE -> bool :=
  Dict.eqb mode_url_eqb.

(** [a != b] for two values looked up with [.get] once neither is a
    [CalledProcessError] (an exception object is equal only to itself). *)
Definition queried_eqb (a b : REMOTE_MODE_URL_RETURN_TYPE) : bool :=
  match a, b with
  | Remotes x, Remotes y => remote_mode_url_eqb x y
  | _, _ => false
  end.

(** A subprocess of which there is no result: [OSError] when it cannot be
    started, [LookupError] when [--git-encoding] does not name an
    encoding, [UnicodeDecodeError] when what it wrote is not text in the
    encoding it is read with. *)
Inductive SpawnFailure :=
| CannotStart (message : string)
| UnknownEncoding (message : string)
| Undecodable (message : string).

(** Logging levels and what a run leaves behind: log records, subprocesses
    with their result, subprocesses without one, the usage message of
    [parser.error], the specification written to a file, and a file that
    was opened for writing and does not hold the specification. *)
Inductive Level := DEBUG | INFO | WARNING | ERROR.

Inductive Event :=
| Log (level : Level) (message : string)
| Run (argv : list string) (result : CompletedProcess)
| Usage (message : string)
| JsonDump (path : string) (document : Dict.t REMOTE_MODE_URL_TYPE)
| Aborted (argv : list string) (failure : SpawnFailure)
| Spoiled (path : string).

Inductive Exception :=
| SystemExit (code : nat)
| ProcessError (exc : CalledProcessError)
| AssertionError (line : nat)
| OSError (message : string)
| LookupError (message : string)
| UnicodeDecodeError (message : string).

Definition raised_by (failure : SpawnFailure) : Exception :=
  match failure with
  | CannotStart message => OSError message
  | UnknownEncoding message => LookupError message
  | Undecodable message => UnicodeDecodeError message
  end.

(** What [re.search(pattern, project)] does for a given pattern: an
    invalid pattern raises [re.error], a valid one decides each name. *)
Inductive Pattern :=
| InvalidRegex (message : string)
| Regex (search : string -> bool).

(** The specification file named by [--spec]: [open] raises [OSError],
    the file is not text in the encoding of the locale
    ([UnicodeDecodeError]), the text is not JSON ([json.JSONDecodeError]),
    or it is a JSON object of the documented shape, project to remote to
    mode to URL.  JSON values of another shape are outside the model. *)
Inductive SpecFile :=
| SpecUnreadable (message : string)
| SpecNotText (message : string)
| SpecUndecodable (message : string)
| SpecDocument (document : Dict.t REMOTE_MODE_URL_TYPE).

(** The command line, after [argparse]. *)
Record Args := {
  clone : bool;
  fetch : bool;
  set_urls : bool;
  spec : option string;
  spec_create : option string;
  spec_create_overwrite : bool;
  projects : string;
  sync : bool;
  (** the text of the positional argument and its meaning as a regex *)
  pattern : string;
  re_search : Pattern
}.

(** Everything outside the program. *)
Record World := {
  (** [os.listdir(path)], or the text of the [OSError] *)
  listdir : string -> string + list string;
  (** the outcome of a subprocess, given all that happened before it *)
  subprocess : list Event -> list string -> CompletedProcess;
  (** whether a query, given all that happened before it, has no outcome *)
  spawn_failure : list Event -> list string -> option SpawnFailure;
  (** [open(path)] followed by [json.load] *)
  read_spec : string -> SpecFile;
  (** whether a path exists, and the [OSError] (if any) that opening it
      for writing raises for another reason than its existence *)
  exists_ : string -> bool;
  open_error : string -> option string;
  (** [str(exc)] for the [FileExistsError] of a path *)
  file_exists_error : string -> string;
  (** the [OSError] (if any) raised while the opened file is written *)
  write_error : string -> option string
}.

(* ===================================================================== *)
(** ** The monad of the procedure *)
(* ===================================================================== *)

Inductive Res (A : Type) :=
| Normal (a : A)
| Raised (e : Exception).

Arguments Normal {A} a.
Arguments Raised {A} e.

(** A computation over a mutable object of type [S] (the store) that
    extends the trace, and returns or raises. *)
Definition M (S A : Type) := S -> list Event -> Res A * S * list Event.

Definition ret {S A} (a : A) : M S A := fun s tr => (Normal a, s, tr).

Definition bind {S A B} (m : M S A) (k : A -> M S B) : M S B :=
  fun s tr =>
    match m s tr with
    | (Normal a, s', tr') => k a s' tr'
    | (Raised e, s', tr') => (Raised e, s', tr')
    end.

Notation "x <- m ;; k" := (bind m (fun x => k))
  (at level 61, m at next level, right associativity).
Notation "m ;; k" := (bind m (fun _ => k))
  (at level 61, right associativity).

Definition raise {S A} (e : Exception) : M S A := fun s tr => (Raised e, s, tr).
Definition emit {S} (e : Event) : M S unit := fun s tr => (Normal tt, s, (tr ++ [e])%list).
Definition LOG {S} (level : Level) (message : string) : M S unit :=
  emit (Log level message).
Definition load {S} : M S S := fun s tr => (Normal s, s, tr).
Definition store {S} (s : S) : M S unit := fun _ tr => (Normal tt, s, tr).

(** [d[k] = v] on the store. *)
Definition set_item {V} (k : string) (v : V) : M (Dict.t V) unit :=
  fun d tr => (Normal tt, Dict.set k v d, tr).

(** Running [m] on an object held inside the store: what [m] does to the
    object is done to the store, whether [m] returns or raises.  The
    object is there whenever the source reaches this point; the source
    asserts it at the given line. *)
Definition zoom {S T A} (line : nat) (get : S -> option T) (put : T -> S -> S)
    (m : M T A) : M S A :=
  fun s tr =>
    match get s with
    | None => (Raised (AssertionError line), s, tr)
    | Some t => let '(r, t', tr') := m t tr in (r, put t' s, tr')
    end.

(** [for x in l: body(x)] *)
Fixpoint for_each {S A} (body : A -> M S unit) (l : list A) : M S unit :=
  match l with
  | [] => ret tt
  | x :: l' => body x ;; for_each body l'
  end.

(** [parser.error(message)] prints the usage and exits with status 2. *)
Definition parser_error {S A} (message : string) : M S A :=
  emit (Usage message) ;; raise (SystemExit 2).

(** [try: m except ...: h]: the handler of an exception, when the [except]
    clauses have one for it, goes on from where the exception was raised. *)
Definition try_except {S A} (m : M S A) (handler : Exception -> option (M S A))
  : M S A :=
  fun s tr =>
    match m s tr with
    | (Raised e, s', tr') =>
        match handler e with
        | Some h => h s' tr'
        | None => (Raised e, s', tr')
        end
    | returned => returned
    end.

(* ===================================================================== *)
(** ** The program *)
(* ===================================================================== *)

(** One line of [git remote -v], lines 133-139. *)
Definition parse_remote_line (remote_mode_url : REMOTE_MODE_URL_TYPE)
    (line : string) : REMOTE_MODE_URL_TYPE :=
  if negb (PyStr.truthy line) then remote_mode_url
  else
    let '(remote, url_mode) := PyStr.rpartition PyStr.TAB line in
    let mode_url :=
      match Dict.get remote remote_mode_url with
      | Some d => d
      | None => Dict.empty
      end in
    let '(url, mode) := PyStr.rpartition PyStr.SP url_mode in
    let mode_url :=
      Dict.set (PyStr.strip_chars ["("%char; ")"%char] mode) url mode_url in
    Dict.set remote mode_url remote_mode_url.

(** Lines 131-140. *)
Definition parse_remotes (stdout : string) : REMOTE_MODE_URL_TYPE :=
  fold_left parse_remote_line (PyStr.split PyStr.LF stdout) Dict.empty.

(** [_fetchable_remote_urls], lines 143-149: the generator, as the list
    of what it yields. *)
Fixpoint _fetchable_remote_urls (remote_mode_url : REMOTE_MODE_URL_TYPE)
  : list (string * string) :=
  match remote_mode_url with
  | [] => []
  | (remote, mode_url) :: rest =>
      match Dict.get "fetch" mode_url with
      | Some fetch_url =>
          if PyStr.truthy fetch_url
          then (remote, fetch_url) :: _fetchable_remote_urls rest
          else _fetchable_remote_urls rest
      | None => _fetchable_remote_urls rest
      end
  end.

(** [{remote: {"fetch": url, "push": url}}] and its inner dict. *)
Definition both_modes (url : string) : MODE_URL_TYPE :=
  [("fetch", url); ("push", url)].

(** The remotes held for a project, when the query did not fail. *)
Definition remotes_of (project : string) (observed : Topology)
  : option REMOTE_MODE_URL_TYPE :=
  match Dict.get project observed with
  | Some (Remotes r) => Some r
  | _ => None
  end.

Section Program.

Variable w : World.
Variable args : Args.

(** [subprocess.run(argv, ...)] for a command that starts and whose
    captured output is text: the result is the oracle's.  Of a call that
    does not capture the output (lines 293 and 343) the program reads the
    status only; the other fields of its result stand for what git wrote
    to the terminal. *)
Definition run {S} (argv : list string) : M S CompletedProcess :=
  fun s tr =>
    let r := subprocess w tr argv in (Normal r, s, (tr ++ [Run argv r])%list).

(** The effect of [check=True]. *)
Definition check {S} (argv : list string) (r : CompletedProcess) : M S unit :=
  if Z.eqb (returncode r) 0 then ret tt
  else raise (ProcessError {| cmd := argv; output := r |}).

Definition run_checked {S} (argv : list string) : M S CompletedProcess :=
  r <- run argv ;; check argv r ;; ret r.

(** A subprocess that may have no result: the exception is raised and the
    trace keeps the command. *)
Definition spawn {S} (argv : list string) : M S CompletedProcess :=
  fun s tr =>
    match spawn_failure w tr argv with
    | Some failure =>
        (Raised (raised_by failure), s, (tr ++ [Aborted argv failure])%list)
    | None => run argv s tr
    end.

(** [_remote_mode_url], lines 122-140: only [CalledProcessError] is
    caught. *)
Definition _remote_mode_url {S} (path : string)
  : M S REMOTE_MODE_URL_RETURN_TYPE :=
  let argv := ["git"; "-C"; path; "remote"; "-v"] in
  r <- spawn argv ;;
  if Z.eqb (returncode r) 0 then ret (Remotes (parse_remotes (stdout r)))
  else ret (QueryFailed {| cmd := argv; output := r |}).

(** [expected]: the loaded document, or [observed] itself (the same
    object) without [--spec]. *)
Definition expected_of (document : option (Dict.t REMOTE_MODE_URL_TYPE))
    (observed : Topology) : Topology :=
  match document with
  | None => observed
  | Some d => map (fun kv => (fst kv, Remotes (snd kv))) d
  end.

(** The body of the loop over modes, lines 312-345.  The store is
    [observed_mode_url]. *)
Definition sync_mode (git : list string) (remote_prefix remote : string)
    (expected_mode_url : MODE_URL_TYPE) (mode : string)
  : M MODE_URL_TYPE unit :=
  let mode_remote_prefix := remote_prefix ++ " [" ++ mode ++ "]" in
  observed_mode_url <- load ;;
  let observed_url := Dict.get mode observed_mode_url in
  match Dict.get mode expected_mode_url with
  | None | Some EmptyString =>
      LOG WARNING (mode_remote_prefix ++ " unexpected mode")
  | Some expected_url =>
      if opt_eqb String.eqb (Some expected_url) observed_url then ret tt
      else
        LOG DEBUG (mode_remote_prefix ++ " mode sync needed") ;;
        if negb (set_urls args) then
          LOG WARNING
            (mode_remote_prefix ++ " skipping (rerun with --set-urls)...")
        else
          LOG INFO (mode_remote_prefix ++ " changing '"
                    ++ PyStr.str_opt observed_url ++ "' to '"
                    ++ expected_url ++ "'...") ;;
          let git_remote_set_url :=
            ((git ++ ["remote"; "set-url"])
             ++ (if String.eqb mode "push" then ["--push"] else []))%list in
          run_checked (git_remote_set_url ++ [remote; expected_url])%list ;;
          set_item mode expected_url
  end.

(** Lines 284-305: the remote is not among the observed ones.  Returns
    whether the remote exists afterwards ([false] is [continue]).  The
    store is [observed_remote_mode_url]. *)
Definition add_remote (git : list string) (remote_prefix remote : string)
    (expected_mode_url : MODE_URL_TYPE) : M REMOTE_MODE_URL_TYPE bool :=
  if negb (set_urls args) then
    LOG WARNING (remote_prefix ++ " skipping (rerun with --set-urls)...") ;;
    ret false
  else
    LOG INFO (remote_prefix ++ " adding...") ;;
    match Dict.values expected_mode_url with
    | url :: _ =>
        run_checked (git ++ ["remote"; "add"; remote; url])%list ;;
        set_item remote (both_modes url) ;;
        ret true
    | [] =>
        LOG ERROR (remote_prefix ++ " unable to add remote from expected modes") ;;
        ret false
    end.

(** The body of the loop over remotes, lines 268-345.  The store is
    [observed_remote_mode_url]. *)
Definition sync_remote (git : list string) (prefix : string)
    (expected_remote_mode_url : REMOTE_MODE_URL_TYPE) (remote : string)
  : M REMOTE_MODE_URL_TYPE unit :=
  let remote_prefix := prefix ++ " [" ++ remote ++ "]" in
  observed_remote_mode_url <- load ;;
  let observed_mode_url := Dict.get remote observed_remote_mode_url in
  match Dict.get remote expected_remote_mode_url with
  | None | Some [] => LOG WARNING (remote_prefix ++ " unexpected remote")
  | Some expected_mode_url =>
      if opt_eqb mode_url_eqb (Some expected_mode_url) observed_mode_url
      then ret tt
      else
        LOG DEBUG (remote_prefix ++ " remote sync needed") ;;
        present <-
          (if negb (Dict.mem remote observed_remote_mode_url)
           then add_remote git remote_prefix remote expected_mode_url
           else ret true) ;;
        if present then
          LOG DEBUG (remote_prefix ++ " remote exists") ;;
          zoom 308 (Dict.get remote) (Dict.set remote)
            (observed_mode_url <- load ;;
             for_each
               (sync_mode git remote_prefix remote expected_mode_url)
               (sorted (set_union (Dict.keys expected_mode_url)
                                  (Dict.keys observed_mode_url))))
        else ret tt
  end.

(** The loop over the candidates, lines 231-259.  Returns whether a
    clone exists afterwards ([false] is [continue]).  The store is
    [observed]. *)
Fixpoint clone_from (project path prefix : string)
    (candidates : list (string * string)) : M Topology bool :=
  match candidates with
  | [] =>
      LOG ERROR (prefix ++ " unable to clone from expected remotes") ;;
      ret false
  | (remote, url) :: rest =>
      let remote_prefix := prefix ++ " [" ++ remote ++ "]" in
      result <- run ["git"; "clone"; "--origin"; remote; url; path] ;;
      if negb (Z.eqb (returncode result) 0) then
        LOG WARNING (remote_prefix ++ " clone from '" ++ url ++ "' failed:"
                     ++ PyStr.nl ++ stderr result) ;;
        clone_from project path prefix rest
      else
        LOG INFO (remote_prefix ++ " clone from '" ++ url ++ "' complete:"
                  ++ PyStr.nl ++ stderr result) ;;
        set_item project (Remotes [(remote, both_modes url)]) ;;
        ret true
  end.

(** Lines 224-259. *)
Definition clone_project (project path prefix : string)
    (expected_remote_mode_url : REMOTE_MODE_URL_TYPE) : M Topology bool :=
  if negb (clone args) then
    LOG WARNING (prefix ++ " skipping (rerun with --clone)...") ;;
    ret false
  else
    LOG INFO (prefix ++ " cloning...") ;;
    clone_from project path prefix
      (_fetchable_remote_urls expected_remote_mode_url).

(** Lines 220-345: the project is expected and differs from what is
    observed.  Returns whether the checks of lines 347-389 follow. *)
Definition sync_project (project path prefix : string)
    (expected_remote_mode_url : REMOTE_MODE_URL_TYPE) : M Topology bool :=
  let git := ["git"; "-C"; path] in
  LOG DEBUG (prefix ++ " project sync needed") ;;
  observed <- load ;;
  present <-
    (if negb (Dict.mem project observed)
     then clone_project project path prefix expected_remote_mode_url
     else ret true) ;;
  if present then
    LOG DEBUG (prefix ++ " clone exists") ;;
    zoom 262 (remotes_of project) (fun r => Dict.set project (Remotes r))
      (observed_remote_mode_url <- load ;;
       for_each (sync_remote git prefix expected_remote_mode_url)
         (sorted (set_union (Dict.keys expected_remote_mode_url)
                            (Dict.keys observed_remote_mode_url)))) ;;
    ret true
  else ret false.

(** Lines 347-389. *)
Definition post_checks {S} (git : list string) (prefix : string) : M S unit :=
  (if fetch args then
     LOG INFO (prefix ++ " fetching all remotes...") ;;
     result <- run (git ++ ["fetch"; "--all"; "--tags"; "--prune"])%list ;;
     (if PyStr.truthy (stdout result)
      then LOG INFO (prefix ++ " fetched updates:" ++ PyStr.nl ++ stdout result)
      else ret tt) ;;
     (if negb (Z.eqb (returncode result) 0)
      then LOG WARNING (prefix ++ " fetch failed:" ++ PyStr.nl ++ stderr result)
      else ret tt)
   else ret tt) ;;
  LOG DEBUG (prefix ++ " checking for branches...") ;;
  result <- run (git ++ ["show-ref"; "--heads"])%list ;;
  (if Z.eqb (returncode result) 0
   then LOG INFO (prefix ++ " local branches:" ++ PyStr.nl ++ stdout result)
   else ret tt) ;;
  LOG DEBUG (prefix ++ " checking for stashed changes...") ;;
  result <- run_checked (git ++ ["stash"; "list"])%list ;;
  (if PyStr.truthy (stdout result)
   then LOG INFO (prefix ++ " stashed changes:" ++ PyStr.nl ++ stdout result)
   else ret tt) ;;
  LOG DEBUG (prefix ++ " checking for untracked files...") ;;
  result <- run_checked
    (git ++ ["ls-files"; "--directory"; "--exclude-standard";
             "--no-empty-directory"; "--other"])%list ;;
  (if PyStr.truthy (stdout result)
   then LOG INFO (prefix ++ " untracked files:" ++ PyStr.nl ++ stdout result)
   else ret tt).

(** The body of the loop over projects, lines 190-389.  The store is
    [observed]; [document] is what [--spec] loaded. *)
Definition process_project (document : option (Dict.t REMOTE_MODE_URL_TYPE))
    (project : string) : M Topology unit :=
  let prefix := "[" ++ project ++ "]" in
  match re_search args with
  | InvalidRegex exc =>
      parser_error ("pattern: invalid regex '" ++ pattern args ++ "': " ++ exc)
  | Regex search =>
      if negb (search project) then LOG DEBUG (prefix ++ " ignoring...")
      else
        let path := os_path_join (projects args) project in
        LOG DEBUG (prefix ++ " " ++ path) ;;
        let git := ["git"; "-C"; path] in
        observed <- load ;;
        let expected := expected_of document observed in
        let expected_remote_mode_url := Dict.get project expected in
        let observed_remote_mode_url := Dict.get project observed in
        match observed_remote_mode_url with
        | Some (QueryFailed exc) =>
            LOG ERROR (prefix ++ " " ++ PyStr.strip (stderr (output exc)))
        | _ =>
            match expected_remote_mode_url with
            | Some (QueryFailed _) => raise (AssertionError 214)
            | None =>
                LOG WARNING (prefix ++ " unexpected project") ;;
                post_checks git prefix
            | Some (Remotes expected_remote_mode_url) =>
                checks <-
                  (if opt_eqb queried_eqb
                        (Some (Remotes expected_remote_mode_url))
                        observed_remote_mode_url
                   then ret true
                   else sync_project project path prefix
                          expected_remote_mode_url) ;;
                if checks then post_checks git prefix else ret tt
            end
        end
  end.

(** The loop of line 189 over a given list of projects. *)
Definition process_projects (document : option (Dict.t REMOTE_MODE_URL_TYPE))
    (l : list string) : M Topology unit :=
  for_each (process_project document) l.

(** Lines 189-389. *)
Definition check_every_project
    (document : option (Dict.t REMOTE_MODE_URL_TYPE)) : M Topology unit :=
  observed <- load ;;
  process_projects document
    (sorted (set_union (Dict.keys (expected_of document observed))
                       (Dict.keys observed))).

(** The dict written by [json.dump], lines 398-404: the comprehension
    inserts the kept items one after the other. *)
Definition snapshot_item (acc : Dict.t REMOTE_MODE_URL_TYPE)
    (item : string * REMOTE_MODE_URL_RETURN_TYPE)
  : Dict.t REMOTE_MODE_URL_TYPE :=
  match item with
  | (project, Remotes remote_mode_url) =>
      Dict.set project remote_mode_url acc
  | (_, QueryFailed _) => acc
  end.

Definition snapshot (expected : Topology) : Dict.t REMOTE_MODE_URL_TYPE :=
  fold_left snapshot_item (Dict.items expected) Dict.empty.

(** [open(path, mode)] for writing: mode ["x"] refuses an existing file. *)
Definition open_for_writing (path : string) (exclusive : bool)
  : option string :=
  if exclusive && exists_ w path
  then Some (file_exists_error w path)
  else open_error w path.

(** Lines 391-411: the [try] holds the [open] and the [json.dump], so an
    [OSError] of either is logged before the exit with status 1; after a
    failed write the file exists and does not hold the specification. *)
Definition write_spec (document : option (Dict.t REMOTE_MODE_URL_TYPE))
  : M Topology unit :=
  match spec_create args with
  | None => ret tt
  | Some dest =>
      LOG INFO ("writing spec to '" ++ dest ++ "'...") ;;
      match open_for_writing dest (negb (spec_create_overwrite args)) with
      | Some exc => LOG ERROR exc ;; raise (SystemExit 1)
      | None =>
          observed <- load ;;
          match write_error w dest with
          | Some exc =>
              emit (Spoiled dest) ;; LOG ERROR exc ;; raise (SystemExit 1)
          | None =>
              emit (JsonDump dest (snapshot (expected_of document observed)))
          end
      end
  end.

(** Lines 168-173: the dict comprehension over the listed names; an
    exception of a query leaves it. *)
Fixpoint observe (names : list string) : M Topology unit :=
  match names with
  | [] => ret tt
  | project :: rest =>
      r <- _remote_mode_url (os_path_join (projects args) project) ;;
      set_item project r ;;
      observe rest
  end.

(** Lines 176-186: the handlers are for [OSError] and
    [json.JSONDecodeError]. *)
Definition load_spec {S} : M S (option (Dict.t REMOTE_MODE_URL_TYPE)) :=
  match spec args with
  | None => ret None
  | Some path =>
      LOG DEBUG ("loading spec from '" ++ path ++ "'...") ;;
      match read_spec w path with
      | SpecUnreadable exc =>
          parser_error ("--spec: can't open '" ++ path ++ "': " ++ exc)
      | SpecNotText exc => raise (UnicodeDecodeError exc)
      | SpecUndecodable exc =>
          parser_error
            ("--spec: can't decode JSON from '" ++ path ++ "': " ++ exc)
      | SpecDocument d => ret (Some d)
      end
  end.

(** Lines 165-413, once the options are settled.  The [try] of lines
    167-175 holds the listing and the queries: an [OSError] of either is
    the usage error of line 175. *)
Definition main_body : M Topology unit :=
  match listdir w (projects args) with
  | inl exc =>
      parser_error
        ("--projects: can't list '" ++ projects args ++ "': " ++ exc)
  | inr names =>
      try_except (observe names)
        (fun e =>
           match e with
           | OSError exc =>
               Some (parser_error
                       ("--projects: can't list '" ++ projects args ++ "': "
                        ++ exc))
           | _ => None
           end) ;;
      document <- load_spec ;;
      check_every_project document ;;
      write_spec document ;;
      raise (SystemExit 0)
  end.

End Program.

(** Lines 160-163: [--sync] grants the three capabilities. *)
Definition apply_sync (args : Args) : Args :=
  if sync args then
    {| clone := true; fetch := true; set_urls := true;
       spec := spec args; spec_create := spec_create args;
       spec_create_overwrite := spec_create_overwrite args;
       projects := projects args; sync := true; pattern := pattern args;
       re_search := re_search args |}
  else args.

(** [main], lines 152-413, from the parsed command line. *)
Definition main (w : World) (args : Args) : Res unit * Topology * list Event :=
  main_body w (apply_sync args) Dict.empty [].

(* ===================================================================== *)
(** ** Observations on traces and topologies *)
(* ===================================================================== *)

(** [git clone ...] *)
Definition is_clone (argv : list string) : bool :=
  match argv with
  | g :: c :: _ => String.eqb g "git" && String.eqb c "clone"
  | _ => false
  end.

(** [git -C path remote <sub> ...] *)
Definition is_remote_command (sub : string) (argv : list string) : bool :=
  match argv with
  | g :: c :: _ :: r :: a :: _ =>
      String.eqb g "git" && String.eqb c "-C" && String.eqb r "remote"
      && String.eqb a sub
  | _ => false
  end.

(** The corrective actions: clone, add-remote and set-url. *)
Definition corrective_command (argv : list string) : bool :=
  is_clone argv || is_remote_command "add" argv
  || is_remote_command "set-url" argv.

Definition corrective (e : Event) : bool :=
  match e with
  | Run argv _ => corrective_command argv
  | _ => false
  end.

Definition actions (tr : list Event) : list Event := filter corrective tr.

(** A clone that returned a non-zero status. *)
Definition failed_clone (e : Event) : bool :=
  match e with
  | Run argv r => is_clone argv && negb (Z.eqb (returncode r) 0)
  | _ => false
  end.

(** The command lines of a trace, in order. *)
Definition commands (tr : list Event) : list (list string) :=
  flat_map (fun e => match e with Run argv _ => [argv] | _ => [] end) tr.

(** The clones of a trace, in order: origin label, URL and whether the
    clone succeeded. *)
Definition clone_attempts (tr : list Event) : list (string * string * bool) :=
  flat_map
    (fun e =>
       match e with
       | Run (g :: c :: o :: remote :: url :: _) r =>
           if is_clone (g :: c :: o :: remote :: url :: nil)
           then [(remote, url, Z.eqb (returncode r) 0)] else []
       | _ => []
       end) tr.

(** The log records of a given level. *)
Definition logged (level : Level) (tr : list Event) : list string :=
  flat_map
    (fun e =>
       match e with
       | Log l m =>
           match l, level with
           | DEBUG, DEBUG | INFO, INFO | WARNING, WARNING | ERROR, ERROR => [m]
           | _, _ => []
           end
       | _ => []
       end) tr.

(** The result, the final store and the final trace of a computation. *)
Definition result_of {S A} (x : Res A * S * list Event) : Res A := fst (fst x).
Definition store_of {S A} (x : Res A * S * list Event) : S := snd (fst x).
Definition trace_of {S A} (x : Res A * S * list Event) : list Event := snd x.

(** What a computation may raise. *)
Definition raises_only {S A} (P : Exception -> Prop) (m : M S A) : Prop :=
  forall s tr e, result_of (m s tr) = Raised e -> P e.

(** A computation that leaves the store as it found it. *)
Definition keeps_store {S A} (m : M S A) : Prop :=
  forall s tr, store_of (m s tr) = s.

(** A computation on a dict that leaves every key but [k] as it found it. *)
Definition touches_only {V A} (k : string) (m : M (Dict.t V) A) : Prop :=
  forall d tr k', k' <> k -> Dict.get k' (store_of (m d tr)) = Dict.get k' d.

(** A computation that only appends events satisfying [P] to the trace. *)
Definition adds_only {S A} (P : Event -> bool) (m : M S A) : Prop :=
  forall s tr, exists new,
    trace_of (m s tr) = (tr ++ new)%list /\ forallb P new = true.

Definition is_log (e : Event) : bool :=
  match e with Log _ _ => true | _ => false end.

Definition not_corrective (e : Event) : bool := negb (corrective e).

Definition not_clone (e : Event) : bool :=
  match e with
  | Run argv _ => negb (is_clone argv)
  | _ => true
  end.

Definition any_event (e : Event) : bool := true.

(** One mode (one remote) of the two predicates below. *)
Definition mode_covered (expected observed : MODE_URL_TYPE) (mode : string)
  : Prop :=
  forall url,
    Dict.get mode expected = Some url -> url <> EmptyString ->
    Dict.get mode observed = Some url.

(** A computation that, from the store [s], returns or raises with the
    store unchanged and adds only events satisfying [P]. *)
Definition quiet_at {S A} (P : Event -> bool) (m : M S A) (s : S) : Prop :=
  forall tr,
    store_of (m s tr) = s
    /\ exists new, trace_of (m s tr) = (tr ++ new)%list /\ forallb P new = true.

(** Every mode that [expected] binds to a non-empty URL is bound to the
    same URL in [observed]. *)
Definition modes_covered (expected observed : MODE_URL_TYPE) : Prop :=
  forall mode, mode_covered expected observed mode.

Definition remote_covered (expected observed : REMOTE_MODE_URL_TYPE)
    (remote : string) : Prop :=
  forall mode_url,
    Dict.get remote expected = Some mode_url -> mode_url <> [] ->
    exists observed_mode_url,
      Dict.get remote observed = Some observed_mode_url
      /\ modes_covered mode_url observed_mode_url.

(** Every remote that [expected] binds to a non-empty dict exists in
    [observed] and has its modes covered. *)
Definition remotes_covered (expected observed : REMOTE_MODE_URL_TYPE) : Prop :=
  forall remote, remote_covered expected observed remote.

(** The condition under which a project needs no corrective action. *)
Definition settled (args : Args)
    (document : option (Dict.t REMOTE_MODE_URL_TYPE))
    (observed : Topology) (project : string) : Prop :=
  match re_search args with
  | InvalidRegex _ => True
  | Regex search =>
      search project = false
      \/ match Dict.get project (expected_of document observed),
               Dict.get project observed with
         | _, Some (QueryFailed _) => True
         | None, _ => True
         | Some (QueryFailed _), _ => True
         | Some (Remotes e), None =>
             clone args = false \/ _fetchable_remote_urls e = []
         | Some (Remotes e), Some (Remotes o) =>
             remote_mode_url_eqb e o = true
             \/ set_urls args = false
             \/ remotes_covered e o
         end
  end.

(* ===================================================================== *)
(** ** What the specification says, in its own words *)
(* ===================================================================== *)


(** The specification's exported snapshot, project by project: "preferring
    each project's expected RemoteMap, falling back to its final observed
    RemoteMap when absent from expected, excluding any project whose
    observed state is QueryFailed". *)
Definition snapshot_in_spec_words (expected observed : Topology)
    (project : string) : option REMOTE_MODE_URL_TYPE :=
  match Dict.get project observed with
  | Some (QueryFailed _) => None
  | observed_state =>
      match Dict.get project expected with
      | Some (Remotes remote_mode_url) => Some remote_mode_url
      | _ =>
          match observed_state with
          | Some (Remotes remote_mode_url) => Some remote_mode_url
          | _ => None
          end
      end
  end.

(* ===================================================================== *)
(** ** Concrete worlds and command lines *)
(* ===================================================================== *)

Module Fixtures.

Definition done : CompletedProcess :=
  {| returncode := 0; stdout := EmptyString; stderr := EmptyString |}.

Definition failed (message : string) : CompletedProcess :=
  {| returncode := 128; stdout := EmptyString; stderr := message |}.

(** A world whose git client answers by the command line alone, with
    nothing listed, no specification file and a free destination. *)
Definition world (git : list string -> CompletedProcess) : World :=
  {| listdir := fun _ => inr [];
     subprocess := fun _ argv => git argv;
     spawn_failure := fun _ _ => None;
     read_spec := fun _ => SpecDocument [];
     exists_ := fun _ => false;
     open_error := fun _ => None;
     file_exists_error :=
       fun path => "[Errno 17] File exists: '" ++ path ++ "'";
     write_error := fun _ => None |}.

Definition everything_works : World := world (fun _ => done).

(** The command line [--projects /srv] with the given capabilities and
    the default pattern, which every name matches. *)
Definition flags (clone fetch set_urls : bool) : Args :=
  {| clone := clone; fetch := fetch; set_urls := set_urls;
     spec := Some "spec.json"; spec_create := None;
     spec_create_overwrite := false; projects := "/srv"; sync := false;
     pattern := ".*"; re_search := Regex (fun _ => true) |}.

(** The same, with [--spec-create out.json]. *)
Definition flags_export (overwrite : bool) : Args :=
  {| clone := false; fetch := false; set_urls := false;
     spec := Some "spec.json"; spec_create := Some "out.json";
     spec_create_overwrite := overwrite; projects := "/srv"; sync := false;
     pattern := ".*"; re_search := Regex (fun _ => true) |}.

(** Does the command line name the given subcommand of [git remote]? *)
Definition is_remote_add (argv : list string) : bool :=
  is_remote_command "add" argv.
Definition is_set_url (argv : list string) : bool :=
  is_remote_command "set-url" argv.


(** Every clone fails. *)
Definition no_clone_works (argv : list string) : CompletedProcess :=
  if is_clone argv then failed "fatal: repository not found" else done.

(** [git remote add] fails (the query finds a repository without
    remotes). *)
Definition add_fails (argv : list string) : CompletedProcess :=
  if is_remote_add argv then failed "fatal: cannot add" else done.

(** [git remote set-url] fails; the query of [/srv/p1] and [/srv/p2]
    finds the remote [origin]. *)
Definition origin_at (url : string) : string :=
  "origin" ++ String PyStr.TAB (url ++ " (fetch)") ++ PyStr.nl
  ++ "origin" ++ String PyStr.TAB (url ++ " (push)") ++ PyStr.nl.

Definition set_url_fails (argv : list string) : CompletedProcess :=
  match argv with
  | [_; _; _; "remote"; "-v"] =>
      {| returncode := 0; stdout := origin_at "old"; stderr := EmptyString |}
  | _ => if is_set_url argv then failed "fatal: cannot set" else done
  end.

(** Two projects in the projects directory, and a specification that
    gives each the remote [origin] at [new]. *)
Definition two_projects (git : list string -> CompletedProcess) : World :=
  {| listdir := fun _ => inr ["p1"; "p2"];
     subprocess := fun _ argv => git argv;
     spawn_failure := fun _ _ => None;
     read_spec := fun _ =>
       SpecDocument [("p1", [("origin", [("fetch", "new")])]);
                     ("p2", [("origin", [("fetch", "new")])])];
     exists_ := fun _ => false;
     open_error := fun _ => None;
     file_exists_error :=
       fun path => "[Errno 17] File exists: '" ++ path ++ "'";
     write_error := fun _ => None |}.

(** Inputs of the examples: specifications, observed topologies. *)
Definition a_spec_and_another_project
  : Dict.t REMOTE_MODE_URL_TYPE * Topology :=
  ([("a", [("origin", [("fetch", "ua")])])],
   [("a", QueryFailed
            {| cmd := ["git"; "-C"; "/srv/a"; "remote"; "-v"];
               output := failed "fatal: not a git repository" |});
    ("b", Remotes [("origin", both_modes "ub")])]).



Definition push_only : Dict.t REMOTE_MODE_URL_TYPE :=
  [("p", [("a", [("push", "u")])])].

Definition fetch_and_push : Dict.t REMOTE_MODE_URL_TYPE :=
  [("p", [("origin", [("fetch", "x"); ("push", "y")])])].

Definition broken : Topology :=
  [("broken", QueryFailed
                {| cmd := ["git"; "-C"; "/srv/broken"; "remote"; "-v"];
                   output := failed "fatal: not a git repository" |})].

(** A first run that clones [p] and corrects its push URL. *)
Definition first_run := Eval vm_compute in
  check_every_project everything_works (flags true false true)
    (Some fetch_and_push) [] [].

End Fixtures.

(* ===================================================================== *)
(** ** The output of [git remote -v] and well-formed dicts *)
(* ===================================================================== *)

(** Does the character occur in the string? *)
Fixpoint contains (c : ascii) (s : string) : bool :=
  match s with
  | EmptyString => false
  | String a s' => Ascii.eqb a c || contains c s'
  end.

(** One line of [git remote -v]: the name, a tab, the URL, a space and the
    mode between parentheses.  This is the format that lines 132-139
    take apart.  (For a remote with a partial clone filter git appends the
    filter between brackets, which is another format.) *)
Definition remote_v_line (remote mode url : string) : string :=
  remote ++ String PyStr.TAB (url ++ " (" ++ mode ++ ")").

(** The lines of all the modes of all the remotes, and the whole output:
    every line ends with a newline. *)
Definition remote_v_lines (d : REMOTE_MODE_URL_TYPE) : list string :=
  flat_map
    (fun item =>
       map (fun mode_url => remote_v_line (fst item) (fst mode_url) (snd mode_url))
           (snd item))
    d.

Definition remote_v_output (d : REMOTE_MODE_URL_TYPE) : string :=
  fold_right (fun line rest => line ++ PyStr.nl ++ rest) EmptyString
    (remote_v_lines d).

(** A mode that such a line can carry: no tab, newline or space, and no
    parenthesis at either end. *)
Definition printable_mode (mode : string) : Prop :=
  contains PyStr.TAB mode = false
  /\ contains PyStr.LF mode = false
  /\ contains PyStr.SP mode = false
  /\ PyStr.strip_chars ["("%char; ")"%char] mode = mode.

(** A URL that such a line can carry: no tab and no newline. *)
Definition printable_url (url : string) : Prop :=
  contains PyStr.TAB url = false /\ contains PyStr.LF url = false.

(** The remote maps whose lines are read back as they were printed:
    distinct remote names without a newline, each with at least one mode,
    distinct printable modes and printable URLs; and no carriage return in
    a name, a mode or a URL, since the output of git is read as text, where
    a carriage return becomes a newline. *)
Definition printable_remotes (d : REMOTE_MODE_URL_TYPE) : Prop :=
  NoDup (Dict.keys d)
  /\ (forall remote mode_url,
         In (remote, mode_url) d ->
         contains PyStr.LF remote = false
         /\ mode_url <> []
         /\ NoDup (Dict.keys mode_url)
         /\ forall mode url,
              In (mode, url) mode_url ->
              printable_mode mode /\ printable_url url)
  /\ forall remote mode_url,
       In (remote, mode_url) d ->
       contains PyStr.CR remote = false
       /\ forall mode url,
            In (mode, url) mode_url ->
            contains PyStr.CR mode = false /\ contains PyStr.CR url = false.

(** Distinct keys at every level of a remote map and of a topology, and
    no remote without a mode. *)
Definition wf_remotes (d : REMOTE_MODE_URL_TYPE) : Prop :=
  NoDup (Dict.keys d)
  /\ forall remote mode_url,
       In (remote, mode_url) d -> NoDup (Dict.keys mode_url).

Definition wf_queried (q : REMOTE_MODE_URL_RETURN_TYPE) : Prop :=
  match q with
  | Remotes d => wf_remotes d
  | QueryFailed _ => True
  end.

Definition wf_topology (t : Topology) : Prop :=
  NoDup (Dict.keys t)
  /\ forall project q, In (project, q) t -> wf_queried q.

(** The keys that a loop over a scope visits: strictly ascending (so each
    once), and those of either dict. *)
Definition visits (visited a b : list string) : Prop :=
  Sorted (fun x y => String.ltb x y = true) visited
  /\ NoDup visited
  /\ forall k, In k visited <-> In k a \/ In k b.

(* ===================================================================== *)
(** ** The queries of lines 167-173 *)
(* ===================================================================== *)

(** The command line of the query of one project, line 125 with the path
    of line 170. *)
Definition query_command (args : Args) (project : string) : list string :=
  ["git"; "-C"; os_path_join (projects args) project; "remote"; "-v"].

(** What [observed] holds for a project was read off one of the queries of
    the trace: a remote map is the parse of the output of a query that
    returned 0, a failure carries its command line and a non-zero status. *)
Definition answered (args : Args) (project : string)
    (q : REMOTE_MODE_URL_RETURN_TYPE) (tr : list Event) : Prop :=
  match q with
  | Remotes d =>
      exists r,
        In (Run (query_command args project) r) tr
        /\ returncode r = 0%Z /\ d = parse_remotes (stdout r)
  | QueryFailed exc =>
      In (Run (cmd exc) (output exc)) tr
      /\ cmd exc = query_command args project
      /\ returncode (output exc) <> 0%Z
  end.

(* ===================================================================== *)
(** ** Triples, and how a run can end *)
(* ===================================================================== *)

(** From a store that satisfies [Pre], the computation returns a value and
    a store that satisfy [Post], or raises an exception that satisfies
    [Exc] together with the trace at that point. *)
Definition triple {S A} (Pre : S -> Prop) (m : M S A) (Post : A -> S -> Prop)
    (Exc : Exception -> list Event -> Prop) : Prop :=
  forall s tr, Pre s ->
    match m s tr with
    | (Normal a, s', _) => Post a s'
    | (Raised e, _, tr') => Exc e tr'
    end.

(** No condition on the store, before or after. *)
Definition safe {S A} (Exc : Exception -> list Event -> Prop) (m : M S A)
  : Prop :=
  triple (fun _ => True) m (fun _ _ => True) Exc.

(** [git -C path stash list] and [git -C path ls-files ...] *)
Definition is_stash_list (argv : list string) : bool :=
  match argv with
  | [g; c; _; s; l] =>
      String.eqb g "git" && String.eqb c "-C" && String.eqb s "stash"
      && String.eqb l "list"
  | _ => false
  end.

Definition is_ls_files (argv : list string) : bool :=
  match argv with
  | g :: c :: _ :: l :: _ =>
      String.eqb g "git" && String.eqb c "-C" && String.eqb l "ls-files"
  | _ => false
  end.

(** The commands whose status the source checks ([check=True] at lines 293
    and 343, [check_output] at lines 370 and 377) outside a [try]. *)
Definition checked_command (argv : list string) : bool :=
  is_remote_command "add" argv || is_remote_command "set-url" argv
  || is_stash_list argv || is_ls_files argv.

(** The two ways in which the loop over the projects ends early, when
    its commands start and write text: the usage error of an invalid
    pattern, or a checked command that returned a non-zero status and was
    the last thing the run did. *)
Definition ends_the_loop (args : Args) (e : Exception) (tr : list Event)
  : Prop :=
  match e with
  | SystemExit code =>
      code = 2
      /\ (exists message, re_search args = InvalidRegex message)
      /\ exists before message, tr = (before ++ [Usage message])%list
  | ProcessError exc =>
      checked_command (cmd exc) = true
      /\ returncode (output exc) <> 0%Z
      /\ exists before, tr = (before ++ [Run (cmd exc) (output exc)])%list
  | AssertionError _ | OSError _ | LookupError _ | UnicodeDecodeError _ =>
      False
  end.


(* ===================================================================== *)
(** ** More worlds and command lines *)
(* ===================================================================== *)

Module MoreFixtures.

(** The projects directory holds [p1] and [p2]; the file of [--spec]
    cannot be read. *)
Definition unreadable_spec : World :=
  {| listdir := fun _ => inr ["p1"; "p2"];
     subprocess := fun _ _ => Fixtures.done;
     spawn_failure := fun _ _ => None;
     read_spec := fun _ => SpecUnreadable "[Errno 2] No such file or directory";
     exists_ := fun _ => false;
     open_error := fun _ => None;
     file_exists_error :=
       fun path => "[Errno 17] File exists: '" ++ path ++ "'";
     write_error := fun _ => None |}.

(** The projects directory cannot be listed. *)
Definition unlistable : World :=
  {| listdir := fun _ => inl "[Errno 2] No such file or directory: '/srv'";
     subprocess := fun _ _ => Fixtures.done;
     spawn_failure := fun _ _ => None;
     read_spec := fun _ => SpecDocument [];
     exists_ := fun _ => false;
     open_error := fun _ => None;
     file_exists_error :=
       fun path => "[Errno 17] File exists: '" ++ path ++ "'";
     write_error := fun _ => None |}.

(** [--projects /srv] with every capability, a pattern, and no [--spec]
    unless given. *)
Definition with_pattern (spec : option string) (pattern : string)
    (re_search : Pattern) : Args :=
  {| clone := true; fetch := true; set_urls := true;
     spec := spec; spec_create := None;
     spec_create_overwrite := false; projects := "/srv"; sync := false;
     pattern := pattern; re_search := re_search |}.

(** The pattern [(] is not a regular expression. *)
Definition bad_pattern : Args :=
  with_pattern None "("
    (InvalidRegex "missing ), unterminated subpattern at position 0").

(** The pattern [^lib] matches the names that start with [lib]. *)
Definition lib_only : Args :=
  with_pattern None "^lib"
    (Regex (fun project => String.prefix "lib" project)).

End MoreFixtures.

(** The record that line 194 logs for a project that the pattern leaves
    out. *)
Definition ignoring (project : string) : Event :=
  Log DEBUG (("[" ++ project ++ "]") ++ " ignoring...").

(* ===================================================================== *)
(** ** Capabilities *)
(* ===================================================================== *)

(** [git -C path fetch ...] *)
Definition is_fetch (argv : list string) : bool :=
  match argv with
  | g :: c :: _ :: f :: _ =>
      String.eqb g "git" && String.eqb c "-C" && String.eqb f "fetch"
  | _ => false
  end.


(* ===================================================================== *)
(** ** The commands of lines 347-389 *)
(* ===================================================================== *)

Definition git_fetch (path : string) : list string :=
  ["git"; "-C"; path; "fetch"; "--all"; "--tags"; "--prune"].
Definition git_show_ref (path : string) : list string :=
  ["git"; "-C"; path; "show-ref"; "--heads"].
Definition git_stash_list (path : string) : list string :=
  ["git"; "-C"; path; "stash"; "list"].
Definition git_ls_files (path : string) : list string :=
  ["git"; "-C"; path; "ls-files"; "--directory"; "--exclude-standard";
   "--no-empty-directory"; "--other"].

(** The commands that precede the two checked ones. *)
Definition unchecked_commands (args : Args) (path : string)
  : list (list string) :=
  ((if fetch args then [git_fetch path] else []) ++ [git_show_ref path])%list.

(** Anything but the query [git -C path remote -v], with a result or
    without one. *)
Definition not_query (e : Event) : bool :=
  match e with
  | Run argv _ | Aborted argv _ => negb (is_remote_command "-v" argv)
  | _ => true
  end.

(** Anything but a write to the destination of [--spec-create]: the
    exported specification, or what a failed write leaves there. *)
Definition not_a_write (e : Event) : bool :=
  match e with
  | JsonDump _ _ | Spoiled _ => false
  | _ => true
  end.

(** A computation that writes nothing to the destination of
    [--spec-create] and does not exit with status 0. *)
Definition calm {S A} (m : M S A) : Prop :=
  forall s tr, exists new,
    trace_of (m s tr) = (tr ++ new)%list
    /\ forallb not_a_write new = true
    /\ result_of (m s tr) <> Raised (SystemExit 0).

(** A log record whose message starts with the given text; any other
    event. *)
Definition starts_with (text : string) (e : Event) : bool :=
  match e with
  | Log _ message => String.prefix text message
  | _ => true
  end.

(** The queries of the listed names, from the trace [tr], stop at a name
    whose query has no result: the names before it were queried, each
    with a result, and the last event is the query without one. *)
Definition stopped_at (w : World) (args : Args) (names : list string)
    (tr new : list Event) (failure : SpawnFailure) : Prop :=
  exists done project rest queries,
    names = (done ++ project :: rest)%list
    /\ new = (queries ++ [Aborted (query_command args project) failure])%list
    /\ commands queries = map (query_command args) done
    /\ length queries = length done
    /\ spawn_failure w (tr ++ queries)%list (query_command args project)
       = Some failure.

(* ===================================================================== *)
(** ** Worlds where a query or the specification fails *)
(* ===================================================================== *)

Module FailureFixtures.

(** The projects directory holds [p1] and [p2]; the file of [--spec] is
    not text in the encoding. *)
Definition binary_spec : World :=
  {| listdir := fun _ => inr ["p1"; "p2"];
     subprocess := fun _ _ => Fixtures.done;
     spawn_failure := fun _ _ => None;
     read_spec :=
       fun _ =>
         SpecNotText
           "'utf-8' codec can't decode byte 0xff in position 0: invalid start byte";
     exists_ := fun _ => false;
     open_error := fun _ => None;
     file_exists_error :=
       fun path => "[Errno 17] File exists: '" ++ path ++ "'";
     write_error := fun _ => None |}.

(** The projects directory holds [p1], [p2] and [p3]; git answers for
    [p1], and the query of [p2] has no result. *)
Definition second_query (failure : SpawnFailure) : World :=
  {| listdir := fun _ => inr ["p1"; "p2"; "p3"];
     subprocess := fun _ _ => Fixtures.done;
     spawn_failure :=
       fun _ argv =>
         match argv with
         | [_; _; "/srv/p2"; _; _] => Some failure
         | _ => None
         end;
     read_spec := fun _ => SpecDocument [];
     exists_ := fun _ => false;
     open_error := fun _ => None;
     file_exists_error :=
       fun path => "[Errno 17] File exists: '" ++ path ++ "'";
     write_error := fun _ => None |}.

End FailureFixtures.

(** Every command of the trace whose status is checked returned 0. *)
Definition checked_pass (tr : list Event) : Prop :=
  forall argv r,
    In (Run argv r) tr -> checked_command argv = true -> returncode r = 0%Z.

(** A git client for which [git stash list] fails. *)
Definition stash_list_fails (argv : list string) : CompletedProcess :=
  if is_stash_list argv
  then Fixtures.failed "fatal: not a git repository"
  else Fixtures.done.

(** A git client for which the fetch and [git show-ref] fail. *)
Definition fetch_and_show_ref_fail (argv : list string) : CompletedProcess :=
  if is_fetch argv || negb (checked_command argv)
  then Fixtures.failed "fatal: unable to access"
  else Fixtures.done.

(** The projects directory holds [q]; the specification names [p], with a
    push URL that differs from the fetch URL. *)
Definition one_listed_one_specified : World :=
  {| listdir := fun _ => inr ["q"];
     subprocess := fun _ _ => Fixtures.done;
     spawn_failure := fun _ _ => None;
     read_spec := fun _ => SpecDocument Fixtures.fetch_and_push;
     exists_ := fun _ => false;
     open_error := fun _ => None;
     file_exists_error :=
       fun path => "[Errno 17] File exists: '" ++ path ++ "'";
     write_error := fun _ => None |}.

(** An empty projects directory; the destination of [--spec-create]
    exists, or can be opened and not written. *)
Definition destination (taken : bool) (unwritable : option string) : World :=
  {| listdir := fun _ => inr [];
     subprocess := fun _ _ => Fixtures.done;
     spawn_failure := fun _ _ => None;
     read_spec := fun _ => SpecDocument [];
     exists_ := fun _ => taken;
     open_error := fun _ => None;
     file_exists_error :=
       fun path => "[Errno 17] File exists: '" ++ path ++ "'";
     write_error := fun _ => unwritable |}.

(* ===================================================================== *)
(** * Properties *)
(* ===================================================================== *)

(** ** Dictionaries *)

Module DictFacts.
Section DictFacts.
Variable V : Type.
Implicit Types (d : Dict.t V) (k : string) (v : V).

Lemma get_set_same k v d : Dict.get k (Dict.set k v d) = Some v.
Proof.
  induction d as [|[k' v'] d IH]; simpl.
  - now rewrite String.eqb_refl.
  - destruct (String.eqb k k') eqn:E; simpl; rewrite E; auto.
Qed.

Lemma get_set_other k k' v d :
  k <> k' -> Dict.get k' (Dict.set k v d) = Dict.get k' d.
Proof.
  intros Hne. induction d as [|[k0 v0] d IH]; simpl.
  - destruct (String.eqb k' k) eqn:E; auto.
    apply String.eqb_eq in E. congruence.
  - destruct (String.eqb k k0) eqn:E; simpl.
    + apply String.eqb_eq in E. subst k0.
      destruct (String.eqb k' k) eqn:E'; auto.
      apply String.eqb_eq in E'. congruence.
    + now rewrite IH.
Qed.

Lemma set_get_id k v d : Dict.get k d = Some v -> Dict.set k v d = d.
Proof.
  induction d as [|[k' v'] d IH]; simpl; [discriminate|].
  destruct (String.eqb k k') eqn:E.
  - now intros [= ->].
  - intros H. now rewrite IH.
Qed.


Lemma in_keys_get k d : In k (Dict.keys d) <-> Dict.get k d <> None.
Proof.
  induction d as [|[k' v'] d IH]; simpl.
  - split; [tauto | congruence].
  - destruct (String.eqb k k') eqn:E.
    + apply String.eqb_eq in E. split; [congruence | auto].
    + apply String.eqb_neq in E. rewrite <- IH.
      split; [intros [H|H]; congruence || auto | auto].
Qed.

Lemma get_none_not_in k d : Dict.get k d = None <-> ~ In k (Dict.keys d).
Proof.
  rewrite in_keys_get. destruct (Dict.get k d); split; intros H;
    try congruence; try discriminate.
  exfalso. apply H. discriminate.
Qed.

Lemma eqb_refl (veqb : V -> V -> bool) :
  (forall v, veqb v v = true) -> forall d, Dict.eqb veqb d d = true.
Proof.
  intros Hrefl d. unfold Dict.eqb. rewrite Nat.eqb_refl. simpl.
  apply forallb_forall. intros k _.
  destruct (Dict.get k d); simpl; auto.
Qed.

End DictFacts.
End DictFacts.

Lemma mode_url_eqb_refl (d : MODE_URL_TYPE) : mode_url_eqb d d = true.
Proof. apply DictFacts.eqb_refl, String.eqb_refl. Qed.

Lemma remote_mode_url_eqb_refl (d : REMOTE_MODE_URL_TYPE) :
  remote_mode_url_eqb d d = true.
Proof. apply DictFacts.eqb_refl, mode_url_eqb_refl. Qed.

(** ** Sorting and key sets *)

Lemma insert_sorted_in x y l : In y (insert_sorted x l) <-> y = x \/ In y l.
Proof.
  induction l as [|z l IH]; simpl.
  - intuition.
  - destruct (String.leb x z); simpl; rewrite ?IH; intuition.
Qed.

Lemma sorted_in x l : In x (sorted l) <-> In x l.
Proof.
  induction l as [|y l IH]; simpl; [tauto|].
  rewrite insert_sorted_in, IH. intuition.
Qed.

Lemma set_union_in x a b : In x (set_union a b) <-> In x a \/ In x b.
Proof. unfold set_union. now rewrite nodup_In, in_app_iff. Qed.

Lemma universe_in x a b : In x (sorted (set_union a b)) <-> In x a \/ In x b.
Proof. now rewrite sorted_in, set_union_in. Qed.

(** ** The monad and what a computation may raise *)

Section MonadFacts.
Context {S : Type}.

Lemma raises_only_bind {A B} P (m : M S A) (k : A -> M S B) :
  raises_only P m -> (forall a, raises_only P (k a)) ->
  raises_only P (bind m k).
Proof.
  intros Hm Hk s tr e. unfold bind.
  specialize (Hm s tr). destruct (m s tr) as [[[a|e'] s'] tr']; simpl in *.
  - apply Hk.
  - intros [= ->]. now apply Hm.
Qed.

Lemma raises_only_ret {A} P (a : A) : raises_only P (@ret S A a).
Proof. intros s tr e. discriminate. Qed.

Lemma raises_only_emit P ev : raises_only P (@emit S ev).
Proof. intros s tr e. discriminate. Qed.

Lemma raises_only_load P : raises_only P (@load S).
Proof. intros s tr e. discriminate. Qed.

Lemma raises_only_raise {A} (P : Exception -> Prop) e :
  P e -> raises_only P (@raise S A e).
Proof. intros H s tr e'. simpl. now intros [= <-]. Qed.

Lemma raises_only_for_each {A} P (body : A -> M S unit) l :
  (forall x, raises_only P (body x)) -> raises_only P (for_each body l).
Proof.
  intros Hb. induction l as [|x l IH]; simpl.
  - apply raises_only_ret.
  - apply raises_only_bind; auto.
Qed.

End MonadFacts.

Lemma raises_only_zoom {S T A} P line (g : S -> option T) put (m : M T A) :
  P (AssertionError line) -> raises_only P m ->
  raises_only P (zoom line g put m).
Proof.
  intros Hl Hm s tr e. unfold zoom. destruct (g s) as [t|]; simpl.
  - specialize (Hm t tr e). destruct (m t tr) as [[r t'] tr']. exact Hm.
  - now intros [= <-].
Qed.

Lemma raises_only_set_item {V} P k (v : V) : raises_only P (set_item k v).
Proof. intros s tr e. discriminate. Qed.

Section ProgramRaises.
Variable w : World.
Variable args : Args.
Variable P : Exception -> Prop.
Hypothesis P_process : forall exc, P (ProcessError exc).

Lemma raises_only_run {S} argv : raises_only P (@run w S argv).
Proof. intros s tr e. discriminate. Qed.

Lemma raises_only_run_checked {S} argv : raises_only P (@run_checked w S argv).
Proof.
  unfold run_checked. apply raises_only_bind; [apply raises_only_run|].
  intros r. apply raises_only_bind; [|intros; apply raises_only_ret].
  unfold check. destruct (Z.eqb _ _).
  - apply raises_only_ret.
  - now apply raises_only_raise.
Qed.

Ltac step :=
  first
    [ apply raises_only_ret | apply raises_only_emit | apply raises_only_load
    | apply raises_only_set_item | apply raises_only_run
    | apply raises_only_run_checked
    | apply raises_only_bind; [|intros ?]
    | apply raises_only_for_each; intros ?
    | match goal with
      | |- raises_only _ (if ?b then _ else _) => destruct b
      | |- raises_only _ (match ?x with _ => _ end) => destruct x
      end ].

Lemma raises_only_sync_mode git remote_prefix remote e mode :
  raises_only P (sync_mode w args git remote_prefix remote e mode).
Proof. unfold sync_mode, LOG. repeat step. Qed.

Lemma raises_only_post_checks {S} git prefix :
  raises_only P (@post_checks w args S git prefix).
Proof. unfold post_checks, LOG. repeat step. Qed.

Hypothesis P_308 : P (AssertionError 308).

Lemma raises_only_sync_remote git prefix e remote :
  raises_only P (sync_remote w args git prefix e remote).
Proof.
  unfold sync_remote, add_remote, LOG.
  repeat first [ apply raises_only_sync_mode
               | apply raises_only_zoom; [assumption|] | step ].
Qed.

Hypothesis P_262 : P (AssertionError 262).

Lemma raises_only_clone_from project path prefix cands :
  raises_only P (clone_from w project path prefix cands).
Proof.
  induction cands as [|[remote url] rest IH]; simpl; unfold LOG.
  - repeat step.
  - repeat first [ exact IH | step ].
Qed.

Lemma raises_only_sync_project project path prefix e :
  raises_only P (sync_project w args project path prefix e).
Proof.
  unfold sync_project, clone_project, LOG.
  repeat first [ apply raises_only_sync_remote | apply raises_only_clone_from
               | apply raises_only_zoom; [assumption|] | step ].
Qed.

End ProgramRaises.

Lemma get_expected_of_document d observed project :
  Dict.get project (expected_of (Some d) observed)
  = option_map Remotes (Dict.get project d).
Proof.
  simpl. induction d as [|[k v] d IH]; simpl; [reflexivity|].
  destruct (String.eqb project k); [reflexivity | exact IH].
Qed.

Lemma expected_query_failed document observed project exc :
  Dict.get project (expected_of document observed) = Some (QueryFailed exc) ->
  document = None /\ Dict.get project observed = Some (QueryFailed exc).
Proof.
  destruct document as [d|]; [|simpl; auto].
  rewrite get_expected_of_document.
  destruct (Dict.get project d); discriminate.
Qed.

Lemma raises_only_process_project w args document project :
  raises_only (fun e => e <> AssertionError 214)
    (process_project w args document project).
Proof.
  assert (Hp : forall exc, ProcessError exc <> AssertionError 214) by discriminate.
  assert (H308 : AssertionError 308 <> AssertionError 214) by discriminate.
  assert (H262 : AssertionError 262 <> AssertionError 214) by discriminate.
  unfold process_project.
  destruct (re_search args) as [msg|search].
  - intros s tr e. simpl. intros [= <-]. discriminate.
  - destruct (search project); simpl; [|intros s tr e; discriminate].
    apply raises_only_bind; [apply raises_only_emit|intros _].
    intros observed tr e. unfold bind at 1, load at 1.
    assert (Hrest : forall ex,
      raises_only (fun e => e <> AssertionError 214)
        (checks <-
          (if opt_eqb queried_eqb (Some (Remotes ex)) (Dict.get project observed)
           then ret true
           else sync_project w args project
                  (os_path_join (projects args) project)
                  ("[" ++ project ++ "]") ex) ;;
         if checks
         then post_checks w args
                ["git"; "-C"; os_path_join (projects args) project]
                ("[" ++ project ++ "]")
         else ret tt)).
    { intros ex. apply raises_only_bind.
      - destruct (opt_eqb _ _ _); [apply raises_only_ret|].
        now apply raises_only_sync_project.
      - intros [|]; [now apply raises_only_post_checks|apply raises_only_ret]. }
    assert (Hnone :
      raises_only (fun e => e <> AssertionError 214)
        (LOG WARNING (("[" ++ project ++ "]") ++ " unexpected project") ;;
         @post_checks w args Topology
           ["git"; "-C"; os_path_join (projects args) project]
           ("[" ++ project ++ "]"))).
    { apply raises_only_bind; [apply raises_only_emit|intros _].
      now apply raises_only_post_checks. }
    destruct (Dict.get project (expected_of document observed))
      as [[ex|exc']|] eqn:He.
    + destruct (Dict.get project observed) as [[o|exc]|] eqn:Ho;
        [apply (Hrest ex)|discriminate|apply (Hrest ex)].
    + apply expected_query_failed in He. destruct He as [_ He].
      rewrite He. discriminate.
    + destruct (Dict.get project observed) as [[o|exc]|] eqn:Ho;
        [apply Hnone|discriminate|apply Hnone].
Qed.

(** C9: in every run of the loop over projects, from every observed
    topology and with or without a loaded specification, the assertion of
    line 214 never fails: the expected value of a project that reaches the
    comparison is never a query failure.  A loaded document holds no
    failure, and without one [expected] is [observed], so that an expected
    failure is an observed failure, which lines 211-213 abandon before the
    assertion. *)
Theorem C9_expected_is_never_a_query_failure
    w args document l (observed : Topology) tr :
  (forall project exc,
      Dict.get project (expected_of document observed)
      = Some (QueryFailed exc) ->
      document = None
      /\ Dict.get project observed = Some (QueryFailed exc))
  /\ result_of (process_projects w args document l observed tr)
     <> Raised (AssertionError 214).
Proof.
  split.
  - intros project exc. apply expected_query_failed.
  - intros H.
    assert (Hr : raises_only (fun e => e <> AssertionError 214)
                   (process_projects w args document l)).
    { apply raises_only_for_each. intros x.
      apply raises_only_process_project. }
    now apply (Hr observed tr _ H).
Qed.

(** ** Empty expected entries (C10) *)

(** C10: in the loop over remotes an expected remote bound to an empty
    dict, and in the loop over modes an expected mode bound to the empty
    string, yield exactly what an absent entry yields: one warning that the
    remote (the mode) is unexpected, no subprocess, and an unchanged
    store. *)
Theorem C10_empty_expected_entry_is_treated_as_absent
    w args git prefix remote_prefix remote mode
    (expected_remote_mode_url observed_remote_mode_url : REMOTE_MODE_URL_TYPE)
    (expected_mode_url observed_mode_url : MODE_URL_TYPE) tr :
  Dict.get remote expected_remote_mode_url = None
  \/ Dict.get remote expected_remote_mode_url = Some [] ->
  Dict.get mode expected_mode_url = None
  \/ Dict.get mode expected_mode_url = Some EmptyString ->
  sync_remote w args git prefix expected_remote_mode_url remote
    observed_remote_mode_url tr
  = (Normal tt, observed_remote_mode_url,
     (tr ++ [Log WARNING ((prefix ++ " [" ++ remote ++ "]")
                          ++ " unexpected remote")])%list)
  /\ sync_mode w args git remote_prefix remote expected_mode_url mode
       observed_mode_url tr
     = (Normal tt, observed_mode_url,
        (tr ++ [Log WARNING ((remote_prefix ++ " [" ++ mode ++ "]")
                             ++ " unexpected mode")])%list).
Proof.
  intros Hr Hm. split.
  - unfold sync_remote, bind, load.
    destruct Hr as [-> | ->]; reflexivity.
  - unfold sync_mode, bind, load.
    destruct Hm as [-> | ->]; reflexivity.
Qed.

(** ** What a computation does to the store and to the trace *)

Section FrameFacts.
Context {S : Type}.

Lemma keeps_store_ret {A} (a : A) : keeps_store (@ret S A a).
Proof. now intros s tr. Qed.

Lemma keeps_store_emit ev : keeps_store (@emit S ev).
Proof. now intros s tr. Qed.

Lemma keeps_store_load : keeps_store (@load S).
Proof. now intros s tr. Qed.

Lemma keeps_store_raise {A} e : keeps_store (@raise S A e).
Proof. now intros s tr. Qed.

Lemma keeps_store_bind {A B} (m : M S A) (k : A -> M S B) :
  keeps_store m -> (forall a, keeps_store (k a)) -> keeps_store (bind m k).
Proof.
  intros Hm Hk s tr. unfold bind. specialize (Hm s tr).
  destruct (m s tr) as [[[a|e] s'] tr']; unfold store_of in *; simpl in *;
    subst; auto.
  apply Hk.
Qed.

Lemma adds_only_ret {A} P (a : A) : adds_only P (@ret S A a).
Proof. intros s tr. exists []. now rewrite app_nil_r. Qed.

Lemma adds_only_load P : adds_only P (@load S).
Proof. intros s tr. exists []. now rewrite app_nil_r. Qed.

Lemma adds_only_raise {A} P e : adds_only P (@raise S A e).
Proof. intros s tr. exists []. now rewrite app_nil_r. Qed.

Lemma adds_only_emit (P : Event -> bool) ev :
  P ev = true -> adds_only P (@emit S ev).
Proof. intros H s tr. exists [ev]. simpl. now rewrite H. Qed.

Lemma adds_only_bind {A B} P (m : M S A) (k : A -> M S B) :
  adds_only P m -> (forall a, adds_only P (k a)) -> adds_only P (bind m k).
Proof.
  intros Hm Hk s tr. unfold bind. destruct (Hm s tr) as (n1 & E1 & F1).
  destruct (m s tr) as [[[a|e] s'] tr']; unfold trace_of in *; simpl in *;
    subst tr'.
  - destruct (Hk a s' (tr ++ n1)%list) as (n2 & E2 & F2).
    exists (n1 ++ n2)%list. unfold trace_of in E2.
    rewrite E2, app_assoc, forallb_app, F1, F2. auto.
  - exists n1. auto.
Qed.

Lemma adds_only_for_each {A} P (body : A -> M S unit) l :
  (forall x, adds_only P (body x)) -> adds_only P (for_each body l).
Proof.
  intros Hb. induction l as [|x l IH]; simpl.
  - apply adds_only_ret.
  - apply adds_only_bind; auto.
Qed.

End FrameFacts.

Lemma adds_only_zoom {S T A} P line (g : S -> option T) put (m : M T A) :
  adds_only P m -> adds_only P (zoom line g put m).
Proof.
  intros Hm s tr. unfold zoom. destruct (g s) as [t|].
  - destruct (Hm t tr) as (new & E & F). exists new.
    destruct (m t tr) as [[r t'] tr']. auto.
  - exists []. now rewrite app_nil_r.
Qed.

Lemma adds_only_set_item {V} P k (v : V) : adds_only P (set_item k v).
Proof. intros s tr. exists []. now rewrite app_nil_r. Qed.

Section TouchFacts.
Context {V : Type}.

Lemma keeps_store_touches_only {A} k (m : M (Dict.t V) A) :
  keeps_store m -> touches_only k m.
Proof. intros H d tr k' _. now rewrite H. Qed.

Lemma touches_only_bind {A B} k (m : M (Dict.t V) A)
    (f : A -> M (Dict.t V) B) :
  touches_only k m -> (forall a, touches_only k (f a)) ->
  touches_only k (bind m f).
Proof.
  intros Hm Hf d tr k' Hne. unfold bind. specialize (Hm d tr k' Hne).
  destruct (m d tr) as [[[a|e] d'] tr']; unfold store_of in *; simpl in *.
  - rewrite <- Hm. now apply Hf.
  - exact Hm.
Qed.

Lemma touches_only_set_item k (v : V) : touches_only k (set_item k v).
Proof.
  intros d tr k' Hne. unfold set_item, store_of. simpl.
  apply DictFacts.get_set_other. congruence.
Qed.

Lemma touches_only_zoom {T A} k line (g : Dict.t V -> option T)
    (f : T -> V) (m : M T A) :
  touches_only k (zoom line g (fun t => Dict.set k (f t)) m).
Proof.
  intros d tr k' Hne. unfold zoom, store_of. destruct (g d) as [t|]; simpl.
  - destruct (m t tr) as [[r t'] tr']. simpl.
    apply DictFacts.get_set_other. congruence.
  - reflexivity.
Qed.

End TouchFacts.

Section ProgramFrames.
Variable w : World.
Variable args : Args.

Lemma keeps_store_run {S} argv : keeps_store (@run w S argv).
Proof. now intros s tr. Qed.

Lemma keeps_store_run_checked {S} argv : keeps_store (@run_checked w S argv).
Proof.
  unfold run_checked. apply keeps_store_bind; [apply keeps_store_run|].
  intros r. apply keeps_store_bind; [|intros; apply keeps_store_ret].
  unfold check. destruct (Z.eqb _ _);
    [apply keeps_store_ret|apply keeps_store_raise].
Qed.

Lemma adds_only_run {S} (P : Event -> bool) argv :
  (forall r, P (Run argv r) = true) -> adds_only P (@run w S argv).
Proof. intros H s tr. eexists [_]. simpl. split; [reflexivity|]. now rewrite H. Qed.

Lemma adds_only_run_checked {S} (P : Event -> bool) argv :
  (forall r, P (Run argv r) = true) -> adds_only P (@run_checked w S argv).
Proof.
  intros H. unfold run_checked.
  apply adds_only_bind; [now apply adds_only_run|].
  intros r. apply adds_only_bind; [|intros; apply adds_only_ret].
  unfold check. destruct (Z.eqb _ _);
    [apply adds_only_ret|apply adds_only_raise].
Qed.

Ltac frame_step :=
  first
    [ apply keeps_store_ret | apply keeps_store_emit | apply keeps_store_load
    | apply keeps_store_run | apply keeps_store_run_checked
    | apply keeps_store_bind; [|intros ?]
    | apply adds_only_ret | apply adds_only_load | apply adds_only_raise
    | apply adds_only_set_item
    | apply adds_only_emit; reflexivity
    | apply adds_only_run; intros ?; reflexivity
    | apply adds_only_run_checked; intros ?; reflexivity
    | apply adds_only_bind; [|intros ?]
    | match goal with
      | |- keeps_store (if ?b then _ else _) => destruct b
      | |- adds_only _ (if ?b then _ else _) => destruct b
      | |- adds_only _ (match ?x with _ => _ end) => destruct x
      end ].

Lemma keeps_store_post_checks {S} git prefix :
  keeps_store (@post_checks w args S git prefix).
Proof. unfold post_checks, LOG. repeat frame_step. Qed.

Lemma adds_only_post_checks {S} path prefix :
  adds_only not_corrective
    (@post_checks w args S ["git"; "-C"; path] prefix).
Proof. unfold post_checks, LOG. repeat frame_step. Qed.

(** Every part of the program only extends the trace. *)
Lemma extends_sync_mode git remote_prefix remote e mode :
  adds_only any_event (sync_mode w args git remote_prefix remote e mode).
Proof. unfold sync_mode, LOG. repeat frame_step. Qed.

Lemma extends_sync_remote git prefix e remote :
  adds_only any_event (sync_remote w args git prefix e remote).
Proof.
  unfold sync_remote, add_remote, LOG.
  repeat first [ apply extends_sync_mode
               | apply adds_only_zoom
               | apply adds_only_for_each; intros ?
               | frame_step ].
Qed.

Lemma extends_clone_from project path prefix cands :
  adds_only any_event (clone_from w project path prefix cands).
Proof.
  induction cands as [|[remote url] rest IH]; simpl; unfold LOG.
  - repeat frame_step.
  - repeat first [ exact IH | frame_step ].
Qed.

Lemma extends_sync_project project path prefix e :
  adds_only any_event (sync_project w args project path prefix e).
Proof.
  unfold sync_project, clone_project, LOG.
  repeat first [ apply extends_sync_remote | apply extends_clone_from
               | apply adds_only_zoom
               | apply adds_only_for_each; intros ?
               | frame_step ].
Qed.

Lemma extends_post_checks {S} git prefix :
  adds_only any_event (@post_checks w args S git prefix).
Proof. unfold post_checks, LOG. repeat frame_step. Qed.

Lemma extends_process_project document project :
  adds_only any_event (process_project w args document project).
Proof.
  unfold process_project, parser_error, LOG.
  repeat first [ apply extends_sync_project | apply extends_post_checks
               | frame_step ].
Qed.

Lemma extends_process_projects document l :
  adds_only any_event (process_projects w args document l).
Proof. apply adds_only_for_each. intros x. apply extends_process_project. Qed.

(** Processing a project leaves the other projects as they were. *)
Lemma touches_only_clone_from project path prefix cands :
  touches_only project (clone_from w project path prefix cands).
Proof.
  induction cands as [|[remote url] rest IH]; simpl; unfold LOG.
  - apply keeps_store_touches_only. repeat frame_step.
  - apply touches_only_bind;
      [apply keeps_store_touches_only, keeps_store_run|intros r].
    destruct (negb _).
    + apply touches_only_bind;
        [apply keeps_store_touches_only, keeps_store_emit|intros _; exact IH].
    + apply touches_only_bind;
        [apply keeps_store_touches_only, keeps_store_emit|intros _].
      apply touches_only_bind; [apply touches_only_set_item|intros _].
      apply keeps_store_touches_only, keeps_store_ret.
Qed.

Lemma touches_only_sync_project project path prefix e :
  touches_only project (sync_project w args project path prefix e).
Proof.
  unfold sync_project, clone_project, LOG.
  apply touches_only_bind;
    [apply keeps_store_touches_only, keeps_store_emit|intros _].
  apply touches_only_bind;
    [apply keeps_store_touches_only, keeps_store_load|intros observed].
  apply touches_only_bind.
  - destruct (negb (Dict.mem project observed)).
    + destruct (negb (clone args)).
      * apply keeps_store_touches_only. repeat frame_step.
      * apply touches_only_bind;
          [apply keeps_store_touches_only, keeps_store_emit|intros _].
        apply touches_only_clone_from.
    + apply keeps_store_touches_only, keeps_store_ret.
  - intros [|]; [|apply keeps_store_touches_only, keeps_store_ret].
    apply touches_only_bind;
      [apply keeps_store_touches_only, keeps_store_emit|intros _].
    apply touches_only_bind;
      [|intros _; apply keeps_store_touches_only, keeps_store_ret].
    apply (@touches_only_zoom _ _ _ project 262 (remotes_of project) Remotes).
Qed.

Lemma touches_only_process_project document project :
  touches_only project (process_project w args document project).
Proof.
  unfold process_project, parser_error, LOG.
  destruct (re_search args) as [msg|search].
  { apply keeps_store_touches_only. repeat frame_step. }
  destruct (negb (search project)).
  { apply keeps_store_touches_only. repeat frame_step. }
  apply touches_only_bind;
    [apply keeps_store_touches_only, keeps_store_emit|intros _].
  apply touches_only_bind;
    [apply keeps_store_touches_only, keeps_store_load|intros observed].
  assert (Hpc : touches_only project
            (@post_checks w args Topology
               ["git"; "-C"; os_path_join (projects args) project]
               ("[" ++ project ++ "]"))).
  { apply keeps_store_touches_only, keeps_store_post_checks. }
  assert (Hrest : forall ex,
    touches_only project
      (checks <-
        (if opt_eqb queried_eqb (Some (Remotes ex)) (Dict.get project observed)
         then ret true
         else sync_project w args project
                (os_path_join (projects args) project)
                ("[" ++ project ++ "]") ex) ;;
       if checks
       then post_checks w args
              ["git"; "-C"; os_path_join (projects args) project]
              ("[" ++ project ++ "]")
       else ret tt)).
  { intros ex. apply touches_only_bind.
    - destruct (opt_eqb _ _ _);
        [apply keeps_store_touches_only, keeps_store_ret
        |apply touches_only_sync_project].
    - intros [|]; [exact Hpc|apply keeps_store_touches_only, keeps_store_ret]. }
  assert (Hnone : touches_only project
    (LOG WARNING (("[" ++ project ++ "]") ++ " unexpected project") ;;
     @post_checks w args Topology
       ["git"; "-C"; os_path_join (projects args) project]
       ("[" ++ project ++ "]"))).
  { apply touches_only_bind;
      [apply keeps_store_touches_only, keeps_store_emit|intros _; exact Hpc]. }
  assert (Hfail : forall (m : string),
    touches_only project (@LOG Topology ERROR m)).
  { intros m. apply keeps_store_touches_only, keeps_store_emit. }
  assert (Hassert : touches_only project
            (@raise Topology unit (AssertionError 214))).
  { apply keeps_store_touches_only, keeps_store_raise. }
  destruct (Dict.get project observed) as [[o|exc]|];
    destruct (Dict.get project (expected_of document observed))
      as [[ex|exc']|]; auto; apply Hfail.
Qed.

End ProgramFrames.

(** ** Inversion of computations that return *)

Lemma bind_normal_inv {S A B} (m : M S A) (k : A -> M S B) s tr b s2 tr2 :
  bind m k s tr = (Normal b, s2, tr2) ->
  exists a s1 tr1, m s tr = (Normal a, s1, tr1) /\ k a s1 tr1 = (Normal b, s2, tr2).
Proof.
  unfold bind. destruct (m s tr) as [[[a|e] s1] tr1]; [|discriminate].
  intros H. now exists a, s1, tr1.
Qed.

Lemma zoom_normal_inv {S T A} line (g : S -> option T) put (m : M T A)
    s tr a s' tr' :
  zoom line g put m s tr = (Normal a, s', tr') ->
  exists t t', g s = Some t /\ m t tr = (Normal a, t', tr') /\ s' = put t' s.
Proof.
  unfold zoom. destruct (g s) as [t|]; [|discriminate].
  destruct (m t tr) as [[r t'] tr0] eqn:E. intros H. inversion H; subst.
  exists t, t'. repeat split; auto.
Qed.

Lemma run_checked_normal_inv w {S} argv (s : S) tr r s' tr' :
  run_checked w argv s tr = (Normal r, s', tr') ->
  s' = s /\ r = subprocess w tr argv /\ tr' = (tr ++ [Run argv r])%list
  /\ returncode r = 0%Z.
Proof.
  unfold run_checked, bind, run, check.
  destruct (Z.eqb_spec (returncode (subprocess w tr argv)) 0) as [E|E];
    simpl; [|discriminate].
  intros [= <- <- <-]. auto.
Qed.

Lemma opt_eqb_string_some u x :
  opt_eqb String.eqb (Some u) x = true -> x = Some u.
Proof.
  destruct x as [v|]; simpl; [|discriminate].
  intros H. apply String.eqb_eq in H. now subst.
Qed.

Lemma mode_url_eqb_covered e o :
  mode_url_eqb e o = true -> modes_covered e o.
Proof.
  unfold mode_url_eqb, Dict.eqb. intros H. apply andb_prop in H.
  destruct H as [_ H]. rewrite forallb_forall in H.
  intros mode url Hg _.
  assert (Hin : In mode (Dict.keys e)).
  { apply DictFacts.in_keys_get. congruence. }
  specialize (H mode Hin). rewrite Hg in H. now apply opt_eqb_string_some.
Qed.

(** Two ways a loop is reasoned about: every iteration leaves the store
    alone and adds only events in [P]; every iteration establishes a fact
    about its own key and keeps such facts about the other keys. *)
Lemma for_each_quiet {S A} (P : Event -> bool) (body : A -> M S unit) s l :
  (forall x tr, exists new,
      body x s tr = (Normal tt, s, (tr ++ new)%list) /\ forallb P new = true) ->
  forall tr, exists new,
    for_each body l s tr = (Normal tt, s, (tr ++ new)%list)
    /\ forallb P new = true.
Proof.
  intros Hb. induction l as [|x l IH]; intros tr; simpl.
  - exists []. now rewrite app_nil_r.
  - destruct (Hb x tr) as (n1 & E1 & F1).
    destruct (IH (tr ++ n1)%list) as (n2 & E2 & F2).
    exists (n1 ++ n2)%list. unfold bind. rewrite E1, E2, app_assoc.
    now rewrite forallb_app, F1, F2.
Qed.

Lemma for_each_establishes {S A} (C : S -> A -> Prop) (body : A -> M S unit) :
  (forall x s tr s' tr',
      body x s tr = (Normal tt, s', tr') ->
      C s' x /\ forall y, C s y -> C s' y) ->
  forall l s tr s' tr',
    for_each body l s tr = (Normal tt, s', tr') ->
    (forall x, In x l -> C s' x) /\ forall y, C s y -> C s' y.
Proof.
  intros Hb. induction l as [|x l IH]; intros s tr s' tr'; simpl.
  - intros [= <- _]. split; [tauto|auto].
  - intros H. apply bind_normal_inv in H.
    destruct H as ([] & s1 & tr1 & H1 & H2).
    apply Hb in H1. destruct H1 as [Hc Hf].
    apply IH in H2. destruct H2 as [Hc' Hf'].
    split.
    + intros y [<-|Hin]; [now apply Hf'|now apply Hc'].
    + intros y Hy. now apply Hf', Hf.
Qed.

(** ** The loop over modes *)

Section SyncModes.
Variable w : World.
Variable args : Args.
Variables (git : list string) (remote_prefix remote : string).
Variable e : MODE_URL_TYPE.

Lemma sync_mode_quiet mode o tr :
  set_urls args = false \/ mode_covered e o mode ->
  exists new,
    sync_mode w args git remote_prefix remote e mode o tr
    = (Normal tt, o, (tr ++ new)%list)
    /\ forallb is_log new = true.
Proof.
  intros H. unfold sync_mode, bind, load, LOG, emit, ret.
  destruct (Dict.get mode e) as [[|c u]|] eqn:He;
    try (eexists [_]; split; reflexivity).
  destruct (opt_eqb String.eqb (Some (String c u)) (Dict.get mode o)) eqn:Eq.
  - exists []. now rewrite app_nil_r.
  - destruct H as [H|H].
    + rewrite H. simpl. eexists [_; _].
      rewrite <- app_assoc. split; reflexivity.
    + rewrite (H _ He) in Eq by discriminate.
      simpl in Eq. rewrite String.eqb_refl in Eq.
      rewrite Ascii.eqb_refl in Eq. discriminate.
Qed.

Lemma sync_modes_quiet l o tr :
  set_urls args = false \/ modes_covered e o ->
  exists new,
    for_each (sync_mode w args git remote_prefix remote e) l o tr
    = (Normal tt, o, (tr ++ new)%list)
    /\ forallb is_log new = true.
Proof.
  intros H. apply for_each_quiet. intros mode tr0.
  apply sync_mode_quiet. destruct H as [H|H]; [now left | right; apply H].
Qed.

Lemma sync_mode_covers mode o tr o' tr' :
  set_urls args = true ->
  sync_mode w args git remote_prefix remote e mode o tr = (Normal tt, o', tr') ->
  mode_covered e o' mode
  /\ forall m, mode_covered e o m -> mode_covered e o' m.
Proof.
  intros Hset. unfold sync_mode, bind at 1, load at 1.
  destruct (Dict.get mode e) as [[|c u]|] eqn:He.
  - intros [= <- _]. split; [|auto]. intros url Hu. congruence.
  - destruct (opt_eqb String.eqb (Some (String c u)) (Dict.get mode o)) eqn:Eq.
    + intros [= <- _]. split; [|auto]. intros url Hu _.
      apply opt_eqb_string_some in Eq. congruence.
    + rewrite Hset. cbn [negb]. unfold LOG, emit, bind at 1.
      unfold bind at 1. intros H.
      apply bind_normal_inv in H. destruct H as (r & s1 & tr1 & Hrun & Hk).
      apply run_checked_normal_inv in Hrun. destruct Hrun as (-> & _ & _ & _).
      unfold set_item in Hk. injection Hk as <- _.
      split.
      * intros url Hu _. rewrite DictFacts.get_set_same. congruence.
      * intros m Hm url Hu Hne.
        destruct (string_dec mode m) as [<-|Hd].
        -- rewrite DictFacts.get_set_same. congruence.
        -- rewrite DictFacts.get_set_other by assumption. now apply Hm.
  - intros [= <- _]. split; [|auto]. intros url Hu. congruence.
Qed.

Lemma sync_modes_cover l o tr o' tr' :
  set_urls args = true ->
  for_each (sync_mode w args git remote_prefix remote e) l o tr
  = (Normal tt, o', tr') ->
  (forall m, In m l -> mode_covered e o' m)
  /\ forall m, mode_covered e o m -> mode_covered e o' m.
Proof.
  intros Hset.
  apply (for_each_establishes (fun o m => mode_covered e o m)).
  intros mode s tr0 s' tr0' H. eapply sync_mode_covers; eauto.
Qed.

End SyncModes.

(** ** The loop over remotes *)

Section SyncRemotes.
Variable w : World.
Variable args : Args.
Variables (git : list string) (prefix : string).
Variable e : REMOTE_MODE_URL_TYPE.

Lemma sync_remote_quiet remote o tr :
  set_urls args = false \/ remote_covered e o remote ->
  exists new,
    sync_remote w args git prefix e remote o tr
    = (Normal tt, o, (tr ++ new)%list)
    /\ forallb is_log new = true.
Proof.
  intros H. unfold sync_remote. unfold bind at 1, load at 1.
  destruct (Dict.get remote e) as [[|kv em]|] eqn:He;
    try (eexists [_]; split; reflexivity).
  match goal with
  | |- context [if ?c then ret tt else _] => destruct c eqn:Eq
  end.
  { exists []. now rewrite app_nil_r. }
  unfold Dict.mem.
  destruct (Dict.get remote o) as [om|] eqn:Ho.
  - cbn [negb]. unfold bind at 1, LOG at 1, emit at 1.
    unfold bind at 1, ret at 1. unfold bind at 1, LOG at 1, emit at 1.
    unfold zoom. rewrite Ho. unfold bind at 1, load at 1.
    destruct (@sync_modes_quiet w args git (prefix ++ " [" ++ remote ++ "]")
                remote (kv :: em)
                (sorted (set_union (Dict.keys (kv :: em)) (Dict.keys om)))
                om
                ((tr ++ [Log DEBUG ((prefix ++ " [" ++ remote ++ "]")
                                    ++ " remote sync needed")])
                 ++ [Log DEBUG ((prefix ++ " [" ++ remote ++ "]")
                                ++ " remote exists")])%list)
      as (new & E & F).
    { destruct H as [H|H]; [now left|right].
      destruct (H _ He) as (om' & Hom' & Hc); [discriminate|].
      rewrite Ho in Hom'. injection Hom' as <-. exact Hc. }
    rewrite E. rewrite (DictFacts.set_get_id _ _ Ho).
    eexists (_ :: _ :: new). rewrite <- !app_assoc. split; [reflexivity|].
    exact F.
  - destruct H as [H|H].
    + cbn [negb]. unfold add_remote. rewrite H. cbn [negb].
      unfold bind, LOG, emit, ret. eexists [_; _].
      rewrite <- app_assoc. split; reflexivity.
    + destruct (H _ He) as (om' & Hom' & Hc); [discriminate|]. congruence.
Qed.

Lemma sync_remotes_quiet l o tr :
  set_urls args = false \/ remotes_covered e o ->
  exists new,
    for_each (sync_remote w args git prefix e) l o tr
    = (Normal tt, o, (tr ++ new)%list)
    /\ forallb is_log new = true.
Proof.
  intros H. apply for_each_quiet. intros remote tr0.
  apply sync_remote_quiet. destruct H as [H|H]; [now left | right; apply H].
Qed.

Lemma sync_remote_covers remote o tr o' tr' :
  set_urls args = true ->
  sync_remote w args git prefix e remote o tr = (Normal tt, o', tr') ->
  remote_covered e o' remote
  /\ forall r, remote_covered e o r -> remote_covered e o' r.
Proof.
  intros Hset. unfold sync_remote. unfold bind at 1, load at 1.
  destruct (Dict.get remote e) as [[|kv em]|] eqn:He.
  - intros [= <- _]. split; [|auto]. intros mu Hmu. congruence.
  - match goal with
    | |- context [if ?c then ret tt else _] => destruct c eqn:Eq
    end.
    + intros [= <- _]. split; [|auto]. intros mu Hmu _.
      destruct (Dict.get remote o) as [om|] eqn:Ho; [|discriminate].
      exists om. split; [reflexivity|].
      rewrite He in Hmu. injection Hmu as <-. now apply mode_url_eqb_covered.
    + intros H. apply bind_normal_inv in H.
      destruct H as ([] & s0 & tr0 & H0 & H).
      unfold LOG, emit in H0. injection H0 as <- <-.
      apply bind_normal_inv in H.
      destruct H as (present & o1 & tr1 & Hadd & H).
      assert (Ho1 : present = true
                    /\ forall r, r <> remote -> Dict.get r o1 = Dict.get r o).
      { unfold Dict.mem in Hadd.
        destruct (Dict.get remote o) as [om|] eqn:Ho; cbn [negb] in Hadd.
        - unfold ret in Hadd. injection Hadd as <- <- _. auto.
        - unfold add_remote in Hadd. rewrite Hset in Hadd. cbn [negb] in Hadd.
          apply bind_normal_inv in Hadd.
          destruct Hadd as ([] & s2 & tr2 & H2 & Hadd).
          unfold LOG, emit in H2. injection H2 as <- <-.
          destruct kv as [m0 u0]. cbn [Dict.values map snd] in Hadd.
          apply bind_normal_inv in Hadd.
          destruct Hadd as (r & s3 & tr3 & Hrun & Hadd).
          apply run_checked_normal_inv in Hrun.
          destruct Hrun as (-> & _ & _ & _).
          unfold bind, set_item, ret in Hadd. injection Hadd as <- <- _.
          split; [reflexivity|]. intros r' Hne.
          apply DictFacts.get_set_other. congruence. }
      destruct Ho1 as [-> Hframe].
      apply bind_normal_inv in H.
      destruct H as ([] & s4 & tr4 & H4 & H).
      unfold LOG, emit in H4. injection H4 as <- <-.
      apply zoom_normal_inv in H.
      destruct H as (om1 & om' & Hg & Hloop & ->).
      apply bind_normal_inv in Hloop.
      destruct Hloop as (om2 & s5 & tr5 & H5 & Hloop).
      unfold load in H5. injection H5 as <- <- <-.
      apply sync_modes_cover in Hloop; [|assumption].
      destruct Hloop as [Hc _].
      split.
      * intros mu Hmu _. rewrite He in Hmu. injection Hmu as <-.
        exists om'. split; [apply DictFacts.get_set_same|].
        intros mode url Hu Hne. apply Hc; auto.
        apply universe_in. left. apply DictFacts.in_keys_get. congruence.
      * intros r Hr mu Hmu Hne.
        destruct (string_dec r remote) as [->|Hd].
        -- rewrite He in Hmu. injection Hmu as <-.
           exists om'. split; [apply DictFacts.get_set_same|].
           intros mode url Hu Hne'. apply Hc; auto.
           apply universe_in. left. apply DictFacts.in_keys_get. congruence.
        -- rewrite DictFacts.get_set_other by congruence.
           rewrite Hframe by assumption. now apply Hr.
  - intros [= <- _]. split; [|auto]. intros mu Hmu. congruence.
Qed.

Lemma sync_remotes_cover l o tr o' tr' :
  set_urls args = true ->
  for_each (sync_remote w args git prefix e) l o tr = (Normal tt, o', tr') ->
  (forall r, In r l -> remote_covered e o' r)
  /\ forall r, remote_covered e o r -> remote_covered e o' r.
Proof.
  intros Hset.
  apply (for_each_establishes (fun o r => remote_covered e o r)).
  intros remote s tr0 s' tr0' H. eapply sync_remote_covers; eauto.
Qed.

End SyncRemotes.

(** ** Computations that change nothing *)

Lemma quiet_at_frames {S A} P (m : M S A) s :
  keeps_store m -> adds_only P m -> quiet_at P m s.
Proof. intros Hk Ha tr. split; [apply Hk|apply Ha]. Qed.

Lemma quiet_at_bind {S A B} P (m : M S A) (k : A -> M S B) s :
  quiet_at P m s -> (forall a, quiet_at P (k a) s) -> quiet_at P (bind m k) s.
Proof.
  intros Hm Hk tr. unfold bind. destruct (Hm tr) as (Es & n1 & E1 & F1).
  destruct (m s tr) as [[[a|e] s'] tr']; unfold store_of, trace_of in *;
    simpl in *; subst s' tr'.
  - destruct (Hk a (tr ++ n1)%list) as (Es2 & n2 & E2 & F2).
    split; [exact Es2|]. exists (n1 ++ n2)%list.
    unfold trace_of in E2. rewrite E2, app_assoc, forallb_app, F1, F2. auto.
  - split; [reflexivity|]. exists n1. auto.
Qed.

Lemma quiet_at_returns {S A} (P Q : Event -> bool) (m : M S A) s a :
  (forall e, P e = true -> Q e = true) ->
  (forall tr, exists new,
      m s tr = (Normal a, s, (tr ++ new)%list) /\ forallb P new = true) ->
  quiet_at Q m s.
Proof.
  intros HPQ H tr. destruct (H tr) as (new & E & F). rewrite E.
  split; [reflexivity|]. exists new. split; [reflexivity|].
  rewrite forallb_forall in *. auto.
Qed.

Lemma is_log_not_corrective e : is_log e = true -> not_corrective e = true.
Proof. destruct e; simpl; auto; discriminate. Qed.

Lemma quiet_at_LOG {S} P level message (s : S) :
  (forall l m, P (Log l m) = true) -> quiet_at P (LOG level message) s.
Proof.
  intros HP tr. split; [reflexivity|]. eexists [_]. split; [reflexivity|].
  simpl. now rewrite HP.
Qed.

Lemma quiet_at_ret {S A} P (a : A) (s : S) : quiet_at P (ret a) s.
Proof. intros tr. split; [reflexivity|]. exists []. now rewrite app_nil_r. Qed.

(** ** One project, when nothing is left to correct *)

Section Project.
Variable w : World.
Variable args : Args.

Lemma sync_project_present_quiet project path prefix e observed o tr :
  Dict.get project observed = Some (Remotes o) ->
  set_urls args = false \/ remotes_covered e o ->
  exists new,
    sync_project w args project path prefix e observed tr
    = (Normal true, observed, (tr ++ new)%list)
    /\ forallb is_log new = true.
Proof.
  intros Ho H. unfold sync_project.
  unfold bind at 1, LOG at 1, emit at 1. unfold bind at 1, load at 1.
  unfold Dict.mem. rewrite Ho. cbn [negb].
  unfold bind at 1, ret at 1. unfold bind at 1, LOG at 1, emit at 1.
  unfold bind at 1, zoom, remotes_of. rewrite Ho.
  unfold bind at 1, load at 1.
  destruct (@sync_remotes_quiet w args ["git"; "-C"; path] prefix e
              (sorted (set_union (Dict.keys e) (Dict.keys o))) o
              ((tr ++ [Log DEBUG (prefix ++ " project sync needed")])
               ++ [Log DEBUG (prefix ++ " clone exists")])%list H)
    as (new & E & F).
  rewrite E. rewrite (DictFacts.set_get_id _ _ Ho). unfold ret.
  eexists (_ :: _ :: new). rewrite <- !app_assoc. split; [reflexivity|].
  exact F.
Qed.

Lemma sync_project_absent_quiet project path prefix e observed tr :
  Dict.get project observed = None ->
  clone args = false \/ _fetchable_remote_urls e = [] ->
  exists new,
    sync_project w args project path prefix e observed tr
    = (Normal false, observed, (tr ++ new)%list)
    /\ forallb is_log new = true.
Proof.
  intros Ho H. unfold sync_project.
  unfold bind at 1, LOG at 1, emit at 1. unfold bind at 1, load at 1.
  unfold Dict.mem. rewrite Ho. cbn [negb]. unfold clone_project.
  destruct (clone args) eqn:Hc; cbn [negb].
  - destruct H as [H|H]; [discriminate|]. rewrite H. cbn [clone_from].
    unfold bind, LOG, emit, ret. eexists [_; _; _].
    rewrite <- !app_assoc. split; reflexivity.
  - unfold bind, LOG, emit, ret. eexists [_; _].
    rewrite <- !app_assoc. split; reflexivity.
Qed.

Lemma quiet_post_checks path prefix (observed : Topology) :
  quiet_at not_corrective
    (post_checks w args ["git"; "-C"; path] prefix) observed.
Proof.
  apply quiet_at_frames;
    [apply keeps_store_post_checks|apply adds_only_post_checks].
Qed.

Lemma process_project_settled document observed project :
  settled args document observed project ->
  quiet_at not_corrective (process_project w args document project) observed.
Proof.
  unfold settled, process_project.
  destruct (re_search args) as [msg|search].
  { intros _ tr. split; [reflexivity|]. eexists [_]. split; reflexivity. }
  destruct (search project) eqn:Hs; cbn [negb].
  2:{ intros _. now apply quiet_at_LOG. }
  intros [H|H]; [discriminate|].
  apply quiet_at_bind; [now apply quiet_at_LOG|intros _].
  intros tr. unfold bind at 1, load at 1. revert tr.
  change (quiet_at not_corrective
    (match Dict.get project observed with
     | Some (QueryFailed exc) =>
         LOG ERROR (("[" ++ project ++ "]") ++ " "
                    ++ PyStr.strip (stderr (output exc)))
     | _ =>
         match Dict.get project (expected_of document observed) with
         | Some (QueryFailed _) => raise (AssertionError 214)
         | None =>
             LOG WARNING (("[" ++ project ++ "]") ++ " unexpected project") ;;
             post_checks w args
               ["git"; "-C"; os_path_join (projects args) project]
               ("[" ++ project ++ "]")
         | Some (Remotes ex) =>
             checks <-
               (if opt_eqb queried_eqb (Some (Remotes ex))
                     (Dict.get project observed)
                then ret true
                else sync_project w args project
                       (os_path_join (projects args) project)
                       ("[" ++ project ++ "]") ex) ;;
             if checks
             then post_checks w args
                    ["git"; "-C"; os_path_join (projects args) project]
                    ("[" ++ project ++ "]")
             else ret tt
         end
     end) observed).
  assert (Hnone : quiet_at not_corrective
    (LOG WARNING (("[" ++ project ++ "]") ++ " unexpected project") ;;
     post_checks w args
       ["git"; "-C"; os_path_join (projects args) project]
       ("[" ++ project ++ "]")) observed).
  { apply quiet_at_bind; [now apply quiet_at_LOG|intros _].
    apply quiet_post_checks. }
  assert (Hk : forall checks : bool, quiet_at not_corrective
    (if checks
     then post_checks w args
            ["git"; "-C"; os_path_join (projects args) project]
            ("[" ++ project ++ "]")
     else ret tt) observed).
  { intros [|]; [apply quiet_post_checks|apply quiet_at_ret]. }
  destruct (Dict.get project observed) as [[o|exc]|] eqn:Ho;
    destruct (Dict.get project (expected_of document observed))
      as [[ex|exc']|] eqn:He;
    try exact Hnone; try (now apply quiet_at_LOG).
  - apply quiet_at_bind; [|exact Hk].
    cbn [opt_eqb queried_eqb].
    destruct H as [H|H]; [rewrite H; apply quiet_at_ret|].
    destruct (remote_mode_url_eqb ex o); [apply quiet_at_ret|].
    apply quiet_at_returns with (P := is_log) (a := true);
      [exact is_log_not_corrective|].
    intros tr. now apply sync_project_present_quiet with (o := o).
  - apply expected_query_failed in He. destruct He as [_ He]. congruence.
  - apply quiet_at_bind; [|exact Hk].
    cbn [opt_eqb].
    apply quiet_at_returns with (P := is_log) (a := false);
      [exact is_log_not_corrective|].
    intros tr. now apply sync_project_absent_quiet.
  - apply expected_query_failed in He. destruct He as [_ He]. congruence.
Qed.

End Project.

(** ** One project, after a run whose actions succeeded *)

(** From a run of a computation that only extends the trace, the events
    it added. *)
Ltac trace_grows H lem n En :=
  match type of H with
  | _ ?s ?t = _ =>
      destruct (lem s t) as (n & En & _); rewrite H in En;
      unfold trace_of in En; cbn [snd] in En
  end.

Section FirstRun.
Variable w : World.
Variable args : Args.

Lemma clone_from_inv project path prefix cands :
  forall observed tr b observed' new,
  clone_from w project path prefix cands observed tr
  = (Normal b, observed', (tr ++ new)%list) ->
  (b = true /\ exists remote url,
      observed' = Dict.set project (Remotes [(remote, both_modes url)]) observed)
  \/ (b = false /\ observed' = observed
      /\ (cands = [] \/ existsb failed_clone new = true)).
Proof.
  induction cands as [|[remote url] rest IH];
    intros observed tr b observed' new; cbn [clone_from].
  - unfold bind, LOG, emit, ret. intros [= <- <- _]. right. auto.
  - unfold bind at 1, run at 1.
    destruct (Z.eqb (returncode (subprocess w tr
                ["git"; "clone"; "--origin"; remote; url; path])) 0) eqn:Erc;
      cbn [negb].
    + unfold bind, LOG, emit, set_item, ret. intros [= <- <- _].
      left. split; [reflexivity|]. now exists remote, url.
    + unfold bind at 1, LOG at 1, emit at 1. intros H.
      trace_grows H (@extends_clone_from w project path prefix rest) n En.
      rewrite <- !app_assoc in En. apply app_inv_head in En. subst new.
      rewrite !app_assoc in H. apply IH in H.
      destruct H as [H|(-> & -> & _)]; [now left|].
      right. split; [reflexivity|]. split; [reflexivity|]. right.
      cbn [app existsb failed_clone]. rewrite Erc. reflexivity.
Qed.

Lemma expected_of_stable document observed observed' project ex ex' :
  Dict.get project (expected_of document observed) = Some (Remotes ex) ->
  Dict.get project (expected_of document observed') = Some (Remotes ex') ->
  ex' = ex \/ (document = None /\ Dict.get project observed' = Some (Remotes ex')).
Proof.
  destruct document as [d|]; [|now right].
  rewrite !get_expected_of_document. intros -> [= ->]. now left.
Qed.

(** [settled], once the search has accepted the project and the
    observed remotes are known. *)
Lemma settled_present document observed project search o :
  re_search args = Regex search ->
  Dict.get project observed = Some (Remotes o) ->
  (forall ex,
      Dict.get project (expected_of document observed) = Some (Remotes ex) ->
      remote_mode_url_eqb ex o = true \/ set_urls args = false
      \/ remotes_covered ex o) ->
  settled args document observed project.
Proof.
  intros Hre Ho H. unfold settled. rewrite Hre. right. rewrite Ho.
  destruct (Dict.get project (expected_of document observed))
    as [[ex|exc]|]; auto.
Qed.

Lemma sync_project_settles document project path prefix ex search
    observed tr checks observed' new :
  re_search args = Regex search ->
  Dict.get project (expected_of document observed) = Some (Remotes ex) ->
  (forall exc, Dict.get project observed <> Some (QueryFailed exc)) ->
  sync_project w args project path prefix ex observed tr
  = (Normal checks, observed', (tr ++ new)%list) ->
  existsb failed_clone new = false ->
  settled args document observed' project.
Proof.
  intros Hre He Hnf H Hok. unfold sync_project in H.
  apply bind_normal_inv in H. destruct H as ([] & s0 & tr0 & H0 & H).
  unfold LOG, emit in H0. injection H0 as <- <-.
  apply bind_normal_inv in H. destruct H as (obs0 & s1 & tr1 & H1 & H).
  unfold load in H1. injection H1 as <- <- <-.
  apply bind_normal_inv in H. destruct H as (present & obs1 & tr1 & Hc & H).
  assert (Hstate :
    (present = false /\ obs1 = observed
     /\ Dict.get project observed = None
     /\ (clone args = false \/ _fetchable_remote_urls ex = []))
    \/ (present = true /\ exists o1, Dict.get project obs1 = Some (Remotes o1))).
  { unfold Dict.mem in Hc.
    destruct (Dict.get project observed) as [[o|exc]|] eqn:Ho;
      cbn [negb] in Hc.
    - unfold ret in Hc. injection Hc as <- <- _. right. eauto.
    - now destruct (Hnf exc).
    - unfold clone_project in Hc.
      destruct (clone args) eqn:Hcl; cbn [negb] in Hc.
      + apply bind_normal_inv in Hc.
        destruct Hc as ([] & s2 & tr2 & H2 & Hc).
        unfold LOG, emit in H2. injection H2 as <- <-.
        trace_grows Hc (@extends_clone_from w project path prefix
                            (_fetchable_remote_urls ex)) n1 En.
        subst tr1.
        pose proof Hc as Hc'.
        apply clone_from_inv in Hc'.
        destruct Hc' as [(-> & remote & url & ->)|(-> & -> & Hf)].
        * right. split; [reflexivity|]. eexists.
          apply DictFacts.get_set_same.
        * left. repeat split; auto. destruct Hf as [Hf|Hf]; [now right|].
          exfalso.
          (* the rest of the computation only extends the trace *)
          unfold bind, ret in H. injection H as _ _ H.
          rewrite <- !app_assoc in H. apply app_inv_head in H. subst new.
          cbn [app existsb failed_clone orb] in Hok. congruence.
      + apply bind_normal_inv in Hc.
        destruct Hc as ([] & s2 & tr2 & H2 & Hc).
        unfold LOG, emit in H2. injection H2 as <- <-.
        unfold ret in Hc. injection Hc as <- <- _. left. auto. }
  destruct Hstate as [(-> & -> & Ho & Hcl)|(-> & o1 & Ho1)].
  - unfold ret in H. injection H as _ <- _.
    unfold settled. rewrite Hre. right. rewrite He, Ho. exact Hcl.
  - apply bind_normal_inv in H. destruct H as ([] & s3 & tr3 & H3 & H).
    unfold LOG, emit in H3. injection H3 as <- <-.
    apply bind_normal_inv in H. destruct H as ([] & s4 & tr4 & Hz & H).
    unfold ret in H. injection H as _ <- _.
    apply zoom_normal_inv in Hz.
    destruct Hz as (o2 & o' & Hg & Hloop & ->).
    unfold remotes_of in Hg. rewrite Ho1 in Hg. injection Hg as <-.
    apply bind_normal_inv in Hloop.
    destruct Hloop as (o3 & s5 & tr5 & H5 & Hloop).
    unfold load in H5. injection H5 as <- <- <-.
    apply settled_present with (search := search) (o := o');
      [assumption|apply DictFacts.get_set_same|].
    intros ex' He'.
    destruct (expected_of_stable document observed _ project He He')
      as [->|[_ Hself]].
    + destruct (set_urls args) eqn:Hset; [|auto].
      right. right.
      apply sync_remotes_cover in Hloop; [|assumption].
      destruct Hloop as [Hcov _].
      intros remote mu Hmu Hne. apply (Hcov remote); auto.
      apply universe_in. left. apply DictFacts.in_keys_get. congruence.
    + rewrite DictFacts.get_set_same in Hself. injection Hself as <-.
      left. apply remote_mode_url_eqb_refl.
Qed.

Lemma process_project_settles document project observed tr observed' new :
  process_project w args document project observed tr
  = (Normal tt, observed', (tr ++ new)%list) ->
  existsb failed_clone new = false ->
  settled args document observed' project.
Proof.
  unfold process_project. intros H Hok.
  destruct (re_search args) as [msg|search] eqn:Hre; [discriminate|].
  destruct (search project) eqn:Hs; cbn [negb] in H.
  2:{ unfold settled. rewrite Hre. now left. }
  apply bind_normal_inv in H. destruct H as ([] & s0 & tr0 & H0 & H).
  unfold LOG, emit in H0. injection H0 as <- <-.
  apply bind_normal_inv in H. destruct H as (obs0 & s1 & tr1 & H1 & H).
  unfold load in H1. injection H1 as <- <- <-.
  assert (Hpc : forall git prefix t o' t',
             post_checks w args git prefix observed t = (Normal tt, o', t') ->
             o' = observed).
  { intros git prefix t o' t' E.
    pose proof (@keeps_store_post_checks w args Topology git prefix observed t)
      as K. rewrite E in K. exact K. }
  destruct (Dict.get project observed) as [[o|exc]|] eqn:Ho.
  - destruct (Dict.get project (expected_of document observed))
      as [[ex|exc']|] eqn:He.
    + apply bind_normal_inv in H.
      destruct H as (checks & obs1 & tr1 & Hsync & H).
      assert (observed' = obs1) as ->.
      { destruct checks.
        - pose proof (@keeps_store_post_checks w args Topology
                        ["git"; "-C"; os_path_join (projects args) project]
                        ("[" ++ project ++ "]") obs1 tr1) as K.
          rewrite H in K. exact K.
        - unfold ret in H. now injection H as <- _. }
      cbn [opt_eqb queried_eqb] in Hsync.
      destruct (remote_mode_url_eqb ex o) eqn:Eq.
      * unfold ret in Hsync. injection Hsync as _ <- _.
        apply settled_present with (search := search) (o := o); auto.
        intros ex' He'. rewrite He in He'. injection He' as <-. now left.
      * trace_grows Hsync
          (@extends_sync_project w args project
             (os_path_join (projects args) project)
             ("[" ++ project ++ "]") ex) n1 En.
        subst tr1.
        assert (Hn1 : existsb failed_clone n1 = false).
        { assert (exists n2, new = ([Log DEBUG (("[" ++ project ++ "]") ++ " "
                    ++ os_path_join (projects args) project)] ++ n1 ++ n2)%list)
            as [n2 ->].
          { destruct checks.
            - trace_grows H
                (@extends_post_checks w args Topology
                   ["git"; "-C"; os_path_join (projects args) project]
                   ("[" ++ project ++ "]")) n2 En2.
              exists n2. rewrite <- !app_assoc in En2.
              now apply app_inv_head in En2.
            - exists []. unfold ret in H. injection H as H.
              rewrite <- !app_assoc in H. apply app_inv_head in H.
              now rewrite app_nil_r. }
          cbn [app existsb failed_clone orb] in Hok.
          rewrite existsb_app in Hok. now apply orb_false_elim in Hok. }
        apply sync_project_settles
          with (search := search) (document := document) in Hsync; auto.
        intros exc. rewrite Ho. discriminate.
    + discriminate.
    + apply bind_normal_inv in H. destruct H as ([] & s2 & tr2 & H2 & H).
      unfold LOG, emit in H2. injection H2 as <- <-.
      apply Hpc in H. subst observed'.
      unfold settled. rewrite Hre. right. now rewrite He, Ho.
  - unfold LOG, emit in H. injection H as <- _.
    unfold settled. rewrite Hre. right. rewrite Ho.
    now destruct (Dict.get project (expected_of document observed))
      as [[ex|exc']|].
  - destruct (Dict.get project (expected_of document observed))
      as [[ex|exc']|] eqn:He.
    + apply bind_normal_inv in H.
      destruct H as (checks & obs1 & tr1 & Hsync & H).
      assert (observed' = obs1) as ->.
      { destruct checks.
        - pose proof (@keeps_store_post_checks w args Topology
                        ["git"; "-C"; os_path_join (projects args) project]
                        ("[" ++ project ++ "]") obs1 tr1) as K.
          rewrite H in K. exact K.
        - unfold ret in H. now injection H as <- _. }
      cbn [opt_eqb] in Hsync.
      trace_grows Hsync
        (@extends_sync_project w args project
           (os_path_join (projects args) project)
           ("[" ++ project ++ "]") ex) n1 En.
      subst tr1.
      assert (Hn1 : existsb failed_clone n1 = false).
      { assert (exists n2, new = ([Log DEBUG (("[" ++ project ++ "]") ++ " "
                  ++ os_path_join (projects args) project)] ++ n1 ++ n2)%list)
          as [n2 ->].
        { destruct checks.
          - trace_grows H
              (@extends_post_checks w args Topology
                 ["git"; "-C"; os_path_join (projects args) project]
                 ("[" ++ project ++ "]")) n2 En2.
            exists n2. rewrite <- !app_assoc in En2.
            now apply app_inv_head in En2.
          - exists []. unfold ret in H. injection H as H.
            rewrite <- !app_assoc in H. apply app_inv_head in H.
            now rewrite app_nil_r. }
        cbn [app existsb failed_clone orb] in Hok.
        rewrite existsb_app in Hok. now apply orb_false_elim in Hok. }
      apply sync_project_settles
        with (search := search) (document := document) in Hsync; auto.
      intros exc. rewrite Ho. discriminate.
    + discriminate.
    + apply bind_normal_inv in H. destruct H as ([] & s2 & tr2 & H2 & H).
      unfold LOG, emit in H2. injection H2 as <- <-.
      apply Hpc in H. subst observed'.
      unfold settled. rewrite Hre. right. now rewrite He, Ho.
Qed.

End FirstRun.

(** ** The whole loop, twice (C4) *)

Lemma get_expected_of_frame document observed observed' project :
  Dict.get project observed' = Dict.get project observed ->
  Dict.get project (expected_of document observed')
  = Dict.get project (expected_of document observed).
Proof. destruct document as [d|]; [reflexivity|auto]. Qed.

Lemma settled_frame args document observed observed' project :
  Dict.get project observed' = Dict.get project observed ->
  settled args document observed project ->
  settled args document observed' project.
Proof.
  intros H. unfold settled.
  now rewrite (get_expected_of_frame document _ _ _ H), H.
Qed.

Section TwoRuns.
Variable args : Args.
Variable document : option (Dict.t REMOTE_MODE_URL_TYPE).

Lemma process_projects_settles w l : forall observed tr observed' new,
  process_projects w args document l observed tr
  = (Normal tt, observed', (tr ++ new)%list) ->
  existsb failed_clone new = false ->
  (forall p, In p l -> settled args document observed' p)
  /\ (forall q, ~ In q l -> Dict.get q observed' = Dict.get q observed).
Proof.
  induction l as [|p rest IH]; intros observed tr observed' new.
  - unfold process_projects, for_each, ret.
    intros [= <- _] _. split; [intros p []|auto].
  - intros H Hok.
    change (bind (process_project w args document p)
              (fun _ => process_projects w args document rest) observed tr
            = (Normal tt, observed', (tr ++ new)%list)) in H.
    apply bind_normal_inv in H.
    destruct H as ([] & obs1 & tr1 & Hstep & H).
    trace_grows Hstep (@extends_process_project w args document p) n1 En.
    subst tr1.
    trace_grows H (@extends_process_projects w args document rest) n2 En2.
    rewrite <- app_assoc in En2. apply app_inv_head in En2. subst new.
    rewrite existsb_app in Hok. apply orb_false_elim in Hok.
    destruct Hok as [Hok1 Hok2].
    assert (Hframe : forall q, q <> p ->
              Dict.get q obs1 = Dict.get q observed).
    { intros q Hq.
      pose proof (@touches_only_process_project w args document p
                    observed tr q Hq) as K.
      now rewrite Hstep in K. }
    apply process_project_settles in Hstep; [|assumption].
    rewrite app_assoc in H. apply IH in H; [|assumption].
    destruct H as [Hset Hfr]. split.
    + intros q [<-|Hin]; [|now apply Hset].
      destruct (in_dec string_dec p rest) as [Hin|Hnin]; [now apply Hset|].
      apply settled_frame with (observed := obs1); auto.
    + intros q Hq. rewrite Hfr by (intros Hin; apply Hq; now right).
      apply Hframe. intros ->. apply Hq. now left.
Qed.

Lemma process_projects_quiet w l observed :
  (forall p, settled args document observed p) ->
  quiet_at not_corrective (process_projects w args document l) observed.
Proof.
  intros Hall. induction l as [|p rest IH].
  - apply quiet_at_ret.
  - change (quiet_at not_corrective
              (bind (process_project w args document p)
                 (fun _ => process_projects w args document rest)) observed).
    apply quiet_at_bind; [|intros _; exact IH].
    now apply process_project_settled.
Qed.

Lemma not_corrective_actions new :
  forallb not_corrective new = true -> actions new = [].
Proof.
  induction new as [|e new IH]; [reflexivity|].
  cbn [forallb actions filter]. unfold not_corrective at 1.
  intros H. apply andb_prop in H. destruct H as [He Hn].
  apply negb_true_iff in He. rewrite He. now apply IH.
Qed.

(** C4: when the loop over the projects completes and no clone of that
    run has failed (a failed add-remote or set-url does not let the loop
    complete), a second run of the loop from the observed topology the
    first one left, with the same specification, flags and pattern,
    issues no clone, no add-remote and no set-url, whatever the git
    client answers, and leaves the observed topology as it is. *)
Theorem C4_second_run_performs_no_corrective_action
    w1 w2 observed tr1 observed' new1 tr2 :
  check_every_project w1 args document observed tr1
  = (Normal tt, observed', (tr1 ++ new1)%list) ->
  existsb failed_clone new1 = false ->
  store_of (check_every_project w2 args document observed' tr2) = observed'
  /\ exists new2,
       trace_of (check_every_project w2 args document observed' tr2)
       = (tr2 ++ new2)%list
       /\ actions new2 = [].
Proof.
  intros Hrun Hok. unfold check_every_project in Hrun.
  unfold bind at 1, load at 1 in Hrun.
  apply process_projects_settles in Hrun; [|assumption].
  destruct Hrun as [Hset Hfr].
  assert (Hall : forall p, settled args document observed' p).
  { intros p.
    destruct (in_dec string_dec p
                (sorted (set_union (Dict.keys (expected_of document observed))
                                   (Dict.keys observed)))) as [Hin|Hnin];
      [now apply Hset|].
    assert (Hobs : Dict.get p observed' = None).
    { rewrite (Hfr p Hnin). apply DictFacts.get_none_not_in.
      intros Hk. apply Hnin, universe_in. now right. }
    assert (Hexp : Dict.get p (expected_of document observed') = None).
    { transitivity (Dict.get p (expected_of document observed)).
      - apply get_expected_of_frame. rewrite Hobs. symmetry.
        apply DictFacts.get_none_not_in.
        intros Hk. apply Hnin, universe_in. now right.
      - apply DictFacts.get_none_not_in.
        intros Hk. apply Hnin, universe_in. now left. }
    unfold settled. destruct (re_search args); [exact I|].
    right. now rewrite Hexp, Hobs. }
  assert (E : check_every_project w2 args document observed' tr2
              = process_projects w2 args document
                  (sorted (set_union
                             (Dict.keys (expected_of document observed'))
                             (Dict.keys observed'))) observed' tr2)
    by reflexivity.
  rewrite E. clear E.
  destruct (@process_projects_quiet w2
              (sorted (set_union (Dict.keys (expected_of document observed'))
                                 (Dict.keys observed'))) observed' Hall tr2)
    as (Es & new2 & Et & F).
  split; [exact Es|]. exists new2. split; [exact Et|].
  now apply not_corrective_actions.
Qed.
End TwoRuns.

(** ** Clone fallback, then add-remote (C6) *)


Lemma commands_app a b : commands (a ++ b)%list = (commands a ++ commands b)%list.
Proof. apply flat_map_app. Qed.


Section AddRemote.
Variable w : World.
Variable args : Args.
Variables (git : list string) (prefix : string).
Variable e : REMOTE_MODE_URL_TYPE.

End AddRemote.


(** ** Failures of add-remote and set-url (C1) *)

(** C1, evaluated: with two observed projects that both lack the expected
    remote and the set-urls capability granted, a failing [git remote add]
    for the first project ends the run with the uncaught
    [CalledProcessError]: nothing is logged about the failure and the
    second project is not processed.  The same holds when [git remote
    set-url] fails. *)
Theorem C1_failed_add_remote_or_set_url_ends_the_run :
  (let run := main (Fixtures.two_projects Fixtures.add_fails)
                (Fixtures.flags false false true) in
   result_of run
   = Raised (ProcessError
       {| cmd := ["git"; "-C"; "/srv/p1"; "remote"; "add"; "origin"; "new"];
          output := Fixtures.failed "fatal: cannot add" |})
   /\ logged ERROR (trace_of run) = []
   /\ logged WARNING (trace_of run) = []
   /\ commands (trace_of run)
      = [["git"; "-C"; "/srv/p1"; "remote"; "-v"];
         ["git"; "-C"; "/srv/p2"; "remote"; "-v"];
         ["git"; "-C"; "/srv/p1"; "remote"; "add"; "origin"; "new"]])
  /\ (let run := main (Fixtures.two_projects Fixtures.set_url_fails)
                   (Fixtures.flags false false true) in
      result_of run
      = Raised (ProcessError
          {| cmd := ["git"; "-C"; "/srv/p1"; "remote"; "set-url"; "origin"; "new"];
             output := Fixtures.failed "fatal: cannot set" |})
      /\ logged ERROR (trace_of run) = []
      /\ logged WARNING (trace_of run) = []
      /\ commands (trace_of run)
         = [["git"; "-C"; "/srv/p1"; "remote"; "-v"];
            ["git"; "-C"; "/srv/p2"; "remote"; "-v"];
            ["git"; "-C"; "/srv/p1"; "remote"; "set-url"; "origin"; "new"]]).
Proof. vm_compute. repeat split. Qed.

(** ** Correcting the push URL (C7) *)

Lemma is_log_commands new : forallb is_log new = true -> commands new = [].
Proof.
  induction new as [|e new IH]; [reflexivity|].
  cbn [forallb]. intros H. apply andb_prop in H. destruct H as [He Hn].
  destruct e; try discriminate. cbn. now apply IH.
Qed.

(** The command line of [set-url] for a mode. *)
Lemma sync_mode_sets_url w args git remote_prefix remote
    (e o : MODE_URL_TYPE) mode url tr :
  set_urls args = true ->
  Dict.get mode e = Some url ->
  url <> EmptyString ->
  Dict.get mode o <> Some url ->
  let argv :=
    (((git ++ ["remote"; "set-url"])
      ++ (if String.eqb mode "push" then ["--push"] else []))
     ++ [remote; url])%list in
  let before :=
    [Log DEBUG ((remote_prefix ++ " [" ++ mode ++ "]") ++ " mode sync needed");
     Log INFO ((remote_prefix ++ " [" ++ mode ++ "]") ++ " changing '"
               ++ PyStr.str_opt (Dict.get mode o) ++ "' to '" ++ url ++ "'...")] in
  let result := subprocess w (tr ++ before)%list argv in
  sync_mode w args git remote_prefix remote e mode o tr
  = (if Z.eqb (returncode result) 0 then Normal tt
     else Raised (ProcessError {| cmd := argv; output := result |}),
     if Z.eqb (returncode result) 0 then Dict.set mode url o else o,
     ((tr ++ before) ++ [Run argv result])%list).
Proof.
  intros Hset He Hu Ho argv before result.
  unfold sync_mode. unfold bind at 1, load at 1. rewrite He.
  destruct url as [|c u]; [contradiction|].
  match goal with
  | |- context [if ?c then ret tt else _] =>
      assert (Hneq : c = false)
  end.
  { destruct (Dict.get mode o) as [v|]; [|reflexivity]. simpl.
    destruct (String.eqb (String c u) v) eqn:E; [|exact E].
    apply String.eqb_eq in E. congruence. }
  rewrite Hneq. rewrite Hset. cbn [negb].
  unfold bind at 1, LOG at 1, emit at 1.
  unfold bind at 1, LOG at 1, emit at 1.
  unfold bind at 1, run_checked. unfold bind at 1, run at 1.
  unfold bind at 1, check.
  subst result before argv. rewrite <- !app_assoc. cbn [app].
  match goal with
  | |- context [Z.eqb (returncode ?r) 0] => destruct (Z.eqb (returncode r) 0)
  end; reflexivity.
Qed.

(** C7, in the form the code satisfies: the expected modes of a remote
    are [{fetch: X, push: Y}] with [Y] not empty, the observed ones are
    [{fetch: X, push: Z}] with [Z] different from [Y], and the set-urls
    capability is granted.  Then the only subprocess run for the remote is
    [git remote set-url --push remote Y]; when it succeeds the observed
    modes become [{fetch: X, push: Y}], and when it fails the exception
    leaves the loop with the observed modes as they were. *)
Theorem C7_push_url_is_set_with_the_push_variant
    w args git prefix (e o : REMOTE_MODE_URL_TYPE) remote X Y Z tr :
  set_urls args = true ->
  Dict.get remote e = Some [("fetch", X); ("push", Y)] ->
  Dict.get remote o = Some [("fetch", X); ("push", Z)] ->
  Z <> Y ->
  Y <> EmptyString ->
  let argv := (git ++ ["remote"; "set-url"; "--push"; remote; Y])%list in
  let run := sync_remote w args git prefix e remote o tr in
  exists before result,
    trace_of run = (tr ++ before ++ [Run argv result])%list
    /\ commands before = []
    /\ result = subprocess w (tr ++ before)%list argv
    /\ (returncode result = 0%Z ->
        result_of run = Normal tt
        /\ store_of run = Dict.set remote [("fetch", X); ("push", Y)] o)
    /\ (returncode result <> 0%Z ->
        result_of run = Raised (ProcessError {| cmd := argv; output := result |})
        /\ store_of run = o).
Proof.
  intros Hset He Ho HZY HY argv run.
  set (rp := prefix ++ " [" ++ remote ++ "]").
  assert (Hrun : exists n1,
    forallb is_log n1 = true
    /\ let before :=
         ([Log DEBUG (rp ++ " remote sync needed");
           Log DEBUG (rp ++ " remote exists")]
          ++ n1
          ++ [Log DEBUG ((rp ++ " [" ++ "push" ++ "]") ++ " mode sync needed");
              Log INFO ((rp ++ " [" ++ "push" ++ "]") ++ " changing '"
                        ++ PyStr.str_opt (Some Z) ++ "' to '" ++ Y ++ "'...")])%list in
       let result := subprocess w (tr ++ before)%list argv in
       run = (if Z.eqb (returncode result) 0 then Normal tt
              else Raised (ProcessError {| cmd := argv; output := result |}),
              Dict.set remote
                (if Z.eqb (returncode result) 0
                 then [("fetch", X); ("push", Y)]
                 else [("fetch", X); ("push", Z)]) o,
              (tr ++ before ++ [Run argv result])%list)).
  { subst run. unfold sync_remote. unfold bind at 1, load at 1. rewrite He, Ho.
    match goal with
    | |- context [if ?c then ret tt else _] =>
        assert (Hneq : c = false)
    end.
    { cbn. rewrite !String.eqb_refl. cbn.
      destruct (String.eqb Y Z) eqn:E; [|reflexivity].
      apply String.eqb_eq in E. congruence. }
    rewrite Hneq. unfold Dict.mem. rewrite Ho. cbn [negb].
    unfold bind at 1, LOG at 1, emit at 1. unfold bind at 1, ret at 1.
    unfold bind at 1, LOG at 1, emit at 1.
    unfold zoom. rewrite Ho. unfold bind at 1, load at 1.
    change (sorted (set_union (Dict.keys [("fetch", X); ("push", Y)])
                              (Dict.keys [("fetch", X); ("push", Z)])))
      with ["fetch"; "push"].
    cbn [for_each]. unfold bind at 1.
    match goal with
    | |- context [sync_mode w args git ?rp remote ?em "fetch" ?om ?t] =>
        destruct (@sync_mode_quiet w args git rp remote em "fetch" om t)
          as (n1 & E1 & F1);
          [right; intros url; cbn; congruence|]
    end.
    rewrite E1. unfold bind at 1.
    match goal with
    | |- context [sync_mode w args git ?rp remote ?em "push" ?om ?t] =>
        pose proof (@sync_mode_sets_url w args git rp remote em om "push" Y t
                      Hset eq_refl HY) as E2
    end.
    cbv zeta in E2. rewrite E2 by (cbn; congruence). clear E2.
    cbn [String.eqb Ascii.eqb Bool.eqb Dict.get].
    exists n1. split; [exact F1|]. cbv zeta. subst argv.
    rewrite <- !app_assoc. cbn [app]. fold rp.
    match goal with
    | |- context [Z.eqb (returncode ?r) 0] => destruct (Z.eqb (returncode r) 0)
    end; reflexivity. }
  destruct Hrun as (n1 & F1 & Hrun). cbv zeta in Hrun.
  eexists. eexists. rewrite Hrun. unfold trace_of, result_of, store_of.
  cbn [fst snd].
  split; [reflexivity|]. split.
  { rewrite !commands_app, (is_log_commands _ F1). reflexivity. }
  split; [reflexivity|]. split.
  - intros ->. cbn. split; reflexivity.
  - intros Hrc. apply Z.eqb_neq in Hrc. rewrite Hrc.
    split; [reflexivity|]. apply DictFacts.set_get_id. exact Ho.
Qed.

(** ** The candidates of a clone (C3, C5) *)

Lemma clone_attempts_app a b :
  clone_attempts (a ++ b)%list = (clone_attempts a ++ clone_attempts b)%list.
Proof. apply flat_map_app. Qed.

Lemma not_clone_attempts new :
  forallb not_clone new = true -> clone_attempts new = [].
Proof.
  induction new as [|e new IH]; [reflexivity|].
  cbn [forallb]. intros H. apply andb_prop in H. destruct H as [He Hn].
  change (e :: new) with ([e] ++ new)%list.
  rewrite clone_attempts_app, (IH Hn), app_nil_r.
  destruct e as [l m|argv r|m|p d|argv f|p]; try reflexivity.
  cbn in He. apply negb_true_iff in He.
  destruct argv as [|g [|c [|o [|remote [|url rest]]]]]; try reflexivity.
  cbn. cbn in He. now rewrite He.
Qed.

(** The generator yields, in the order of the dict, the remotes whose
    fetch URL is there and not empty. *)
Lemma fetchable_remote_urls_in_dict_order (e : REMOTE_MODE_URL_TYPE) :
  _fetchable_remote_urls e
  = flat_map
      (fun item =>
         match Dict.get "fetch" (snd item) with
         | Some url => if PyStr.truthy url then [(fst item, url)] else []
         | None => []
         end)
      (Dict.items e).
Proof.
  unfold Dict.items. induction e as [|[remote mu] e IH]; [reflexivity|].
  cbn [_fetchable_remote_urls flat_map fst snd]. rewrite IH.
  destruct (Dict.get "fetch" mu) as [url|]; [|reflexivity].
  destruct (PyStr.truthy url); reflexivity.
Qed.

Lemma fetchable_remote_urls_in (e : REMOTE_MODE_URL_TYPE) remote url :
  In (remote, url) (_fetchable_remote_urls e)
  <-> exists mode_url,
        In (remote, mode_url) e /\ Dict.get "fetch" mode_url = Some url
        /\ url <> EmptyString.
Proof.
  rewrite fetchable_remote_urls_in_dict_order, in_flat_map. unfold Dict.items.
  split.
  - intros ([r mu] & Hin & H). cbn [fst snd] in H.
    destruct (Dict.get "fetch" mu) as [u|] eqn:Hf; [|contradiction].
    destruct u as [|c u]; [contradiction|]. cbn in H.
    destruct H as [[= <- <-]|[]]. exists mu. repeat split; auto. discriminate.
  - intros (mu & Hin & Hf & Hne). exists (remote, mu). split; [exact Hin|].
    cbn [fst snd]. rewrite Hf. destruct url; [contradiction|]. now left.
Qed.

Section Candidates.
Variable w : World.
Variable args : Args.

Lemma clone_from_attempts project path prefix cands : forall observed tr,
  exists new b observed',
    clone_from w project path prefix cands observed tr
    = (Normal b, observed', (tr ++ new)%list)
    /\ ((b = false /\ observed' = observed
         /\ clone_attempts new = map (fun c => (c, false)) cands
         /\ new <> [])
        \/ (b = true
            /\ exists tried remote url rest,
                 cands = (tried ++ (remote, url) :: rest)%list
                 /\ clone_attempts new
                    = (map (fun c => (c, false)) tried
                       ++ [((remote, url), true)])%list)).
Proof.
  induction cands as [|[remote url] rest IH]; intros observed tr;
    cbn [clone_from].
  - eexists [_], false, observed. unfold bind, LOG, emit, ret.
    split; [reflexivity|]. left. repeat split. discriminate.
  - unfold bind at 1, run at 1.
    destruct (Z.eqb (returncode (subprocess w tr
                ["git"; "clone"; "--origin"; remote; url; path])) 0) eqn:Erc;
      cbn [negb].
    + eexists [_; _], true, _. unfold bind, LOG, emit, set_item, ret.
      rewrite <- !app_assoc. split; [reflexivity|]. right.
      split; [reflexivity|]. exists [], remote, url, rest.
      split; [reflexivity|]. cbn. now rewrite Erc.
    + unfold bind at 1, LOG at 1, emit at 1.
      match goal with
      | |- context [clone_from _ _ _ _ _ _ ?t] =>
          destruct (IH observed t) as (new & b & observed' & E & H)
      end.
      rewrite E. eexists (_ :: _ :: new), b, observed'.
      rewrite <- !app_assoc. split; [reflexivity|].
      destruct H as [(-> & -> & Hat & _)|(-> & tried & r & u & rest' & -> & Hat)].
      * left. repeat split; [|discriminate].
        cbn [app].
        match goal with
        | |- clone_attempts (?a :: ?b :: new) = _ =>
            change (a :: b :: new) with ([a; b] ++ new)%list;
            rewrite clone_attempts_app
        end.
        rewrite Hat. cbn. now rewrite Erc.
      * right. split; [reflexivity|].
        exists ((remote, url) :: tried), r, u, rest'.
        split; [reflexivity|].
        cbn [app].
        match goal with
        | |- clone_attempts (?a :: ?b :: new) = _ =>
            change (a :: b :: new) with ([a; b] ++ new)%list;
            rewrite clone_attempts_app
        end.
        rewrite Hat. cbn. now rewrite Erc.
Qed.
End Candidates.

Ltac frames :=
  first
    [ apply adds_only_ret | apply adds_only_load | apply adds_only_raise
    | apply adds_only_set_item
    | apply adds_only_emit; reflexivity
    | apply adds_only_run; intros ?; reflexivity
    | apply adds_only_run_checked; intros ?; reflexivity
    | apply adds_only_zoom
    | apply adds_only_for_each; intros ?
    | apply adds_only_bind; [|intros ?]
    | match goal with
      | |- adds_only _ (if ?b then _ else _) => destruct b
      | |- adds_only _ (match ?x with _ => _ end) => destruct x
      end ].

Section NoClone.
Variable w : World.
Variable args : Args.
Variable path : string.

Lemma no_clone_sync_mode remote_prefix remote e mode :
  adds_only not_clone
    (sync_mode w args ["git"; "-C"; path] remote_prefix remote e mode).
Proof. unfold sync_mode, LOG. repeat frames. Qed.

Lemma no_clone_sync_remote prefix e remote :
  adds_only not_clone (sync_remote w args ["git"; "-C"; path] prefix e remote).
Proof.
  unfold sync_remote, add_remote, LOG.
  repeat first [ apply no_clone_sync_mode | frames ].
Qed.

Lemma no_clone_post_checks {S} prefix :
  adds_only not_clone (@post_checks w args S ["git"; "-C"; path] prefix).
Proof. unfold post_checks, LOG. repeat frames. Qed.
End NoClone.

Section CreateProject.
Variable w : World.
Variable args : Args.

(** The clones of a project that is expected and not observed. *)
Lemma create_project_attempts (d : Dict.t REMOTE_MODE_URL_TYPE)
    (observed : Topology) project (e : REMOTE_MODE_URL_TYPE) search tr :
  re_search args = Regex search ->
  search project = true ->
  clone args = true ->
  Dict.get project d = Some e ->
  Dict.get project observed = None ->
  exists new,
    trace_of (process_project w args (Some d) project observed tr)
    = (tr ++ new)%list
    /\ (clone_attempts new
        = map (fun c => (c, false)) (_fetchable_remote_urls e)
        \/ exists tried remote url rest,
             _fetchable_remote_urls e = (tried ++ (remote, url) :: rest)%list
             /\ clone_attempts new
                = (map (fun c => (c, false)) tried
                   ++ [((remote, url), true)])%list).
Proof.
  intros Hre Hs Hclone Hd Ho.
  set (path := os_path_join (projects args) project).
  set (prefix := "[" ++ project ++ "]").
  destruct (clone_from_attempts w project path prefix
              (_fetchable_remote_urls e) observed
              (((tr ++ [Log DEBUG (prefix ++ " " ++ path)])
                ++ [Log DEBUG (prefix ++ " project sync needed")])
               ++ [Log INFO (prefix ++ " cloning...")])%list)
    as (n1 & b & observed' & E & H).
  assert (Hrun : exists n2,
    forallb not_clone n2 = true
    /\ trace_of (process_project w args (Some d) project observed tr)
       = ((((tr ++ [Log DEBUG (prefix ++ " " ++ path)])
            ++ [Log DEBUG (prefix ++ " project sync needed")])
           ++ [Log INFO (prefix ++ " cloning...")]) ++ n1 ++ n2)%list).
  { unfold process_project. rewrite Hre, Hs. cbn [negb].
    unfold bind at 1, LOG at 1, emit at 1. unfold bind at 1, load at 1.
    rewrite get_expected_of_document, Hd, Ho. cbn [option_map opt_eqb].
    unfold sync_project.
    unfold bind at 1. unfold bind at 1, LOG at 1, emit at 1.
    unfold bind at 1, load at 1. unfold Dict.mem. rewrite Ho. cbn [negb].
    unfold clone_project. rewrite Hclone. cbn [negb].
    unfold bind at 1. unfold bind at 1, LOG at 1, emit at 1.
    fold path. fold prefix. rewrite E.
    destruct b.
    - unfold bind at 1, LOG at 1, emit at 1. unfold bind at 1.
      match goal with
      | |- context [zoom ?l ?g ?p ?m ?s ?t] =>
          assert (Hz : adds_only not_clone (zoom l g p m))
      end.
      { repeat first [ apply no_clone_sync_remote | frames ]. }
      match goal with
      | |- context [zoom ?l ?g ?p ?m ?s ?t] =>
          destruct (Hz s t) as (nz & Ez & Fz);
          destruct (zoom l g p m s t) as [[rz sz] tz] eqn:Z
      end.
      unfold trace_of in Ez. cbn [snd] in Ez. subst tz.
      destruct rz as [[]|exc].
      + unfold ret at 1.
        destruct (@no_clone_post_checks w args path Topology prefix sz
                    ((((((tr ++ [Log DEBUG (prefix ++ " " ++ path)])
                         ++ [Log DEBUG (prefix ++ " project sync needed")])
                        ++ [Log INFO (prefix ++ " cloning...")]) ++ n1)
                      ++ [Log DEBUG (prefix ++ " clone exists")]) ++ nz)%list)
          as (np & Ep & Fp).
        rewrite Ep.
        exists ([Log DEBUG (prefix ++ " clone exists")] ++ nz ++ np)%list.
        split.
        * rewrite !forallb_app, Fz, Fp. reflexivity.
        * rewrite <- !app_assoc. reflexivity.
      + exists ([Log DEBUG (prefix ++ " clone exists")] ++ nz)%list.
        split.
        * rewrite !forallb_app, Fz. reflexivity.
        * unfold trace_of. cbn [snd]. rewrite <- !app_assoc. reflexivity.
    - exists []. split; [reflexivity|].
      unfold bind, ret, trace_of. cbn [snd]. now rewrite app_nil_r. }
  destruct Hrun as (n2 & F2 & Hrun). rewrite Hrun.
  eexists. rewrite <- !app_assoc. split; [reflexivity|].
  cbn [app]. 
  match goal with
  | |- context [clone_attempts (?a :: ?b :: ?c :: n1 ++ n2)] =>
      change (a :: b :: c :: n1 ++ n2)%list
        with ([a; b; c] ++ n1 ++ n2)%list
  end.
  rewrite !clone_attempts_app, (not_clone_attempts _ F2), app_nil_r.
  cbn [clone_attempts flat_map app].
  destruct H as [(_ & _ & Hat & _)|(_ & tried & r & u & rest & Hc & Hat)].
  - left. exact Hat.
  - right. exists tried, r, u, rest. now split.
Qed.
End CreateProject.


(** What the run does with a project that is expected and not observed
    when it does not clone. *)
Lemma process_project_not_cloned w args (d : Dict.t REMOTE_MODE_URL_TYPE)
    (observed : Topology) project (e : REMOTE_MODE_URL_TYPE) search tr :
  re_search args = Regex search ->
  search project = true ->
  Dict.get project d = Some e ->
  Dict.get project observed = None ->
  let prefix := "[" ++ project ++ "]" in
  let start :=
    [Log DEBUG (prefix ++ " " ++ os_path_join (projects args) project);
     Log DEBUG (prefix ++ " project sync needed")] in
  (clone args = false ->
   process_project w args (Some d) project observed tr
   = (Normal tt, observed,
      (tr ++ start
          ++ [Log WARNING (prefix ++ " skipping (rerun with --clone)...")])%list))
  /\ (clone args = true -> _fetchable_remote_urls e = [] ->
      process_project w args (Some d) project observed tr
      = (Normal tt, observed,
         (tr ++ start
             ++ [Log INFO (prefix ++ " cloning...");
                 Log ERROR (prefix ++ " unable to clone from expected remotes")])%list)).
Proof.
  intros Hre Hs Hd Ho prefix start.
  split.
  - intros Hclone. unfold process_project. rewrite Hre, Hs. cbn [negb].
    unfold bind at 1, LOG at 1, emit at 1. unfold bind at 1, load at 1.
    rewrite get_expected_of_document, Hd, Ho. cbn [option_map opt_eqb].
    unfold sync_project.
    unfold bind at 1. unfold bind at 1, LOG at 1, emit at 1.
    unfold bind at 1, load at 1. unfold Dict.mem. rewrite Ho. cbn [negb].
    unfold clone_project. rewrite Hclone. cbn [negb].
    unfold bind, LOG, emit, ret. subst start prefix.
    rewrite <- !app_assoc. reflexivity.
  - intros Hclone Hc. unfold process_project. rewrite Hre, Hs. cbn [negb].
    unfold bind at 1, LOG at 1, emit at 1. unfold bind at 1, load at 1.
    rewrite get_expected_of_document, Hd, Ho. cbn [option_map opt_eqb].
    unfold sync_project.
    unfold bind at 1. unfold bind at 1, LOG at 1, emit at 1.
    unfold bind at 1, load at 1. unfold Dict.mem. rewrite Ho. cbn [negb].
    unfold clone_project. rewrite Hclone, Hc. cbn [negb clone_from].
    unfold bind, LOG, emit, ret. subst start prefix.
    rewrite <- !app_assoc. reflexivity.
Qed.

(** C5, in the form the code satisfies: for a project that is expected
    and not observed (and whose name the pattern accepts), a clone is
    attempted exactly when the clone capability is granted and an
    expected remote has a non-empty fetch URL.  Otherwise the project stays
    absent from the observed topology: without the capability it is
    skipped with a warning, and with the capability but without a
    candidate the run reports an error; in both cases the checks of the
    working copy are skipped. *)
Theorem C5_clone_attempted_iff_granted_and_fetchable
    w args (d : Dict.t REMOTE_MODE_URL_TYPE) (observed : Topology)
    project (e : REMOTE_MODE_URL_TYPE) search tr :
  re_search args = Regex search ->
  search project = true ->
  Dict.get project d = Some e ->
  Dict.get project observed = None ->
  let prefix := "[" ++ project ++ "]" in
  let start :=
    [Log DEBUG (prefix ++ " " ++ os_path_join (projects args) project);
     Log DEBUG (prefix ++ " project sync needed")] in
  let run := process_project w args (Some d) project observed tr in
  let fetchable :=
    exists remote mode_url url,
      In (remote, mode_url) e /\ Dict.get "fetch" mode_url = Some url
      /\ url <> EmptyString in
  (exists new,
      trace_of run = (tr ++ new)%list
      /\ (clone_attempts new <> [] <-> clone args = true /\ fetchable))
  /\ (clone args = false ->
      run = (Normal tt, observed,
             (tr ++ start
                 ++ [Log WARNING
                       (prefix ++ " skipping (rerun with --clone)...")])%list))
  /\ (clone args = true -> ~ fetchable ->
      run = (Normal tt, observed,
             (tr ++ start
                 ++ [Log INFO (prefix ++ " cloning...");
                     Log ERROR
                       (prefix ++ " unable to clone from expected remotes")])%list)).
Proof.
  intros Hre Hs Hd Ho prefix start run fetchable.
  destruct (@process_project_not_cloned w args d observed project e search tr
              Hre Hs Hd Ho) as [Hskip Hnone].
  cbv zeta in Hskip, Hnone. fold prefix in Hskip, Hnone.
  assert (Hf : fetchable <-> _fetchable_remote_urls e <> []).
  { subst fetchable. split.
    - intros (remote & mu & url & H) Hc.
      assert (Hin : In (remote, url) (_fetchable_remote_urls e))
        by (apply fetchable_remote_urls_in; eauto).
      now rewrite Hc in Hin.
    - intros Hc. destruct (_fetchable_remote_urls e) as [|[remote url] l] eqn:E;
        [contradiction|].
      assert (Hin : In (remote, url) (_fetchable_remote_urls e))
        by (rewrite E; now left).
      apply fetchable_remote_urls_in in Hin. destruct Hin as (mu & H).
      now exists remote, mu, url. }
  split; [|split].
  - destruct (clone args) eqn:Hclone.
    + destruct (@create_project_attempts w args d observed project e search tr
                  Hre Hs Hclone Hd Ho) as (new & Et & Hat).
      exists new. split; [exact Et|]. rewrite Hf. split.
      * intros Hne. split; [reflexivity|]. intros Hc. apply Hne.
        destruct Hat as [Hat|(tried & r & u & rest & Hc' & _)].
        -- now rewrite Hat, Hc.
        -- rewrite Hc in Hc'. now destruct tried.
      * intros [_ Hc] Hn.
        destruct Hat as [Hat|(tried & r & u & rest & _ & Hat)].
        -- rewrite Hat in Hn. destruct (_fetchable_remote_urls e);
             [contradiction|discriminate].
        -- rewrite Hat in Hn. now destruct tried.
    + eexists. subst run. rewrite (Hskip eq_refl). split; [reflexivity|].
      split; [intros H; now contradiction H|intros [H _]; discriminate].
  - intros Hclone. subst run. now apply Hskip.
  - intros Hclone Hn. subst run. apply Hnone; [assumption|].
    destruct (_fetchable_remote_urls e) eqn:E; [reflexivity|].
    exfalso. apply Hn, Hf. discriminate.
Qed.

(** ** The exported specification (C2) *)

Lemma get_fold_snapshot_item (l : Topology) : forall acc project,
  NoDup (Dict.keys l) ->
  Dict.get project (fold_left snapshot_item l acc)
  = match Dict.get project l with
    | Some (Remotes r) => Some r
    | _ => Dict.get project acc
    end.
Proof.
  induction l as [|[k v] l IH]; intros acc project Hnd; [reflexivity|].
  cbn [fold_left Dict.get]. inversion Hnd as [|? ? Hnotin Hnd']; subst.
  rewrite IH by assumption.
  destruct (String.eqb project k) eqn:E.
  - apply String.eqb_eq in E. subst k.
    assert (Hnone : Dict.get project l = None)
      by (apply DictFacts.get_none_not_in; exact Hnotin).
    rewrite Hnone. destruct v as [r|exc]; cbn [snapshot_item].
    + apply DictFacts.get_set_same.
    + reflexivity.
  - apply String.eqb_neq in E.
    destruct (Dict.get project l) as [[r|exc]|]; try reflexivity;
      destruct v as [r'|exc']; cbn [snapshot_item]; try reflexivity;
      apply DictFacts.get_set_other; congruence.
Qed.

Lemma get_snapshot (expected : Topology) project :
  NoDup (Dict.keys expected) ->
  Dict.get project (snapshot expected)
  = match Dict.get project expected with
    | Some (Remotes r) => Some r
    | _ => None
    end.
Proof.
  intros Hnd. unfold snapshot, Dict.items.
  rewrite get_fold_snapshot_item by assumption.
  now destruct (Dict.get project expected) as [[r|exc]|].
Qed.

(** What the export writes: the projects of [expected] that are not
    query failures, each with its expected remotes.  With a loaded
    specification this is the specification itself (no observed project is
    added to it and no project is left out because its query failed), and
    without one it is the observed topology without its query failures.
    The export fails, with an error report and exit status 1, when the
    destination exists and overwrite was not requested, and when the
    opened file cannot be written. *)
Lemma write_spec_outcomes
    w args document (observed : Topology) dest tr :
  spec_create args = Some dest ->
  NoDup (Dict.keys (expected_of document observed)) ->
  let run := write_spec w args document observed tr in
  let announce := Log INFO ("writing spec to '" ++ dest ++ "'...") in
  (exists_ w dest = true -> spec_create_overwrite args = false ->
   run = (Raised (SystemExit 1), observed,
          (tr ++ [announce; Log ERROR (file_exists_error w dest)])%list))
  /\ (open_for_writing w dest (negb (spec_create_overwrite args)) = None ->
      write_error w dest = None ->
      exists written,
        run = (Normal tt, observed, (tr ++ [announce; JsonDump dest written])%list)
        /\ (forall project,
               Dict.get project written
               = match Dict.get project (expected_of document observed) with
                 | Some (Remotes r) => Some r
                 | _ => None
                 end)
        /\ (forall d project,
               document = Some d ->
               Dict.get project written = Dict.get project d))
  /\ (forall exc,
         open_for_writing w dest (negb (spec_create_overwrite args)) = None ->
         write_error w dest = Some exc ->
         run = (Raised (SystemExit 1), observed,
                (tr ++ [announce; Spoiled dest; Log ERROR exc])%list))
  /\ (spec_create_overwrite args = true ->
      open_for_writing w dest (negb (spec_create_overwrite args))
      = open_error w dest).
Proof.
  intros Hdest Hnd run announce. subst run. unfold write_spec. rewrite Hdest.
  split; [|split; [|split]].
  - intros Hex Hov. unfold open_for_writing. rewrite Hov, Hex. cbn [negb andb].
    unfold bind, LOG, emit, raise. rewrite <- app_assoc. reflexivity.
  - intros Hopen Hwrite. rewrite Hopen, Hwrite.
    exists (snapshot (expected_of document observed)).
    split; [|split].
    + unfold bind, LOG, load, emit. rewrite <- app_assoc. reflexivity.
    + intros project. now apply get_snapshot.
    + intros d project ->. rewrite get_snapshot by assumption.
      rewrite get_expected_of_document.
      now destruct (Dict.get project d).
  - intros exc Hopen Hwrite. rewrite Hopen, Hwrite.
    unfold bind, LOG, load, emit, raise. rewrite <- !app_assoc. reflexivity.
  - intros Hov. unfold open_for_writing. rewrite Hov. reflexivity.
Qed.

(** C2: the export writes [expected], not what exists.  The specification
    file names [a], whose query failed, and the projects directory also
    holds the repository [b].  The document written holds [a] with its
    expected remotes, where the claim excludes a project whose observed
    state is a query failure, and does not hold [b], where the claim falls
    back to the observed remotes. *)
Theorem C2_export_keeps_a_failed_project_and_omits_an_existing_one :
  let document := fst Fixtures.a_spec_and_another_project in
  let observed := snd Fixtures.a_spec_and_another_project in
  let expected := expected_of (Some document) observed in
  write_spec Fixtures.everything_works (Fixtures.flags_export false)
    (Some document) observed []
  = (Normal tt, observed,
     [Log INFO "writing spec to 'out.json'...";
      JsonDump "out.json" [("a", [("origin", [("fetch", "ua")])])]])
  /\ (exists exc, Dict.get "a" observed = Some (QueryFailed exc))
  /\ snapshot_in_spec_words expected observed "a" = None
  /\ Dict.get "b" observed = Some (Remotes [("origin", both_modes "ub")])
  /\ snapshot_in_spec_words expected observed "b"
     = Some [("origin", both_modes "ub")].
Proof.
  cbv zeta. split; [reflexivity|]. split; [eexists; reflexivity|].
  repeat split.
Qed.

(** ** A project whose query failed (C8) *)

(** C8, in the form the code satisfies: a project whose observed state
    is a query failure gets the diagnostic of the query only when the
    pattern accepts its name.  It then gets one debug record and one error
    record with the stripped standard error of the query; when the pattern
    rejects its name it gets the debug record of an ignored project and
    no diagnostic.  Either way no subprocess is run for it, the observed
    topology is unchanged, and the loop goes on with the remaining
    projects.  The query returns a non-zero status as a value; it raises
    when git cannot be started ([OSError]), when [--git-encoding] does
    not name an encoding ([LookupError]) and when the output of git is not
    text in the encoding ([UnicodeDecodeError]). *)
Theorem C8_query_failure_abandons_only_the_project
    w args document (observed : Topology) project exc search rest tr :
  re_search args = Regex search ->
  Dict.get project observed = Some (QueryFailed exc) ->
  let prefix := "[" ++ project ++ "]" in
  let tr' :=
    if search project
    then
      (tr ++ [Log DEBUG (prefix ++ " " ++ os_path_join (projects args) project);
              Log ERROR (prefix ++ " " ++ PyStr.strip (stderr (output exc)))])%list
    else (tr ++ [Log DEBUG (prefix ++ " ignoring...")])%list in
  process_project w args document project observed tr
  = (Normal tt, observed, tr')
  /\ process_projects w args document (project :: rest) observed tr
     = process_projects w args document rest observed tr'
  /\ forall path (s : Topology) tr0,
       let argv := ["git"; "-C"; path; "remote"; "-v"] in
       let r := subprocess w tr0 argv in
       _remote_mode_url w path s tr0
       = match spawn_failure w tr0 argv with
         | None =>
             (Normal (if Z.eqb (returncode r) 0
                      then Remotes (parse_remotes (stdout r))
                      else QueryFailed {| cmd := argv; output := r |}),
              s, (tr0 ++ [Run argv r])%list)
         | Some (CannotStart message) =>
             (Raised (OSError message), s,
              (tr0 ++ [Aborted argv (CannotStart message)])%list)
         | Some (UnknownEncoding message) =>
             (Raised (LookupError message), s,
              (tr0 ++ [Aborted argv (UnknownEncoding message)])%list)
         | Some (Undecodable message) =>
             (Raised (UnicodeDecodeError message), s,
              (tr0 ++ [Aborted argv (Undecodable message)])%list)
         end.
Proof.
  intros Hre Ho prefix tr'.
  assert (Hstep : process_project w args document project observed tr
                  = (Normal tt, observed, tr')).
  { unfold process_project. rewrite Hre. subst tr' prefix.
    destruct (search project); cbn [negb]; [|reflexivity].
    unfold bind, LOG, emit, load. rewrite Ho.
    now rewrite <- app_assoc. }
  split; [exact Hstep|]. split.
  - unfold process_projects. simpl. unfold bind at 1. now rewrite Hstep.
  - intros path s tr0 argv r. unfold _remote_mode_url, bind, spawn.
    fold argv.
    destruct (spawn_failure w tr0 argv) as [[message|message|message]|];
      [reflexivity|reflexivity|reflexivity|].
    unfold run. fold r. now destruct (Z.eqb (returncode r) 0).
Qed.

(** ** The theorems at concrete inputs *)



(** C4 at a first run that clones [p] from [origin] and sets its push
    URL, followed by a second run in a world where no clone would work:
    the second run has no corrective action. *)
Lemma C4_witness :
  check_every_project Fixtures.everything_works
    (Fixtures.flags true false true) (Some Fixtures.fetch_and_push) [] []
  = (Normal tt, store_of Fixtures.first_run,
     ([] ++ trace_of Fixtures.first_run)%list)
  /\ existsb failed_clone (trace_of Fixtures.first_run) = false
  /\ actions (trace_of Fixtures.first_run) <> []
  /\ let second :=
       check_every_project (Fixtures.world Fixtures.no_clone_works)
         (Fixtures.flags true false true) (Some Fixtures.fetch_and_push)
         (store_of Fixtures.first_run) [] in
     store_of second = store_of Fixtures.first_run
     /\ exists new2, trace_of second = ([] ++ new2)%list /\ actions new2 = [].
Proof.
  split; [reflexivity|]. split; [reflexivity|].
  split; [vm_compute; discriminate|].
  exact (@C4_second_run_performs_no_corrective_action
           (Fixtures.flags true false true) (Some Fixtures.fetch_and_push)
           Fixtures.everything_works (Fixtures.world Fixtures.no_clone_works)
           [] [] (store_of Fixtures.first_run) (trace_of Fixtures.first_run) []
           eq_refl eq_refl).
Defined.

(** C5, where "skipped with a warning" fails: the clone capability is
    granted and the only expected remote has no fetch URL; no clone is
    attempted, the project stays absent, and the run logs an error and no
    warning. *)
Lemma C5_counterexample :
  let run :=
    process_project Fixtures.everything_works
      (Fixtures.flags true false false) (Some Fixtures.push_only) "p" [] [] in
  clone (Fixtures.flags true false false) = true
  /\ Dict.get "p" Fixtures.push_only = Some [("a", [("push", "u")])]
  /\ clone_attempts (trace_of run) = []
  /\ store_of run = []
  /\ logged WARNING (trace_of run) = []
  /\ logged ERROR (trace_of run) = ["[p] unable to clone from expected remotes"].
Proof. vm_compute. repeat split. Qed.

(** C5 at this input. *)
Lemma C5_witness :
  re_search (Fixtures.flags true false false) = Regex (fun _ => true)
  /\ Dict.get "p" Fixtures.push_only = Some [("a", [("push", "u")])]
  /\ Dict.get "p" (@Dict.empty REMOTE_MODE_URL_RETURN_TYPE) = None
  /\ exists new,
       trace_of (process_project Fixtures.everything_works
                   (Fixtures.flags true false false)
                   (Some Fixtures.push_only) "p" [] [])
       = new
       /\ (clone_attempts new <> []
           <-> clone (Fixtures.flags true false false) = true
               /\ exists remote mode_url url,
                    In (remote, mode_url) [("a", [("push", "u")])]
                    /\ Dict.get "fetch" mode_url = Some url
                    /\ url <> EmptyString).
Proof.
  repeat (split; [reflexivity|]).
  exact (proj1 (@C5_clone_attempted_iff_granted_and_fetchable
                  Fixtures.everything_works (Fixtures.flags true false false)
                  Fixtures.push_only [] "p" [("a", [("push", "u")])]
                  (fun _ => true) [] eq_refl eq_refl eq_refl eq_refl)).
Defined.


(** C7, where it fails: the expected push URL is the empty string and the
    observed one is [z]; no command is run and the push URL stays [z]. *)
Lemma C7_counterexample :
  let args := Fixtures.flags false false true in
  let e := [("origin", [("fetch", "x"); ("push", EmptyString)])] in
  let o := [("origin", [("fetch", "x"); ("push", "z")])] in
  let run :=
    sync_remote Fixtures.everything_works args ["git"; "-C"; "/srv/p"]
      "[p]" e "origin" o [] in
  set_urls args = true
  /\ "z" <> EmptyString
  /\ commands (trace_of run) = []
  /\ store_of run = o
  /\ result_of run = Normal tt.
Proof. vm_compute. repeat split. discriminate. Qed.

(** C7 with [X = x], [Y = y] and [Z = z]. *)
Lemma C7_witness :
  let args := Fixtures.flags false false true in
  let e := [("origin", [("fetch", "x"); ("push", "y")])] in
  let o := [("origin", [("fetch", "x"); ("push", "z")])] in
  let run :=
    sync_remote Fixtures.everything_works args ["git"; "-C"; "/srv/p"]
      "[p]" e "origin" o [] in
  set_urls args = true
  /\ "z" <> "y"
  /\ "y" <> EmptyString
  /\ exists before result,
       trace_of run
       = (before
          ++ [Run ["git"; "-C"; "/srv/p"; "remote"; "set-url"; "--push";
                   "origin"; "y"] result])%list
       /\ commands before = []
       /\ (returncode result = 0%Z ->
           result_of run = Normal tt
           /\ store_of run = [("origin", [("fetch", "x"); ("push", "y")])]).
Proof.
  intros args e o run.
  assert (Hzy : "z" <> "y") by discriminate.
  assert (Hy : "y" <> EmptyString) by discriminate.
  split; [reflexivity|]. split; [exact Hzy|]. split; [exact Hy|].
  destruct (@C7_push_url_is_set_with_the_push_variant
              Fixtures.everything_works args ["git"; "-C"; "/srv/p"] "[p]"
              e o "origin" "x" "y" "z" [] eq_refl eq_refl eq_refl Hzy Hy)
    as (before & result & Et & Hc & _ & Hok & _).
  exists before, result. split; [exact Et|]. split; [exact Hc|]. exact Hok.
Defined.

(** C8, where the claim fails: the query of [broken] failed and the
    pattern [^lib] rejects the name; the project is named in a debug
    record and its diagnostic is not reported. *)
Lemma C8_counterexample :
  let run :=
    process_project Fixtures.everything_works MoreFixtures.lib_only None
      "broken" Fixtures.broken [] in
  (exists exc, Dict.get "broken" Fixtures.broken = Some (QueryFailed exc))
  /\ run = (Normal tt, Fixtures.broken, [Log DEBUG "[broken] ignoring..."])
  /\ logged ERROR (trace_of run) = []
  /\ logged WARNING (trace_of run) = [].
Proof. cbv zeta. split; [eexists; reflexivity|]. repeat split. Qed.

(** C8 for a directory that is not a repository, whose diagnostic ends
    with a newline, under a pattern that accepts it and under one that
    does not. *)
Lemma C8_witness :
  let exc :=
    {| cmd := ["git"; "-C"; "/srv/broken"; "remote"; "-v"];
       output := Fixtures.failed ("fatal: not a git repository" ++ PyStr.nl) |} in
  let observed : Topology := [("broken", QueryFailed exc)] in
  re_search (Fixtures.flags true true true) = Regex (fun _ => true)
  /\ Dict.get "broken" observed = Some (QueryFailed exc)
  /\ process_project Fixtures.everything_works (Fixtures.flags true true true)
       None "broken" observed []
     = (Normal tt, observed,
        [Log DEBUG "[broken] /srv/broken";
         Log ERROR "[broken] fatal: not a git repository"])
  /\ process_project Fixtures.everything_works MoreFixtures.lib_only
       None "broken" observed []
     = (Normal tt, observed, [Log DEBUG "[broken] ignoring..."]).
Proof.
  intros exc observed.
  split; [reflexivity|]. split; [reflexivity|]. split.
  - exact (proj1 (@C8_query_failure_abandons_only_the_project
                    Fixtures.everything_works (Fixtures.flags true true true)
                    None observed "broken" exc (fun _ => true) [] []
                    eq_refl eq_refl)).
  - exact (proj1 (@C8_query_failure_abandons_only_the_project
                    Fixtures.everything_works MoreFixtures.lib_only
                    None observed "broken" exc
                    (fun project => String.prefix "lib" project) [] []
                    eq_refl eq_refl)).
Defined.

(** C10 for the remote [origin] expected with no mode, and for the mode
    [push] expected with an empty URL. *)
Lemma C10_witness :
  let e : REMOTE_MODE_URL_TYPE := [("origin", [])] in
  let o : REMOTE_MODE_URL_TYPE := [("origin", both_modes "u")] in
  let em : MODE_URL_TYPE := [("fetch", "u"); ("push", EmptyString)] in
  (Dict.get "origin" e = None \/ Dict.get "origin" e = Some [])
  /\ (Dict.get "push" em = None \/ Dict.get "push" em = Some EmptyString)
  /\ sync_remote Fixtures.everything_works (Fixtures.flags true true true)
       ["git"; "-C"; "/srv/p"] "[p]" e "origin" o []
     = (Normal tt, o, [Log WARNING "[p] [origin] unexpected remote"])
  /\ sync_mode Fixtures.everything_works (Fixtures.flags true true true)
       ["git"; "-C"; "/srv/p"] "[p] [origin]" "origin" em "push"
       (both_modes "u") []
     = (Normal tt, both_modes "u",
        [Log WARNING "[p] [origin] [push] unexpected mode"]).
Proof.
  intros e o em.
  assert (Hr : Dict.get "origin" e = None \/ Dict.get "origin" e = Some [])
    by (right; reflexivity).
  assert (Hm : Dict.get "push" em = None
               \/ Dict.get "push" em = Some EmptyString)
    by (right; reflexivity).
  split; [exact Hr|]. split; [exact Hm|].
  exact (@C10_empty_expected_entry_is_treated_as_absent
           Fixtures.everything_works (Fixtures.flags true true true)
           ["git"; "-C"; "/srv/p"] "[p]" "[p] [origin]" "origin" "push"
           e o em (both_modes "u") [] Hr Hm).
Defined.

(** ** The order in which keys are visited *)

Lemma leb_false_leb x y : String.leb x y = false -> String.leb y x = true.
Proof.
  intros H. destruct (String.leb_total x y) as [E|E]; [congruence|exact E].
Qed.

Lemma insert_sorted_Sorted x l :
  Sorted (fun a b => String.leb a b = true) l ->
  Sorted (fun a b => String.leb a b = true) (insert_sorted x l).
Proof.
  induction l as [|y l IH]; intros Hs; cbn [insert_sorted].
  - repeat constructor.
  - destruct (String.leb x y) eqn:E.
    + constructor; [exact Hs|]. constructor. exact E.
    + inversion Hs as [|? ? Hs' Hd]; subst. constructor; [now apply IH|].
      apply leb_false_leb in E.
      destruct l as [|z l]; cbn [insert_sorted].
      * constructor. exact E.
      * destruct (String.leb x z); constructor; [exact E|].
        now inversion Hd.
Qed.

Lemma insert_sorted_NoDup x l :
  ~ In x l -> NoDup l -> NoDup (insert_sorted x l).
Proof.
  induction l as [|y l IH]; intros Hx Hl; cbn [insert_sorted].
  - constructor; [intros []|constructor].
  - destruct (String.leb x y).
    + constructor; assumption.
    + inversion Hl as [|? ? Hy Hl']; subst. constructor.
      * rewrite insert_sorted_in. intros [->|H]; [apply Hx; now left|auto].
      * apply IH; [|assumption]. intros H. apply Hx. now right.
Qed.

Lemma sorted_NoDup l : NoDup l -> NoDup (sorted l).
Proof.
  induction l as [|x l IH]; intros H; cbn; [constructor|].
  inversion H; subst. apply insert_sorted_NoDup; [|auto].
  now rewrite sorted_in.
Qed.

Lemma sorted_Sorted l : Sorted (fun a b => String.leb a b = true) (sorted l).
Proof.
  induction l as [|x l IH]; cbn; [constructor|].
  now apply insert_sorted_Sorted.
Qed.

Lemma leb_neq_ltb x y : String.leb x y = true -> x <> y -> String.ltb x y = true.
Proof.
  unfold String.leb, String.ltb.
  destruct (String.compare x y) eqn:E; intros H Hne;
    try reflexivity; try discriminate.
  apply String.compare_eq_iff in E. contradiction.
Qed.

Lemma Sorted_strict l :
  Sorted (fun a b => String.leb a b = true) l -> NoDup l ->
  Sorted (fun a b => String.ltb a b = true) l.
Proof.
  induction l as [|x l IH]; intros Hs Hn; [constructor|].
  inversion Hs as [|? ? Hs' Hd]; subst. inversion Hn as [|? ? Hx Hn']; subst.
  constructor; [now apply IH|].
  destruct l as [|y l]; constructor.
  inversion Hd; subst. apply leb_neq_ltb; [assumption|].
  intros ->. apply Hx. now left.
Qed.

Lemma sorted_set_union_visits (a b : list string) :
  visits (sorted (set_union a b)) a b.
Proof.
  assert (Hn : NoDup (sorted (set_union a b)))
    by (apply sorted_NoDup, NoDup_nodup).
  split; [|split].
  - apply Sorted_strict; [apply sorted_Sorted|exact Hn].
  - exact Hn.
  - intros k. apply universe_in.
Qed.

(** X1: each of the three loops visits the keys of its scope in strictly
    ascending order of Python strings, every key of the expected or of the
    observed dict once and nothing else.  The loop of line 189 is the
    processing of the projects in that order.  For a project that is
    observed, the reconciliation of lines 220-345 is the loop of line 265
    over the remotes in that order, after two debug records; for a remote
    that is observed and differs from the expected one, the
    reconciliation of lines 282-345 is the loop of line 311 over the modes
    in that order, after two debug records.  What the loop does to the
    remotes (to the modes) is done to the entry of the project (of the
    remote). *)
Theorem X1_the_loops_visit_the_keys_once_in_ascending_order w args :
  (forall document (observed : Topology) tr,
      exists visited,
        visits visited (Dict.keys (expected_of document observed))
          (Dict.keys observed)
        /\ check_every_project w args document observed tr
           = process_projects w args document visited observed tr)
  /\ (forall project path prefix (e o : REMOTE_MODE_URL_TYPE)
        (observed : Topology) tr,
         Dict.get project observed = Some (Remotes o) ->
         exists visited,
           visits visited (Dict.keys e) (Dict.keys o)
           /\ sync_project w args project path prefix e observed tr
              = let '(r, o', tr') :=
                  for_each (sync_remote w args ["git"; "-C"; path] prefix e)
                    visited o
                    (tr ++ [Log DEBUG (prefix ++ " project sync needed");
                            Log DEBUG (prefix ++ " clone exists")])%list in
                (match r with
                 | Normal _ => Normal true
                 | Raised x => Raised x
                 end,
                 Dict.set project (Remotes o') observed, tr'))
  /\ (forall git prefix (e o : REMOTE_MODE_URL_TYPE) remote
        (em om : MODE_URL_TYPE) tr,
         Dict.get remote e = Some em ->
         em <> [] ->
         Dict.get remote o = Some om ->
         mode_url_eqb em om = false ->
         let remote_prefix := prefix ++ " [" ++ remote ++ "]" in
         exists visited,
           visits visited (Dict.keys em) (Dict.keys om)
           /\ sync_remote w args git prefix e remote o tr
              = let '(r, om', tr') :=
                  for_each (sync_mode w args git remote_prefix remote em)
                    visited om
                    (tr ++ [Log DEBUG (remote_prefix ++ " remote sync needed");
                            Log DEBUG (remote_prefix ++ " remote exists")])%list in
                (r, Dict.set remote om' o, tr')).
Proof.
  split; [|split].
  - intros document observed tr. eexists.
    split; [apply sorted_set_union_visits|reflexivity].
  - intros project path prefix e o observed tr Ho. eexists.
    split; [apply sorted_set_union_visits|].
    unfold sync_project. unfold bind at 1. unfold LOG at 1, emit at 1.
    unfold bind at 1. unfold load at 1. unfold Dict.mem. rewrite Ho.
    cbn [negb]. unfold bind at 1. unfold ret at 1.
    unfold bind at 1. unfold LOG at 1, emit at 1.
    unfold bind at 1. unfold zoom, remotes_of. rewrite Ho.
    unfold bind at 1. unfold load at 1.
    rewrite <- app_assoc. cbn [app].
    destruct (for_each _ _ o _) as [[[[]|x] o'] tr']; reflexivity.
  - intros git prefix e o remote em om tr He Hne Ho Hdiff remote_prefix.
    eexists. split; [apply sorted_set_union_visits|].
    unfold sync_remote. unfold bind at 1. unfold load at 1. rewrite He, Ho.
    destruct em as [|kv em]; [now destruct Hne|].
    cbn [opt_eqb]. rewrite Hdiff.
    unfold bind at 1. unfold LOG at 1, emit at 1.
    unfold Dict.mem. rewrite Ho. cbn [negb].
    unfold bind at 1. unfold ret at 1.
    unfold bind at 1. unfold LOG at 1, emit at 1.
    unfold zoom. rewrite Ho.
    unfold bind at 1. unfold load at 1.
    rewrite <- app_assoc. cbn [app]. reflexivity.
Qed.

(** X1 where the dict of the specification lists [b] before [a] and the
    observed remote is [origin]: [a], [b] and [origin] are visited in this
    order. *)
Lemma X1_witness :
  let e : REMOTE_MODE_URL_TYPE :=
    [("b", [("fetch", "u2")]); ("a", [("fetch", "u1")])] in
  let o : REMOTE_MODE_URL_TYPE := [("origin", both_modes "u")] in
  let observed : Topology := [("p", Remotes o)] in
  let run :=
    sync_project Fixtures.everything_works (Fixtures.flags false false false)
      "p" "/srv/p" "[p]" e observed [] in
  (exists visited,
      visits visited (Dict.keys e) (Dict.keys o)
      /\ run
         = let '(r, o', tr') :=
             for_each (sync_remote Fixtures.everything_works
                         (Fixtures.flags false false false)
                         ["git"; "-C"; "/srv/p"] "[p]" e)
               visited o
               [Log DEBUG "[p] project sync needed";
                Log DEBUG "[p] clone exists"] in
           (match r with Normal _ => Normal true | Raised x => Raised x end,
            Dict.set "p" (Remotes o') observed, tr'))
  /\ logged WARNING (trace_of run)
     = ["[p] [a] skipping (rerun with --set-urls)...";
        "[p] [b] skipping (rerun with --set-urls)...";
        "[p] [origin] unexpected remote"].
Proof.
  intros e o observed run. split; [|reflexivity].
  exact (proj1 (proj2 (X1_the_loops_visit_the_keys_once_in_ascending_order
                         Fixtures.everything_works
                         (Fixtures.flags false false false)))
           "p" "/srv/p" "[p]" e o observed [] eq_refl).
Defined.

(** ** Strings *)

Lemma contains_app c a b : contains c (a ++ b) = contains c a || contains c b.
Proof.
  induction a as [|x a IH]; [reflexivity|]. cbn. now rewrite IH, orb_assoc.
Qed.

Lemma rfind_split_none sep s :
  contains sep s = false -> PyStr.rfind_split sep s = None.
Proof.
  induction s as [|a s IH]; [reflexivity|]. cbn. intros H.
  apply orb_false_elim in H. destruct H as [Ha Hs].
  now rewrite (IH Hs), Ha.
Qed.

Lemma rfind_split_last sep a b :
  contains sep b = false ->
  PyStr.rfind_split sep (a ++ String sep b) = Some (a, b).
Proof.
  intros H. induction a as [|x a IH]; cbn.
  - now rewrite (rfind_split_none _ _ H), Ascii.eqb_refl.
  - now rewrite IH.
Qed.

Lemma rpartition_last sep a b :
  contains sep b = false -> PyStr.rpartition sep (a ++ String sep b) = (a, b).
Proof. intros H. unfold PyStr.rpartition. now rewrite rfind_split_last. Qed.

Lemma rpartition_none sep s :
  contains sep s = false -> PyStr.rpartition sep s = (EmptyString, s).
Proof. intros H. unfold PyStr.rpartition. now rewrite rfind_split_none. Qed.

Lemma lstrip_length p s : String.length (PyStr.lstrip p s) <= String.length s.
Proof.
  induction s as [|a s IH]; cbn; [lia|]. destruct (p a); cbn; lia.
Qed.

Lemma rstrip_length p s : String.length (PyStr.rstrip p s) <= String.length s.
Proof.
  induction s as [|a s IH]; cbn; [lia|].
  destruct (PyStr.rstrip p s); [destruct (p a)|]; cbn in *; lia.
Qed.

Lemma rstrip_snoc p s c :
  p c = true -> PyStr.rstrip p (s ++ String c EmptyString) = PyStr.rstrip p s.
Proof.
  intros Hc. induction s as [|a s IH]; cbn.
  - now rewrite Hc.
  - now rewrite IH.
Qed.

(** A string that [strip] leaves alone is what [strip] gives back when a
    stripped character is put at each end. *)
Lemma strip_by_wrapped p o c s :
  p o = true -> p c = true -> PyStr.strip_by p s = s ->
  PyStr.strip_by p (String o (s ++ String c EmptyString)) = s.
Proof.
  intros Ho Hc Hs. unfold PyStr.strip_by in *.
  destruct s as [|a s].
  - cbn. rewrite Ho, Hc. reflexivity.
  - assert (Ha : p a = false).
    { destruct (p a) eqn:E; [|reflexivity]. exfalso.
      cbn [PyStr.lstrip] in Hs. rewrite E in Hs.
      pose proof (rstrip_length p (PyStr.lstrip p s)) as H1.
      pose proof (lstrip_length p s) as H2.
      rewrite Hs in H1. cbn in H1. lia. }
    cbn [PyStr.lstrip append]. rewrite Ho.
    cbn [PyStr.lstrip] in Hs |- *. rewrite Ha in Hs |- *.
    change (String a (s ++ String c EmptyString))
      with (String a s ++ String c EmptyString).
    now rewrite rstrip_snoc.
Qed.

Lemma truthy_app_String a c b : PyStr.truthy (a ++ String c b) = true.
Proof. now destruct a. Qed.

(** ** Dictionaries built by assignments *)

Lemma set_new {V} k (v : V) d :
  Dict.get k d = None -> Dict.set k v d = (d ++ [(k, v)])%list.
Proof.
  induction d as [|[k' v'] d IH]; cbn; [reflexivity|].
  destruct (String.eqb k k'); [discriminate|]. intros H. now rewrite IH.
Qed.

Lemma set_last {V} k (v v' : V) d :
  Dict.get k d = None ->
  Dict.set k v' (d ++ [(k, v)])%list = (d ++ [(k, v')])%list.
Proof.
  induction d as [|[k0 v0] d IH]; cbn.
  - now rewrite String.eqb_refl.
  - destruct (String.eqb k k0); [discriminate|]. intros H. now rewrite IH.
Qed.

Lemma get_last {V} k (v : V) d :
  Dict.get k d = None -> Dict.get k (d ++ [(k, v)])%list = Some v.
Proof.
  induction d as [|[k0 v0] d IH]; cbn.
  - now rewrite String.eqb_refl.
  - destruct (String.eqb k k0); [discriminate|]. exact IH.
Qed.

Lemma keys_set {V} k (v : V) d :
  Dict.keys (Dict.set k v d)
  = if Dict.mem k d then Dict.keys d else (Dict.keys d ++ [k])%list.
Proof.
  unfold Dict.mem, Dict.keys.
  induction d as [|[k' v'] d IH]; cbn; [reflexivity|].
  destruct (String.eqb k k') eqn:E; cbn; [reflexivity|].
  rewrite IH. now destruct (Dict.get k d).
Qed.

Lemma set_NoDup {V} k (v : V) d :
  NoDup (Dict.keys d) -> NoDup (Dict.keys (Dict.set k v d)).
Proof.
  intros H. rewrite keys_set. unfold Dict.mem.
  destruct (Dict.get k d) eqn:E; [exact H|].
  apply DictFacts.get_none_not_in in E.
  apply NoDup_app; [exact H|constructor; [intros []|constructor]|].
  intros x Hx [<-|[]]. contradiction.
Qed.

Lemma in_set {V} k (v : V) d k' v' :
  In (k', v') (Dict.set k v d) -> (k' = k /\ v' = v) \/ In (k', v') d.
Proof.
  induction d as [|[k0 v0] d IH]; cbn.
  - intros [[= <- <-]|[]]. now left.
  - destruct (String.eqb k k0) eqn:E; cbn.
    + apply String.eqb_eq in E. subst k0.
      intros [[= <- <-]|H]; [now left|right; now right].
    + intros [H|H]; [right; now left|].
      destruct (IH H) as [?|?]; [now left|right; now right].
Qed.

(** ** The parser of [git remote -v] (lines 131-140) *)

Lemma contains_wrapped c mode :
  c <> "("%char -> c <> ")"%char -> contains c mode = false ->
  contains c ("(" ++ mode ++ ")") = false.
Proof.
  intros Ho Hc Hm.
  change ("(" ++ mode ++ ")") with (String "(" (mode ++ String ")" EmptyString)).
  cbn [contains]. rewrite contains_app, Hm. cbn [contains orb].
  apply Ascii.eqb_neq in Ho, Hc.
  rewrite (Ascii.eqb_sym "("%char c), (Ascii.eqb_sym ")"%char c), Ho, Hc.
  reflexivity.
Qed.

Lemma parse_remote_v_line d remote mode url :
  contains PyStr.TAB url = false ->
  contains PyStr.TAB mode = false ->
  contains PyStr.SP mode = false ->
  PyStr.strip_chars ["("%char; ")"%char] mode = mode ->
  parse_remote_line d (remote_v_line remote mode url)
  = Dict.set remote
      (Dict.set mode url
         (match Dict.get remote d with Some m => m | None => Dict.empty end))
      d.
Proof.
  intros Hut Hmt Hms Hstrip. unfold parse_remote_line, remote_v_line.
  rewrite truthy_app_String. cbn [negb].
  rewrite rpartition_last.
  2:{ rewrite contains_app, Hut. cbn [orb].
      change (contains PyStr.TAB (" (" ++ mode ++ ")"))
        with (Ascii.eqb PyStr.SP PyStr.TAB
              || contains PyStr.TAB ("(" ++ mode ++ ")")).
      rewrite contains_wrapped by (assumption || discriminate).
      reflexivity. }
  change (url ++ " (" ++ mode ++ ")")
    with (url ++ String PyStr.SP ("(" ++ mode ++ ")")).
  rewrite rpartition_last
    by (apply contains_wrapped; assumption || discriminate).
  assert (Hs : PyStr.strip_chars ["("%char; ")"%char] ("(" ++ mode ++ ")")
               = mode).
  { unfold PyStr.strip_chars in *.
    change ("(" ++ mode ++ ")")
      with (String "(" (mode ++ String ")" EmptyString)).
    now apply strip_by_wrapped. }
  now rewrite Hs.
Qed.

(** X2: a line [remote<TAB>url (mode)] of [git remote -v], whose URL has
    no tab and whose mode has no tab, no space and no parenthesis at its
    ends, binds the mode to the URL under the remote: the other modes of
    the remote and the other remotes are kept, a new remote or mode goes
    last.  The remote name may hold any character, and the URL may hold
    spaces. *)
Theorem X2_a_line_binds_its_mode_under_its_remote
    (d : REMOTE_MODE_URL_TYPE) remote mode url :
  contains PyStr.TAB url = false ->
  contains PyStr.TAB mode = false ->
  contains PyStr.SP mode = false ->
  PyStr.strip_chars ["("%char; ")"%char] mode = mode ->
  let d' := parse_remote_line d (remote_v_line remote mode url) in
  (exists modes,
      Dict.get remote d' = Some modes
      /\ Dict.get mode modes = Some url
      /\ forall other, other <> mode ->
           Dict.get other modes
           = match Dict.get remote d with
             | Some old => Dict.get other old
             | None => None
             end)
  /\ (forall other, other <> remote -> Dict.get other d' = Dict.get other d)
  /\ Dict.keys d'
     = if Dict.mem remote d then Dict.keys d
       else (Dict.keys d ++ [remote])%list.
Proof.
  intros Hut Hmt Hms Hstrip d'. subst d'.
  rewrite parse_remote_v_line by assumption.
  split; [|split].
  - eexists. split; [apply DictFacts.get_set_same|].
    split; [apply DictFacts.get_set_same|].
    intros other Hne. rewrite DictFacts.get_set_other by congruence.
    now destruct (Dict.get remote d).
  - intros other Hne. apply DictFacts.get_set_other. congruence.
  - apply keys_set.
Qed.

Lemma split_line line rest :
  contains PyStr.LF line = false ->
  PyStr.split PyStr.LF (line ++ PyStr.nl ++ rest)
  = line :: PyStr.split PyStr.LF rest.
Proof.
  induction line as [|a line IH]; intros H.
  - cbn. reflexivity.
  - cbn [contains] in H. apply orb_false_elim in H. destruct H as [Ha Hl].
    cbn [append PyStr.split]. rewrite Ha. rewrite (IH Hl). reflexivity.
Qed.

Lemma split_remote_v_output lines :
  (forall line, In line lines -> contains PyStr.LF line = false) ->
  PyStr.split PyStr.LF
    (fold_right (fun line rest => line ++ PyStr.nl ++ rest) EmptyString lines)
  = (lines ++ [EmptyString])%list.
Proof.
  induction lines as [|line lines IH]; intros H; [reflexivity|].
  cbn [fold_right app]. rewrite split_line by (apply H; now left).
  rewrite IH; [reflexivity|]. intros l Hl. apply H. now right.
Qed.

Lemma contains_remote_v_line c remote mode url :
  c <> PyStr.TAB -> c <> PyStr.SP -> c <> "("%char -> c <> ")"%char ->
  contains c remote = false -> contains c url = false ->
  contains c mode = false ->
  contains c (remote_v_line remote mode url) = false.
Proof.
  intros Ht Hs Ho Hc Hr Hu Hm. unfold remote_v_line.
  rewrite contains_app, Hr. cbn [orb contains].
  apply Ascii.eqb_neq in Ht, Hs.
  rewrite (Ascii.eqb_sym PyStr.TAB c), Ht. cbn [orb].
  rewrite contains_app, Hu. cbn [orb].
  change (contains c (" (" ++ mode ++ ")"))
    with (Ascii.eqb PyStr.SP c || contains c ("(" ++ mode ++ ")")).
  rewrite (Ascii.eqb_sym PyStr.SP c), Hs. cbn [orb].
  now apply contains_wrapped.
Qed.

(** The lines of one remote, read after those of the remotes before it. *)
Lemma parse_lines_of_remote remote (acc : REMOTE_MODE_URL_TYPE) :
  Dict.get remote acc = None ->
  forall (rest done : MODE_URL_TYPE),
    done <> [] ->
    NoDup (Dict.keys (done ++ rest)%list) ->
    (forall mode url, In (mode, url) rest ->
                      printable_mode mode /\ printable_url url) ->
    fold_left parse_remote_line
      (map (fun mode_url => remote_v_line remote (fst mode_url) (snd mode_url))
           rest)
      (acc ++ [(remote, done)])%list
    = (acc ++ [(remote, (done ++ rest)%list)])%list.
Proof.
  intros Hacc. induction rest as [|[mode url] rest IH];
    intros done Hdone Hnd Hp.
  - now rewrite app_nil_r.
  - cbn [map fold_left fst snd].
    destruct (Hp mode url (or_introl eq_refl))
      as ((Hmt & _ & Hms & Hstrip) & (Hut & _)).
    rewrite parse_remote_v_line by assumption.
    rewrite get_last by assumption.
    assert (Hnew : Dict.get mode done = None).
    { apply DictFacts.get_none_not_in. intros Hin.
      unfold Dict.keys in Hnd. rewrite map_app in Hnd.
      apply NoDup_app_remove_r in Hnd as Hd.
      clear Hd. revert Hnd. cbn [map fst]. intros Hnd.
      apply NoDup_remove_2 in Hnd. apply Hnd.
      apply in_or_app. now left. }
    rewrite (@set_new _ mode url done Hnew), set_last by assumption.
    rewrite IH.
    + now rewrite <- app_assoc.
    + now destruct done.
    + now rewrite <- app_assoc.
    + intros m u H. apply Hp. now right.
Qed.

Lemma parse_remote_v_lines (d : REMOTE_MODE_URL_TYPE) :
  forall acc : REMOTE_MODE_URL_TYPE,
    NoDup (Dict.keys (acc ++ d)%list) ->
    (forall remote mode_url,
        In (remote, mode_url) d ->
        mode_url <> [] /\ NoDup (Dict.keys mode_url)
        /\ forall mode url, In (mode, url) mode_url ->
                            printable_mode mode /\ printable_url url) ->
    fold_left parse_remote_line (remote_v_lines d) acc = (acc ++ d)%list.
Proof.
  induction d as [|[remote mu] d IH]; intros acc Hnd Hp.
  - now rewrite app_nil_r.
  - unfold remote_v_lines. cbn [flat_map fst snd]. rewrite fold_left_app.
    destruct (Hp remote mu (or_introl eq_refl)) as (Hne & Hmu & Hmodes).
    assert (Hacc : Dict.get remote acc = None).
    { apply DictFacts.get_none_not_in. intros Hin.
      unfold Dict.keys in Hnd. rewrite map_app in Hnd. cbn [map fst] in Hnd.
      apply NoDup_remove_2 in Hnd. apply Hnd. apply in_or_app. now left. }
    destruct mu as [|[mode url] mu]; [contradiction|].
    cbn [map fold_left fst snd].
    destruct (Hmodes mode url (or_introl eq_refl))
      as ((Hmt & _ & Hms & Hstrip) & (Hut & _)).
    rewrite parse_remote_v_line by assumption.
    rewrite Hacc. cbn [Dict.set Dict.empty].
    rewrite (@set_new _ remote _ acc Hacc).
    rewrite (@parse_lines_of_remote remote acc Hacc mu [(mode, url)]);
      [|discriminate|exact Hmu|intros m u H; apply Hmodes; now right].
    cbn [app].
    fold (remote_v_lines d). rewrite IH.
    + now rewrite <- app_assoc.
    + now rewrite <- app_assoc.
    + intros r m H. apply (Hp r). now right.
Qed.

(** X3: the parser inverts the lines [remote<TAB>url (mode)], the format
    in which [git remote -v] prints the remotes that have no partial clone
    filter.  For every remote map with distinct remote names, each with at
    least one mode, with distinct modes that hold no tab, newline or space
    and no parenthesis at the ends, with URLs that hold no tab or newline,
    and with no carriage return anywhere (it would be read as a newline),
    parsing the text of these lines gives the map back, remotes and modes
    in the order printed. *)
Theorem X3_parsing_inverts_the_output_of_git_remote_v
    (d : REMOTE_MODE_URL_TYPE) :
  printable_remotes d -> parse_remotes (remote_v_output d) = d.
Proof.
  intros (Hnd & Hp & _). unfold parse_remotes, remote_v_output.
  rewrite split_remote_v_output.
  - rewrite fold_left_app. cbn [fold_left]. unfold Dict.empty.
    rewrite (parse_remote_v_lines d []); [reflexivity|exact Hnd|].
    intros remote mu H. destruct (Hp remote mu H) as (_ & Hne & Hmu & Hm).
    auto.
  - intros line Hl. unfold remote_v_lines in Hl.
    apply in_flat_map in Hl. destruct Hl as ([remote mu] & Hin & Hl).
    apply in_map_iff in Hl. destruct Hl as ([mode url] & <- & Hmode).
    cbn [fst snd] in *.
    destruct (Hp remote mu Hin) as (Hr & _ & _ & Hm).
    destruct (Hm mode url Hmode) as ((_ & Hml & _ & _) & (_ & Hul)).
    apply contains_remote_v_line; auto; discriminate.
Qed.

Lemma get_in_items {V} k (v : V) d : Dict.get k d = Some v -> In (k, v) d.
Proof.
  induction d as [|[k' v'] d IH]; cbn; [discriminate|].
  destruct (String.eqb k k') eqn:E.
  - apply String.eqb_eq in E. intros [= ->]. left. congruence.
  - auto.
Qed.

Lemma set_not_nil {V} k (v : V) d : Dict.set k v d <> [].
Proof.
  destruct d as [|[k0 v0] d]; cbn; [discriminate|].
  destruct (String.eqb k k0); discriminate.
Qed.

Lemma parse_remote_line_wf (d : REMOTE_MODE_URL_TYPE) line :
  wf_remotes d /\ (forall remote mu, In (remote, mu) d -> mu <> []) ->
  wf_remotes (parse_remote_line d line)
  /\ (forall remote mu, In (remote, mu) (parse_remote_line d line) -> mu <> []).
Proof.
  intros ((Hnd & Hin) & Hne). unfold parse_remote_line.
  destruct (negb (PyStr.truthy line)); [repeat split; assumption|].
  destruct (PyStr.rpartition PyStr.TAB line) as [remote url_mode].
  destruct (PyStr.rpartition PyStr.SP url_mode) as [url mode].
  split; [split|].
  - now apply set_NoDup.
  - intros r mu H. apply in_set in H. destruct H as [[_ ->]|H].
    + apply set_NoDup.
      destruct (Dict.get remote d) as [old|] eqn:E; [|constructor].
      apply (Hin remote). now apply get_in_items.
    + now apply (Hin r).
  - intros r mu H. apply in_set in H. destruct H as [[_ ->]|H].
    + apply set_not_nil.
    + now apply (Hne r).
Qed.

Lemma parse_lines_wf lines : forall d : REMOTE_MODE_URL_TYPE,
  wf_remotes d /\ (forall remote mu, In (remote, mu) d -> mu <> []) ->
  wf_remotes (fold_left parse_remote_line lines d)
  /\ (forall remote mu,
         In (remote, mu) (fold_left parse_remote_line lines d) -> mu <> []).
Proof.
  induction lines as [|line lines IH]; intros d Hd; [exact Hd|].
  cbn [fold_left]. apply IH. now apply parse_remote_line_wf.
Qed.

Lemma parsed_remotes_wf stdout : wf_remotes (parse_remotes stdout).
Proof.
  apply parse_lines_wf.
  split; [split; [constructor|intros r m []]|intros r m []].
Qed.

(** X4: whatever git prints, the remote map that the parser builds has
    distinct remote names, distinct modes under each remote, and no remote
    without a mode. *)
Theorem X4_parsed_remotes_are_well_formed stdout :
  wf_remotes (parse_remotes stdout)
  /\ forall remote mode_url,
       In (remote, mode_url) (parse_remotes stdout) -> mode_url <> [].
Proof.
  unfold parse_remotes. apply parse_lines_wf.
  split; [split; [constructor|intros r m []]|intros r m []].
Qed.

(** X2 for the fetch line of [origin], with a URL that holds a space. *)
Lemma X2_witness :
  contains PyStr.TAB "https://example.org/my repo.git" = false
  /\ contains PyStr.TAB "fetch" = false
  /\ contains PyStr.SP "fetch" = false
  /\ PyStr.strip_chars ["("%char; ")"%char] "fetch" = "fetch"
  /\ exists modes,
       Dict.get "origin"
         (parse_remote_line []
            (remote_v_line "origin" "fetch" "https://example.org/my repo.git"))
       = Some modes
       /\ Dict.get "fetch" modes = Some "https://example.org/my repo.git".
Proof.
  repeat (split; [reflexivity|]).
  destruct (@X2_a_line_binds_its_mode_under_its_remote
              [] "origin" "fetch" "https://example.org/my repo.git"
              eq_refl eq_refl eq_refl eq_refl)
    as ((modes & Hg & Hm & _) & _).
  exists modes. split; [exact Hg|exact Hm].
Defined.

(** X3 for [origin] with a fetch and a push URL. *)
Lemma X3_witness :
  let d := [("origin", [("fetch", "https://example.org/a.git");
                        ("push", "git@example.org:a.git")])] in
  printable_remotes d /\ parse_remotes (remote_v_output d) = d.
Proof.
  intros d.
  assert (Hp : printable_remotes d).
  { split; [|split].
    - repeat constructor. intros [].
    - intros remote mu [[= <- <-]|[]].
      split; [reflexivity|]. split; [discriminate|]. split.
      + repeat constructor; cbn; intuition discriminate.
      + intros mode url [[= <- <-]|[[= <- <-]|[]]];
          repeat split; reflexivity.
    - intros remote mu [[= <- <-]|[]]. split; [reflexivity|].
      intros mode url [[= <- <-]|[[= <- <-]|[]]]; split; reflexivity. }
  split; [exact Hp|].
  exact (@X3_parsing_inverts_the_output_of_git_remote_v d Hp).
Defined.

(** ** The queries that build [observed] *)

Lemma wf_topology_set (t : Topology) project q :
  wf_topology t -> wf_queried q -> wf_topology (Dict.set project q t).
Proof.
  intros (Hnd & Hin) Hq. split; [now apply set_NoDup|].
  intros p x H. apply in_set in H. destruct H as [[_ ->]|H]; [exact Hq|].
  now apply (Hin p).
Qed.

Lemma keys_set_in {V} k (v : V) d p :
  In p (Dict.keys (Dict.set k v d)) <-> In p (Dict.keys d) \/ p = k.
Proof.
  rewrite keys_set. destruct (Dict.mem k d) eqn:E.
  - split; [tauto|]. intros [H| ->]; [exact H|].
    apply DictFacts.in_keys_get. unfold Dict.mem in E.
    destruct (Dict.get k d); [discriminate|discriminate].
  - rewrite in_app_iff. cbn. intuition.
Qed.

Section Observe.
Variable w : World.
Variable args : Args.

Lemma observe_cons project rest (s : Topology) tr :
  let argv := query_command args project in
  let r := subprocess w tr argv in
  observe w args (project :: rest) s tr
  = match spawn_failure w tr argv with
    | Some failure =>
        (Raised (raised_by failure), s, (tr ++ [Aborted argv failure])%list)
    | None =>
        observe w args rest
          (Dict.set project
             (if Z.eqb (returncode r) 0
              then Remotes (parse_remotes (stdout r))
              else QueryFailed {| cmd := argv; output := r |}) s)
          (tr ++ [Run argv r])%list
    end.
Proof.
  cbn [observe]. unfold _remote_mode_url, spawn, query_command.
  unfold bind. cbn beta. destruct (spawn_failure w tr _); [reflexivity|].
  unfold run, set_item. cbn. destruct (Z.eqb _ 0); reflexivity.
Qed.

Lemma observe_spec names : forall (s : Topology) tr,
  exists s' new,
    (observe w args names s tr = (Normal tt, s', (tr ++ new)%list)
     /\ commands new = map (query_command args) names
     /\ length new = length names
     /\ (forall p, In p (Dict.keys s') <-> In p (Dict.keys s) \/ In p names)
     /\ (forall p, ~ In p names -> Dict.get p s' = Dict.get p s)
     /\ (forall p, In p names ->
           exists q, Dict.get p s' = Some q /\ answered args p q new)
     /\ (wf_topology s -> wf_topology s'))
    \/ (exists failure,
           observe w args names s tr
           = (Raised (raised_by failure), s', (tr ++ new)%list)
           /\ stopped_at w args names tr new failure).
Proof.
  induction names as [|project rest IH]; intros s tr.
  - exists s, []. left. cbn [observe]. unfold ret. rewrite app_nil_r.
    split; [reflexivity|]. split; [reflexivity|]. split; [reflexivity|].
    split; [intros p; cbn; tauto|]. split; [reflexivity|].
    split; [intros p []|auto].
  - rewrite observe_cons. cbv zeta.
    set (argv := query_command args project).
    destruct (spawn_failure w tr argv) as [failure|] eqn:Ef.
    { exists s, [Aborted argv failure]. right. exists failure.
      split; [reflexivity|]. exists [], project, rest, [].
      rewrite app_nil_r. repeat split. exact Ef. }
    set (r := subprocess w tr argv).
    set (q := if Z.eqb (returncode r) 0 then Remotes (parse_remotes (stdout r))
              else QueryFailed {| cmd := argv; output := r |}).
    destruct (IH (Dict.set project q s) (tr ++ [Run argv r])%list)
      as (s' & new & [(E & Hc & Hl & Hk & Hf & Ha & Hwf)
                     |(failure & E & done & p & rest' & queries
                       & -> & -> & Hc & Hl & Hsf)]).
    2:{ exists s', (Run argv r :: queries
                    ++ [Aborted (query_command args p) failure])%list.
        right. exists failure. rewrite E, <- app_assoc.
        split; [reflexivity|].
        exists (project :: done), p, rest', (Run argv r :: queries).
        split; [reflexivity|]. split; [reflexivity|].
        split; [cbn [commands flat_map app map]; fold (commands queries);
                now rewrite Hc|].
        split; [cbn [length]; now rewrite Hl|].
        rewrite <- app_assoc in Hsf. exact Hsf. }
    exists s', (Run argv r :: new). left. rewrite E.
    assert (Hq : answered args project q [Run argv r]).
    { unfold q. destruct (Z.eqb (returncode r) 0) eqn:Ez; cbn.
      - exists r. repeat split; [now left|now apply Z.eqb_eq].
      - repeat split; [now left|now apply Z.eqb_neq]. }
    assert (Hmono : forall p x l l', answered args p x l ->
                                     answered args p x (l ++ l')%list).
    { intros p [d|exc] l l'; cbn.
      - intros (r0 & Hin & H0 & Hd). exists r0. repeat split; auto.
        apply in_or_app. now left.
      - intros (Hin & H1 & H2). repeat split; auto. apply in_or_app. now left. }
    split; [now rewrite <- app_assoc|].
    split; [cbn [commands flat_map app map]; fold (commands new);
            now rewrite Hc|].
    split; [cbn [length]; now rewrite Hl|].
    split; [|split; [|split]].
    + intros p. rewrite Hk, keys_set_in. cbn [In].
      split; [intros [[H|H]|H]|intros [H|[H|H]]]; subst; auto.
    + intros p Hp. cbn in Hp. rewrite Hf by tauto.
      apply DictFacts.get_set_other. intros ->. tauto.
    + intros p Hp. destruct (in_dec string_dec p rest) as [Hin|Hout].
      * destruct (Ha p Hin) as (x & Hx & Hax). exists x. split; [exact Hx|].
        change (Run argv r :: new) with ([Run argv r] ++ new)%list.
        destruct x as [d|exc]; cbn in *.
        -- destruct Hax as (r0 & Hi & H0 & Hd). exists r0. repeat split; auto.
        -- destruct Hax as (Hi & H1 & H2). repeat split; auto.
      * destruct Hp as [<-|Hp]; [|tauto].
        exists q. rewrite (Hf project Hout), DictFacts.get_set_same.
        split; [reflexivity|].
        change (Run argv r :: new) with ([Run argv r] ++ new)%list.
        now apply Hmono.
    + intros Hs. apply Hwf. apply wf_topology_set; [exact Hs|].
      unfold q. destruct (Z.eqb _ 0); cbn; [|exact I].
      apply parsed_remotes_wf.
Qed.

(** X5: the dict comprehension of lines 168-173 queries the listed names
    in the order of the listing and does nothing else.  When every query
    has a result it returns, after one query per name, and [observed]
    binds exactly the listed names, each to what its own query answered:
    the parsed remote map when git returned 0, the failure with its
    command line and status otherwise.  When git cannot be started for a
    query, when [--git-encoding] does not name an encoding, or when the
    output of the query is not text in the encoding, the comprehension is
    left at that name by the [OSError], the [LookupError] or the
    [UnicodeDecodeError]: the names before it were queried, the names
    after it are not. *)
Theorem X5_the_listed_names_are_queried_in_order_and_bound names tr :
  let run := observe w args names Dict.empty tr in
  exists new,
    trace_of run = (tr ++ new)%list
    /\ match result_of run with
       | Normal _ =>
           commands new = map (query_command args) names
           /\ length new = length names
           /\ (forall project,
                  In project (Dict.keys (store_of run)) <-> In project names)
           /\ (forall project, In project names ->
                 exists q, Dict.get project (store_of run) = Some q
                           /\ answered args project q new)
           /\ wf_topology (store_of run)
       | Raised e =>
           exists failure,
             e = raised_by failure /\ stopped_at w args names tr new failure
       end.
Proof.
  intros run. unfold run.
  destruct (observe_spec names Dict.empty tr)
    as (s' & new & [(E & Hc & Hl & Hk & _ & Ha & Hwf)|(failure & E & Hstop)]);
    rewrite E; exists new; (split; [reflexivity|]); cbn.
  - repeat split; auto.
    + intros H. apply Hk in H. destruct H as [[]|H]; exact H.
    + intros H. apply Hk. now right.
    + apply Hwf. split; [constructor|intros p q []].
    + apply Hwf. split; [constructor|intros p q []].
  - exists failure. split; [reflexivity|exact Hstop].
Qed.

End Observe.

(** X5 where git answers for [p1] and cannot be started for [p2]: [p3] is
    not queried. *)
Lemma X5_witness :
  let w :=
    {| listdir := fun _ => inr ["p1"; "p2"; "p3"];
       subprocess := fun _ _ => Fixtures.done;
       spawn_failure := fun _ argv =>
         match argv with
         | [_; _; "/srv/p2"; _; _] =>
             Some (CannotStart "[Errno 2] No such file or directory: 'git'")
         | _ => None
         end;
       read_spec := fun _ => SpecDocument [];
       exists_ := fun _ => false;
       open_error := fun _ => None;
       file_exists_error := fun _ => EmptyString;
       write_error := fun _ => None |} in
  let args := Fixtures.flags false false false in
  let run := observe w args ["p1"; "p2"; "p3"] [] [] in
  result_of run = Raised (OSError "[Errno 2] No such file or directory: 'git'")
  /\ exists new failure,
       trace_of run = new
       /\ stopped_at w args ["p1"; "p2"; "p3"] [] new failure
       /\ commands new = [["git"; "-C"; "/srv/p1"; "remote"; "-v"]].
Proof.
  intros w args run.
  split; [reflexivity|].
  pose proof (X5_the_listed_names_are_queried_in_order_and_bound
                w args ["p1"; "p2"; "p3"] []) as H.
  cbv zeta in H. destruct H as (new & Et & H).
  assert (E : observe w args ["p1"; "p2"; "p3"] Dict.empty [] = run)
    by reflexivity.
  rewrite E in Et, H.
  assert (Er : result_of run
               = Raised (OSError "[Errno 2] No such file or directory: 'git'"))
    by reflexivity.
  rewrite Er in H. destruct H as (failure & _ & Hstop).
  cbn [app] in Et. exists new, failure.
  split; [exact Et|]. split; [exact Hstop|].
  rewrite <- Et. reflexivity.
Defined.

(** ** How the loop over the projects and [main] end *)

Section Triples.
Context {S : Type}.
Variable E : Exception -> list Event -> Prop.

Lemma triple_ret {A} (Pre : S -> Prop) (Post : A -> S -> Prop) a :
  (forall s, Pre s -> Post a s) -> triple Pre (ret a) Post E.
Proof. intros H s tr Hs. cbn. auto. Qed.

Lemma triple_emit (Pre : S -> Prop) (Post : unit -> S -> Prop) ev :
  (forall s, Pre s -> Post tt s) -> triple Pre (emit ev) Post E.
Proof. intros H s tr Hs. cbn. auto. Qed.

Lemma triple_load (Pre : S -> Prop) (Post : S -> S -> Prop) :
  (forall s, Pre s -> Post s s) -> triple Pre load Post E.
Proof. intros H s tr Hs. cbn. auto. Qed.


Lemma triple_parser_error {A} (Pre : S -> Prop) (Post : A -> S -> Prop)
    message :
  (forall tr, E (SystemExit 2) (tr ++ [Usage message])%list) ->
  triple Pre (parser_error message) Post E.
Proof. intros H s tr Hs. cbn. auto. Qed.

Lemma triple_bind {A B} (Pre : S -> Prop) (Mid : A -> S -> Prop)
    (Post : B -> S -> Prop) (m : M S A) (k : A -> M S B) :
  triple Pre m Mid E -> (forall a, triple (Mid a) (k a) Post E) ->
  triple Pre (bind m k) Post E.
Proof.
  intros Hm Hk s tr Hs. unfold bind. specialize (Hm s tr Hs).
  destruct (m s tr) as [[[a|e] s'] tr']; [|exact Hm].
  now apply Hk.
Qed.

Lemma triple_for_each {A} (Inv : S -> Prop) (body : A -> M S unit) l :
  (forall x, triple Inv (body x) (fun _ => Inv) E) ->
  triple Inv (for_each body l) (fun _ => Inv) E.
Proof.
  intros Hb. induction l as [|x l IH]; cbn [for_each].
  - now apply triple_ret.
  - eapply triple_bind; [apply Hb|intros u; exact IH].
Qed.

Lemma triple_consequence {A} (Pre Pre' : S -> Prop)
    (Post Post' : A -> S -> Prop) (m : M S A) :
  (forall s, Pre' s -> Pre s) -> (forall a s, Post a s -> Post' a s) ->
  triple Pre m Post E -> triple Pre' m Post' E.
Proof.
  intros H1 H2 Hm s tr Hs. specialize (Hm s tr (H1 s Hs)).
  destruct (m s tr) as [[[a|e] s'] tr']; auto.
Qed.

Lemma safe_anywhere {A} (Pre : S -> Prop) (m : M S A) :
  safe E m -> triple Pre m (fun _ _ => True) E.
Proof. apply triple_consequence; auto. Qed.

Lemma safe_bind {A B} (m : M S A) (k : A -> M S B) :
  safe E m -> (forall a, safe E (k a)) -> safe E (bind m k).
Proof. intros Hm Hk. eapply triple_bind; [exact Hm|exact Hk]. Qed.

Lemma safe_for_each {A} (body : A -> M S unit) l :
  (forall x, safe E (body x)) -> safe E (for_each body l).
Proof.
  intros Hb. exact (@triple_for_each A (fun _ => True) body l Hb).
Qed.

End Triples.


Lemma triple_zoom {S T A} E (Pre : S -> Prop) (PreT : T -> Prop)
    (PostT : A -> T -> Prop) (Post : A -> S -> Prop) line
    (g : S -> option T) put (m : M T A) :
  (forall s, Pre s -> exists t, g s = Some t /\ PreT t) ->
  triple PreT m PostT E ->
  (forall s a t', Pre s -> PostT a t' -> Post a (put t' s)) ->
  triple Pre (zoom line g put m) Post E.
Proof.
  intros Hg Hm Hput s tr Hs. unfold zoom.
  destruct (Hg s Hs) as (t & -> & Ht). specialize (Hm t tr Ht).
  destruct (m t tr) as [[[a|e] t'] tr']; [|exact Hm].
  now apply Hput.
Qed.

Lemma triple_set_item {V} E (Pre : Dict.t V -> Prop)
    (Post : unit -> Dict.t V -> Prop) k v :
  (forall d, Pre d -> Post tt (Dict.set k v d)) ->
  triple Pre (set_item k v) Post E.
Proof. intros H d tr Hd. cbn. auto. Qed.

Section TriplesOfCommands.
Variable w : World.
Context {S : Type}.
Variable E : Exception -> list Event -> Prop.

Lemma triple_run (Pre : S -> Prop) (Post : CompletedProcess -> S -> Prop)
    argv :
  (forall r s, Pre s -> Post r s) -> triple Pre (run w argv) Post E.
Proof. intros H s tr Hs. cbn. auto. Qed.

Lemma triple_run_checked (Pre : S -> Prop)
    (Post : CompletedProcess -> S -> Prop) argv :
  (forall r s, Pre s -> returncode r = 0%Z -> Post r s) ->
  (forall r tr,
      returncode r <> 0%Z ->
      E (ProcessError {| cmd := argv; output := r |})
        (tr ++ [Run argv r])%list) ->
  triple Pre (run_checked w argv) Post E.
Proof.
  intros H1 H2 s tr Hs. unfold run_checked, bind, run, check.
  destruct (Z.eqb (returncode (subprocess w tr argv)) 0) eqn:Ez; cbn.
  - apply H1; [exact Hs|now apply Z.eqb_eq].
  - apply H2. now apply Z.eqb_neq.
Qed.

End TriplesOfCommands.

Lemma ends_the_loop_checked args argv r tr :
  checked_command argv = true -> returncode r <> 0%Z ->
  ends_the_loop args (ProcessError {| cmd := argv; output := r |})
    (tr ++ [Run argv r])%list.
Proof. intros H1 H2. cbn. repeat split; auto. now exists tr. Qed.

Ltac safe_step :=
  first
    [ apply triple_ret; intros; exact I
    | apply triple_emit; intros; exact I
    | apply triple_load; intros; exact I
    | apply triple_set_item; intros; exact I
    | apply triple_run; intros; exact I
    | apply triple_run_checked;
      [intros; exact I
      |intros; apply ends_the_loop_checked; [reflexivity|assumption]]
    | apply safe_bind; [|intros ?]
    | apply safe_for_each; intros ?
    | match goal with
      | |- safe _ (if ?b then _ else _) => destruct b
      | |- safe _ (match ?x with _ => _ end) => destruct x
      | |- triple _ (if ?b then _ else _) _ _ => destruct b
      end ].

Section ProgramEnds.
Variable w : World.
Variable args : Args.
Variable path : string.

Lemma safe_sync_mode remote_prefix remote e mode :
  safe (ends_the_loop args)
    (sync_mode w args ["git"; "-C"; path] remote_prefix remote e mode).
Proof. unfold safe, sync_mode, LOG. repeat safe_step. Qed.

Lemma safe_post_checks {S} prefix :
  safe (ends_the_loop args)
    (@post_checks w args S ["git"; "-C"; path] prefix).
Proof. unfold safe, post_checks, LOG. repeat safe_step. Qed.

(** The assertion of line 308 holds: the remote is among the observed ones
    when its modes are compared. *)
Lemma safe_sync_remote prefix e remote :
  safe (ends_the_loop args)
    (sync_remote w args ["git"; "-C"; path] prefix e remote).
Proof.
  unfold safe, sync_remote, LOG.
  apply triple_bind with (Mid := fun o s => o = s);
    [apply triple_load; auto|intros o].
  destruct (Dict.get remote e) as [[|kv em]|];
    [apply triple_emit; auto| |apply triple_emit; auto].
  destruct (opt_eqb _ _ _); [apply triple_ret; auto|].
  apply triple_bind with (Mid := fun _ s => o = s);
    [apply triple_emit; auto|intros _].
  apply triple_bind
    with (Mid := fun present s => present = true -> Dict.mem remote s = true).
  - destruct (negb (Dict.mem remote o)) eqn:Em.
    + unfold add_remote, LOG.
      destruct (negb (set_urls args)).
      * apply triple_bind with (Mid := fun _ _ => True);
          [apply triple_emit; intros; exact I|intros ?].
        apply triple_ret. discriminate.
      * apply triple_bind with (Mid := fun _ _ => True);
          [apply triple_emit; intros; exact I|intros ?].
        cbn [Dict.values map].
        apply triple_bind with (Mid := fun _ _ => True);
          [apply triple_run_checked;
           [intros; exact I
           |intros; apply ends_the_loop_checked; [reflexivity|assumption]]
          |intros ?].
        apply triple_bind
          with (Mid := fun _ s => Dict.mem remote s = true).
        -- apply triple_set_item. intros d _. unfold Dict.mem.
           now rewrite DictFacts.get_set_same.
        -- intros _. apply triple_ret. auto.
    + apply triple_ret. intros s <- _.
      now destruct (Dict.mem remote o).
  - intros [|]; [|apply triple_ret; auto].
    apply triple_bind
      with (Mid := fun _ s => Dict.mem remote s = true);
      [apply triple_emit; auto|intros _].
    apply triple_zoom
      with (PreT := fun _ : MODE_URL_TYPE => True) (PostT := fun _ _ => True).
    + intros s Hs. unfold Dict.mem in Hs.
      destruct (Dict.get remote s) as [t|]; [|discriminate].
      now exists t.
    + apply safe_bind; [apply triple_load; auto|intros om].
      apply safe_for_each. intros mode. apply safe_sync_mode.
    + auto.
Qed.

(** After a successful clone the project is bound to a remote map. *)
Lemma triple_clone_from project prefix cands :
  triple (fun _ : Topology => True)
    (clone_from w project path prefix cands)
    (fun present s =>
       present = true -> exists r, remotes_of project s = Some r)
    (ends_the_loop args).
Proof.
  induction cands as [|[remote url] rest IH]; cbn [clone_from]; unfold LOG.
  - apply triple_bind with (Mid := fun _ _ => True);
      [apply triple_emit; auto|intros ?].
    apply triple_ret. discriminate.
  - apply triple_bind with (Mid := fun _ _ => True);
      [apply triple_run; auto|intros r].
    destruct (negb _).
    + apply triple_bind with (Mid := fun _ _ => True);
        [apply triple_emit; auto|intros ?]. exact IH.
    + apply triple_bind with (Mid := fun _ _ => True);
        [apply triple_emit; auto|intros ?].
      apply triple_bind
        with (Mid := fun _ s => exists r, remotes_of project s = Some r).
      * apply triple_set_item. intros d _. unfold remotes_of.
        rewrite DictFacts.get_set_same. eauto.
      * intros ?. apply triple_ret. auto.
Qed.

(** The assertion of line 262 holds: once a clone exists, the project is
    bound to a remote map, provided its query had not failed. *)
Lemma triple_sync_project project prefix e :
  triple
    (fun s : Topology =>
       forall exc, Dict.get project s <> Some (QueryFailed exc))
    (sync_project w args project path prefix e)
    (fun _ _ => True) (ends_the_loop args).
Proof.
  unfold sync_project, LOG.
  set (Pre := fun s : Topology =>
                forall exc, Dict.get project s <> Some (QueryFailed exc)).
  apply triple_bind with (Mid := fun _ => Pre);
    [apply triple_emit; auto|intros ?].
  apply triple_bind with (Mid := fun o s => o = s /\ Pre s);
    [apply triple_load; auto|intros o].
  apply triple_bind
    with (Mid := fun present s =>
                   present = true -> exists r, remotes_of project s = Some r).
  - destruct (negb (Dict.mem project o)) eqn:Em.
    + unfold clone_project, LOG. destruct (negb (clone args)).
      * apply triple_bind with (Mid := fun _ _ => True);
          [apply triple_emit; auto|intros ?].
        apply triple_ret. discriminate.
      * apply triple_bind with (Mid := fun _ _ => True);
          [apply triple_emit; auto|intros ?].
        apply triple_clone_from.
    + apply triple_ret. intros s (<- & Hs) _. unfold remotes_of.
      unfold Dict.mem in Em.
      destruct (Dict.get project o) as [[r|exc]|] eqn:Eo.
      * eauto.
      * now destruct (Hs exc).
      * discriminate.
  - intros [|]; [|apply triple_ret; auto].
    apply triple_bind
      with (Mid := fun _ s => exists r, remotes_of project s = Some r);
      [apply triple_emit; auto|intros ?].
    apply triple_bind with (Mid := fun _ _ => True);
      [|intros ?; apply triple_ret; auto].
    apply triple_zoom
      with (PreT := fun _ : REMOTE_MODE_URL_TYPE => True)
           (PostT := fun _ _ => True).
    + intros s (r & Hr). exists r. auto.
    + apply safe_bind; [apply triple_load; auto|intros om].
      apply safe_for_each. intros remote. apply safe_sync_remote.
    + auto.
Qed.

End ProgramEnds.

Section LoopEnds.
Variable w : World.
Variable args : Args.

(** The assertion of line 214 holds as well. *)
Lemma safe_process_project document project :
  safe (ends_the_loop args) (process_project w args document project).
Proof.
  unfold safe, process_project, LOG.
  destruct (re_search args) as [message|search] eqn:Ere.
  - apply triple_parser_error. intros tr. cbn.
    split; [reflexivity|]. split; [rewrite Ere; eauto|eauto].
  - destruct (negb (search project)); [apply triple_emit; auto|].
    apply triple_bind with (Mid := fun _ _ => True);
      [apply triple_emit; auto|intros ?].
    apply triple_bind with (Mid := fun o s => o = s);
      [apply triple_load; auto|intros o].
    assert (Hpc : forall Pre : Topology -> Prop,
               triple Pre
                 (post_checks w args
                    ["git"; "-C"; os_path_join (projects args) project]
                    ("[" ++ project ++ "]"))
                 (fun _ _ => True) (ends_the_loop args)).
    { intros Pre. apply safe_anywhere, safe_post_checks. }
    assert (Hsync : forall ex,
               (forall exc, Dict.get project o <> Some (QueryFailed exc)) ->
               triple (fun s => o = s)
                 (checks <-
                    (if opt_eqb queried_eqb (Some (Remotes ex))
                          (Dict.get project o)
                     then ret true
                     else sync_project w args project
                            (os_path_join (projects args) project)
                            ("[" ++ project ++ "]") ex) ;;
                  if checks
                  then post_checks w args
                         ["git"; "-C"; os_path_join (projects args) project]
                         ("[" ++ project ++ "]")
                  else ret tt)
                 (fun _ _ => True) (ends_the_loop args)).
    { intros ex Ho.
      apply triple_bind with (Mid := fun _ _ => True).
      - destruct (opt_eqb _ _ _); [apply triple_ret; auto|].
        eapply triple_consequence; [| |apply triple_sync_project].
        + intros s <-. exact Ho.
        + auto.
      - intros [|]; [apply Hpc|apply triple_ret; auto]. }
    destruct (Dict.get project o) as [[r|exc]|] eqn:Eo.
    + destruct (Dict.get project (expected_of document o))
        as [[ex|exc']|] eqn:Ee.
      * apply Hsync. intros exc. discriminate.
      * apply expected_query_failed in Ee. destruct Ee as (_ & Ee).
        rewrite Eo in Ee. discriminate.
      * apply triple_bind with (Mid := fun _ _ => True);
          [apply triple_emit; auto|intros ?]. apply Hpc.
    + apply triple_emit. auto.
    + destruct (Dict.get project (expected_of document o))
        as [[ex|exc']|] eqn:Ee.
      * apply Hsync. intros exc. discriminate.
      * apply expected_query_failed in Ee. destruct Ee as (_ & Ee).
        rewrite Eo in Ee. discriminate.
      * apply triple_bind with (Mid := fun _ _ => True);
          [apply triple_emit; auto|intros ?]. apply Hpc.
Qed.

Lemma safe_check_every_project document :
  safe (ends_the_loop args) (check_every_project w args document).
Proof.
  unfold check_every_project, process_projects.
  apply safe_bind; [apply triple_load; auto|intros o].
  apply safe_for_each. intros project. apply safe_process_project.
Qed.

(** X6: for a specification of the documented shape (a JSON object of
    projects, each an object of remotes, each an object of the URLs by
    mode), and as long as the git commands of the loop start and write
    text, the loop over the projects ends early in two ways only.  Either
    the pattern is not a regular expression, and the run exits with status
    2 after the usage message; or one of the commands whose status is
    checked outside a [try] ([git remote add], [git remote set-url],
    [git stash list], [git ls-files]) returned a non-zero status, and the
    [CalledProcessError] leaves the loop right after that command.  In
    particular the assertions of lines 214, 262 and 308 hold.  (The
    assertion of line 221 holds by the shape of the specification: it
    fails for a project that the document binds to [null].  A git command
    that cannot be started, or whose output is not text in the encoding,
    raises from any of the calls of the loop; neither is followed here.) *)
Theorem X6_the_loop_ends_early_on_a_bad_pattern_or_a_checked_command
    document (observed : Topology) tr e :
  let run := check_every_project w args document observed tr in
  result_of run = Raised e ->
  ends_the_loop args e (trace_of run).
Proof.
  intros run H.
  pose proof (@safe_check_every_project document) as Hs.
  specialize (Hs observed tr I). fold run in Hs. destruct run as [[[a|e'] s'] tr']; [discriminate|].
  cbn in H. injection H as <-. exact Hs.
Qed.

End LoopEnds.



Section MainEnds.
Variable w : World.
Variable args : Args.





End MainEnds.


(** X6 where [git remote add] fails for the first of two remotes. *)
Lemma X6_witness :
  let w := Fixtures.world Fixtures.add_fails in
  let args := Fixtures.flags false false true in
  let document :=
    Some [("p", [("a", [("fetch", "u1")]); ("b", [("fetch", "u2")])])] in
  let exc :=
    {| cmd := ["git"; "-C"; "/srv/p"; "remote"; "add"; "a"; "u1"];
       output := Fixtures.failed "fatal: cannot add" |} in
  let run := check_every_project w args document [("p", Remotes [])] [] in
  result_of run = Raised (ProcessError exc)
  /\ ends_the_loop args (ProcessError exc) (trace_of run).
Proof.
  intros w args document exc run. split; [reflexivity|].
  apply (@X6_the_loop_ends_early_on_a_bad_pattern_or_a_checked_command
           w args document [("p", Remotes [])] [] (ProcessError exc)).
  reflexivity.
Defined.

(** ** Usage errors and the pattern *)

Lemma query_command_apply_sync args project :
  query_command (apply_sync args) project = query_command args project.
Proof. unfold apply_sync. now destruct (sync args). Qed.

(** When every query of the listed names has a result, the queries
    return. *)
Lemma observe_returns w args names tr :
  (forall project queries,
      In project names ->
      spawn_failure w queries (query_command args project) = None) ->
  exists observed queries,
    observe w args names Dict.empty tr
    = (Normal tt, observed, (tr ++ queries)%list)
    /\ commands queries = map (query_command args) names
    /\ length queries = length names.
Proof.
  intros Hq.
  destruct (observe_spec w args names Dict.empty tr)
    as (s' & new & [(E & Hc & Hl & _)
                   |(failure & _ & done & project & rest & queries
                     & -> & _ & _ & _ & Hsf)]).
  - now exists s', new.
  - rewrite Hq in Hsf; [discriminate|].
    apply in_or_app. right. now left.
Qed.

(** X8: what ends [main] before the loop over the projects.  When the
    projects directory cannot be listed, [main] exits with status 2 after
    the usage message and has run no command.  When git cannot be started
    for the query of a listed name, [main] exits with status 2 as well,
    with the message of a directory that cannot be listed, after the
    queries of the names before that one; when [--git-encoding] does not
    name an encoding, or when the output of a query is not text in the
    encoding, [main] is left by the [LookupError] or the
    [UnicodeDecodeError] of that query.
    When every query has a result and the file of [--spec] cannot be
    opened or does not hold JSON, [main] exits with status 2 after it has
    queried every listed name: these queries, the debug record and the
    usage message are all that the run leaves.  When that file is not text
    in the encoding, [main] is left by the [UnicodeDecodeError] at the
    same point, without a usage message. *)
Theorem X8_what_ends_main_before_the_loop w args :
  (forall exc,
      listdir w (projects args) = inl exc ->
      main w args
      = (Raised (SystemExit 2), Dict.empty,
         [Usage ("--projects: can't list '" ++ projects args ++ "': " ++ exc)]))
  /\ (forall names failure,
         listdir w (projects args) = inr names ->
         result_of (observe w (apply_sync args) names Dict.empty [])
         = Raised (raised_by failure) ->
         exists observed queries done project rest,
           names = (done ++ project :: rest)%list
           /\ commands queries = map (query_command args) done
           /\ length queries = length done
           /\ main w args
              = match failure with
                | CannotStart exc =>
                    (Raised (SystemExit 2), observed,
                     (queries
                      ++ [Aborted (query_command args project) failure;
                          Usage ("--projects: can't list '" ++ projects args
                                 ++ "': " ++ exc)])%list)
                | UnknownEncoding _ | Undecodable _ =>
                    (Raised (raised_by failure), observed,
                     (queries
                      ++ [Aborted (query_command args project) failure])%list)
                end)
  /\ (forall names path,
         listdir w (projects args) = inr names ->
         (forall project queries,
             In project names ->
             spawn_failure w queries (query_command args project) = None) ->
         spec args = Some path ->
         exists observed queries,
           commands queries = map (query_command args) names
           /\ length queries = length names
           /\ forall exc,
                (read_spec w path = SpecUnreadable exc ->
                 main w args
                 = (Raised (SystemExit 2), observed,
                    (queries
                     ++ [Log DEBUG ("loading spec from '" ++ path ++ "'...");
                         Usage ("--spec: can't open '" ++ path ++ "': "
                                ++ exc)])%list))
                /\ (read_spec w path = SpecUndecodable exc ->
                    main w args
                    = (Raised (SystemExit 2), observed,
                       (queries
                        ++ [Log DEBUG ("loading spec from '" ++ path ++ "'...");
                            Usage ("--spec: can't decode JSON from '" ++ path
                                   ++ "': " ++ exc)])%list))
                /\ (read_spec w path = SpecNotText exc ->
                    main w args
                    = (Raised (UnicodeDecodeError exc), observed,
                       (queries
                        ++ [Log DEBUG ("loading spec from '" ++ path
                                       ++ "'...")])%list))).
Proof.
  assert (Hp : projects (apply_sync args) = projects args)
    by (unfold apply_sync; now destruct (sync args)).
  assert (Hs : spec (apply_sync args) = spec args)
    by (unfold apply_sync; now destruct (sync args)).
  assert (Hq : forall l, map (query_command (apply_sync args)) l
                         = map (query_command args) l).
  { intros l. apply map_ext. intros p. apply query_command_apply_sync. }
  split; [|split].
  - intros exc H. unfold main, main_body. rewrite Hp, H. reflexivity.
  - intros names failure Hl Hr. unfold main, main_body. rewrite Hp, Hl.
    destruct (observe_spec w (apply_sync args) names Dict.empty [])
      as (s' & new & [(E & _)|(failure' & E & done & project & rest & queries
                               & -> & -> & Hc & Hlen & _)]);
      rewrite E in Hr; cbn in Hr; [discriminate|].
    assert (failure' = failure) as ->.
    { destruct failure', failure; cbn in Hr; congruence. }
    exists s', queries, done, project, rest.
    rewrite Hq in Hc. rewrite query_command_apply_sync in E.
    split; [reflexivity|]. split; [exact Hc|]. split; [exact Hlen|].
    unfold bind at 1. unfold try_except. rewrite E. cbn [app].
    destruct failure as [exc|exc|exc]; cbn [raised_by].
    + unfold parser_error, bind, emit, raise.
      rewrite <- app_assoc. reflexivity.
    + reflexivity.
    + reflexivity.
  - intros names path Hl Hok Hspec. unfold main, main_body. rewrite Hp, Hl.
    destruct (@observe_returns w (apply_sync args) names [])
      as (s' & new & E & Hc & Hlen).
    { intros project queries Hin. rewrite query_command_apply_sync.
      now apply Hok. }
    rewrite Hq in Hc. exists s', new.
    split; [exact Hc|]. split; [exact Hlen|]. intros exc.
    split; [|split]; intros Hr; unfold bind at 1; unfold try_except;
      rewrite E; cbn [app]; unfold bind at 1; unfold load_spec;
      rewrite Hs, Hspec, Hr; unfold parser_error, LOG;
      unfold bind, emit, raise; rewrite <- ?app_assoc; reflexivity.
Qed.

(** X9: the pattern is compiled when the first project is about to be
    processed, not before.  When it is not a regular expression and there
    is a project, expected or observed, the loop exits with status 2 after
    the usage message, without a command and without any other record;
    when there is no project at all, the bad pattern goes unnoticed and the
    loop completes. *)
Theorem X9_an_invalid_pattern_is_noticed_at_the_first_project
    w args document (observed : Topology) message tr :
  re_search args = InvalidRegex message ->
  let run := check_every_project w args document observed tr in
  ((exists project,
       In project (Dict.keys (expected_of document observed))
       \/ In project (Dict.keys observed)) ->
   run = (Raised (SystemExit 2), observed,
          (tr ++ [Usage ("pattern: invalid regex '" ++ pattern args ++ "': "
                         ++ message)])%list))
  /\ ((forall project,
          ~ In project (Dict.keys (expected_of document observed))
          /\ ~ In project (Dict.keys observed)) ->
      run = (Normal tt, observed, tr)).
Proof.
  intros Hre run.
  assert (E : run
              = for_each (process_project w args document)
                  (sorted (set_union (Dict.keys (expected_of document observed))
                                     (Dict.keys observed))) observed tr)
    by reflexivity.
  rewrite E. clear E run.
  pose proof (fun x => universe_in x (Dict.keys (expected_of document observed))
                         (Dict.keys observed)) as Hu.
  destruct (sorted (set_union (Dict.keys (expected_of document observed))
                              (Dict.keys observed))) as [|first rest]; split.
  - intros (p & Hp). apply Hu in Hp. destruct Hp.
  - reflexivity.
  - intros _. cbn [for_each]. unfold bind, process_project. rewrite Hre.
    reflexivity.
  - intros H. destruct (H first) as (H1 & H2).
    destruct (proj1 (Hu first) (or_introl eq_refl)); contradiction.
Qed.

(** X10: the projects that the pattern does not match are only named in a
    debug record: a loop over such projects runs no command, changes
    nothing in [observed] and cannot fail, whatever the capabilities, the
    specification and the state of the projects (a failed query
    included). *)
Theorem X10_projects_outside_the_pattern_are_only_named
    w args document search l (observed : Topology) tr :
  re_search args = Regex search ->
  (forall project, In project l -> search project = false) ->
  process_projects w args document l observed tr
  = (Normal tt, observed, (tr ++ map ignoring l)%list).
Proof.
  intros Hre Hl. revert observed tr. unfold process_projects.
  induction l as [|p l IH]; intros observed tr; cbn [for_each map].
  - unfold ret. now rewrite app_nil_r.
  - unfold bind at 1. unfold process_project at 1. rewrite Hre.
    rewrite (Hl p (or_introl eq_refl)). cbn [negb]. unfold LOG, emit.
    rewrite IH by (intros q Hq; apply Hl; now right).
    unfold ignoring at 2. now rewrite <- app_assoc.
Qed.

(** X8 with an unreadable specification and two listed projects, with a
    specification that is not text, with a git that cannot be started for
    the second of three projects, and with a projects directory that
    cannot be listed. *)
Lemma X8_witness :
  let args := Fixtures.flags true true true in
  let p1 := ["git"; "-C"; "/srv/p1"; "remote"; "-v"] in
  let p2 := ["git"; "-C"; "/srv/p2"; "remote"; "-v"] in
  let missing := CannotStart "[Errno 2] No such file or directory: 'git'" in
  (exists observed queries,
      main MoreFixtures.unreadable_spec args
      = (Raised (SystemExit 2), observed,
         (queries
          ++ [Log DEBUG "loading spec from 'spec.json'...";
              Usage "--spec: can't open 'spec.json': [Errno 2] No such file or directory"])%list)
      /\ commands queries = [p1; p2])
  /\ (exists observed queries,
         main FailureFixtures.binary_spec args
         = (Raised
              (UnicodeDecodeError
                 "'utf-8' codec can't decode byte 0xff in position 0: invalid start byte"),
            observed,
            (queries ++ [Log DEBUG "loading spec from 'spec.json'..."])%list)
         /\ commands queries = [p1; p2])
  /\ (exists observed queries,
         main (FailureFixtures.second_query missing) args
         = (Raised (SystemExit 2), observed,
            (queries
             ++ [Aborted p2 missing;
                 Usage "--projects: can't list '/srv': [Errno 2] No such file or directory: 'git'"])%list)
         /\ commands queries = [p1])
  /\ main MoreFixtures.unlistable args
     = (Raised (SystemExit 2), [],
        [Usage "--projects: can't list '/srv': [Errno 2] No such file or directory: '/srv'"]).
Proof.
  intros args p1 p2 missing.
  split; [|split; [|split]].
  - destruct (X8_what_ends_main_before_the_loop MoreFixtures.unreadable_spec
                args) as (_ & _ & H).
    destruct (H ["p1"; "p2"] "spec.json" eq_refl (fun _ _ _ => eq_refl)
                eq_refl) as (observed & queries & Hc & _ & Hm).
    exists observed, queries. split; [|exact Hc].
    apply (proj1 (Hm "[Errno 2] No such file or directory")). reflexivity.
  - destruct (X8_what_ends_main_before_the_loop FailureFixtures.binary_spec
                args) as (_ & _ & H).
    destruct (H ["p1"; "p2"] "spec.json" eq_refl (fun _ _ _ => eq_refl)
                eq_refl) as (observed & queries & Hc & _ & Hm).
    exists observed, queries. split; [|exact Hc].
    apply (proj2 (proj2 (Hm _))). reflexivity.
  - destruct (X8_what_ends_main_before_the_loop
                (FailureFixtures.second_query missing) args) as (_ & H & _).
    destruct (H ["p1"; "p2"; "p3"] missing eq_refl eq_refl)
      as (observed & queries & done & project & rest & Hn & Hc & Hl & E).
    destruct done as [|d1 [|d2 done]].
    + exfalso. destruct queries; [|discriminate Hl].
      injection Hn as <- <-. vm_compute in E. discriminate E.
    + injection Hn as <- <- <-. exists observed, queries.
      split; [exact E|exact Hc].
    + exfalso.
      destruct queries as [|q1 [|q2 queries]]; try discriminate Hl.
      vm_compute in E. inversion E as [[Ho E1 E2 E3]].
      destruct queries as [|q3 [|q4 queries]]; discriminate E3.
  - apply (proj1 (X8_what_ends_main_before_the_loop MoreFixtures.unlistable
                    args)
             "[Errno 2] No such file or directory: '/srv'" eq_refl).
Defined.

(** X9 with an observed project, and with none. *)
Lemma X9_witness :
  let args := MoreFixtures.bad_pattern in
  re_search args
  = InvalidRegex "missing ), unterminated subpattern at position 0"
  /\ check_every_project Fixtures.everything_works args None
       [("p", Remotes [])] []
     = (Raised (SystemExit 2), [("p", Remotes [])],
        [Usage "pattern: invalid regex '(': missing ), unterminated subpattern at position 0"])
  /\ check_every_project Fixtures.everything_works args None [] []
     = (Normal tt, [], []).
Proof.
  intros args. split; [reflexivity|].
  destruct (@X9_an_invalid_pattern_is_noticed_at_the_first_project
              Fixtures.everything_works args None [("p", Remotes [])]
              "missing ), unterminated subpattern at position 0" []
              eq_refl) as (H1 & _).
  destruct (@X9_an_invalid_pattern_is_noticed_at_the_first_project
              Fixtures.everything_works args None []
              "missing ), unterminated subpattern at position 0" []
              eq_refl) as (_ & H2).
  split.
  - apply H1. exists "p". right. now left.
  - apply H2. intros project. split; intros [].
Defined.

(** X10 for two projects outside [^lib], one of them with a failed query. *)
Lemma X10_witness :
  let args := MoreFixtures.lib_only in
  let observed : Topology :=
    [("app", Remotes [("origin", both_modes "u")]);
     ("broken", QueryFailed
                  {| cmd := ["git"; "-C"; "/srv/broken"; "remote"; "-v"];
                     output := Fixtures.failed "fatal: not a git repository" |})] in
  process_projects (Fixtures.world Fixtures.no_clone_works) args
    (Some [("app", [("origin", both_modes "v")])]) ["app"; "broken"]
    observed []
  = (Normal tt, observed,
     [Log DEBUG "[app] ignoring..."; Log DEBUG "[broken] ignoring..."]).
Proof.
  intros args observed.
  apply (@X10_projects_outside_the_pattern_are_only_named
           (Fixtures.world Fixtures.no_clone_works) args
           (Some [("app", [("origin", both_modes "v")])])
           (fun project => String.prefix "lib" project)
           ["app"; "broken"] observed [] eq_refl).
  intros project [<-|[<-|[]]]; reflexivity.
Defined.

(** ** Capabilities, and runs without a specification *)

Lemma adds_only_spawn w {S} (P : Event -> bool) argv :
  (forall r, P (Run argv r) = true) ->
  (forall failure, P (Aborted argv failure) = true) ->
  adds_only P (@spawn w S argv).
Proof.
  intros Hr Ha s tr. unfold spawn.
  destruct (spawn_failure w tr argv) as [failure|].
  - exists [Aborted argv failure]. cbn. now rewrite Ha.
  - now apply adds_only_run.
Qed.

Lemma adds_only_try_except {S A} (P : Event -> bool) (m : M S A) handler :
  adds_only P m ->
  (forall e h, handler e = Some h -> adds_only P h) ->
  adds_only P (try_except m handler).
Proof.
  intros Hm Hh s tr. unfold try_except.
  destruct (Hm s tr) as (n1 & E1 & F1).
  destruct (m s tr) as [[[a|e] s'] tr']; cbn in E1; subst tr'.
  - exists n1. auto.
  - destruct (handler e) as [h|] eqn:Eh; [|exists n1; auto].
    destruct (Hh e h Eh s' (tr ++ n1)%list) as (n2 & E2 & F2).
    exists (n1 ++ n2)%list. rewrite E2, app_assoc, forallb_app, F1, F2. auto.
Qed.

(** The handler of line 174. *)
Lemma adds_only_cannot_list {S A} (P : Event -> bool) (dir : string) :
  (forall message, P (Usage message) = true) ->
  forall e h,
    match e with
    | OSError exc =>
        Some (@parser_error S A
                ("--projects: can't list '" ++ dir ++ "': " ++ exc))
    | _ => None
    end = Some h ->
    adds_only P h.
Proof.
  intros HP e h He. destruct e; try discriminate. injection He as <-.
  unfold parser_error.
  apply adds_only_bind; [now apply adds_only_emit|intros ?].
  apply adds_only_raise.
Qed.



Section Granted.
Variable w : World.
Variable args : Args.










End Granted.


Lemma quiet_observe w args names :
  adds_only not_corrective (observe w args names).
Proof.
  induction names as [|project rest IH]; cbn [observe].
  - apply adds_only_ret.
  - unfold _remote_mode_url.
    repeat first [ exact IH
                 | apply adds_only_spawn; reflexivity
                 | frames ].
Qed.

Lemma quiet_write_spec w args document :
  adds_only not_corrective (write_spec w args document).
Proof. unfold write_spec, LOG. repeat frames. Qed.

Section NoSpec.
Variable w : World.
Variable args : Args.

Lemma settled_without_spec (observed : Topology) project :
  settled args None observed project.
Proof.
  unfold settled. destruct (re_search args) as [|search]; [exact I|].
  right. cbn [expected_of].
  destruct (Dict.get project observed) as [[o|exc]|]; auto.
  left. apply remote_mode_url_eqb_refl.
Qed.

Lemma quiet_without_spec :
  adds_only not_corrective (check_every_project w args None).
Proof.
  intros observed tr.
  apply (@process_projects_quiet args None w
           (sorted (set_union (Dict.keys (expected_of None observed))
                              (Dict.keys observed))) observed).
  intros p. apply settled_without_spec.
Qed.

Lemma quiet_main_body :
  spec args = None -> adds_only not_corrective (main_body w args).
Proof.
  intros Hs. unfold main_body, load_spec. rewrite Hs.
  destruct (listdir w (projects args)) as [exc|names];
    [unfold parser_error; repeat frames|].
  set (queries :=
         try_except (observe w args names)
           (fun e =>
              match e with
              | OSError exc =>
                  Some (parser_error
                          ("--projects: can't list '" ++ projects args
                           ++ "': " ++ exc))
              | _ => None
              end)).
  assert (H : adds_only not_corrective
                (queries ;;
                 check_every_project w args None ;;
                 write_spec w args None ;;
                 @raise Topology unit (SystemExit 0))).
  { apply adds_only_bind;
      [apply adds_only_try_except;
       [apply quiet_observe|apply adds_only_cannot_list; reflexivity]
      |intros ?].
    apply adds_only_bind; [apply quiet_without_spec|intros _].
    apply adds_only_bind; [apply quiet_write_spec|intros _].
    apply adds_only_raise. }
  intros s tr. specialize (H s tr). unfold bind, ret in *.
  destruct (queries s tr) as [[[a|e] s'] tr']; exact H.
Qed.

End NoSpec.

(** X12: without [--spec] the expected topology is the observed one, and
    [main] performs no corrective action, whatever the capabilities
    ([--sync] included), the pattern and the answers of git: no clone, no
    [git remote add], no [git remote set-url]. *)
Theorem X12_without_a_specification_nothing_is_corrected w args :
  spec args = None -> actions (trace_of (main w args)) = [].
Proof.
  intros Hs. unfold main.
  assert (Hs' : spec (apply_sync args) = None)
    by (unfold apply_sync; now destruct (sync args)).
  destruct (@quiet_main_body w (apply_sync args) Hs' Dict.empty [])
    as (new & E & H).
  rewrite E. now apply not_corrective_actions.
Qed.




(** X12 with every capability and two projects in the directory. *)
Lemma X12_witness :
  let w := Fixtures.two_projects (fun _ => Fixtures.done) in
  let args := MoreFixtures.with_pattern None ".*" (Regex (fun _ => true)) in
  spec args = None
  /\ actions (trace_of (main w args)) = []
  /\ length (commands (trace_of (main w args))) = 10.
Proof.
  intros w args. split; [reflexivity|]. split.
  - apply (@X12_without_a_specification_nothing_is_corrected w args).
    reflexivity.
  - reflexivity.
Defined.


(** ** A remote that cannot be added *)

(** X16: a [git remote add] that returns a non-zero status is not caught.
    For a remote that is expected with at least one mode and is not
    observed, with [--set-urls], the loop over the remotes is left by the
    [CalledProcessError] of that command: the two records that announce
    the addition and the command are all it leaves, [observed] is
    unchanged, and none of the remotes that follow is looked at. *)
Theorem X16_a_failed_remote_add_leaves_the_loop_over_the_remotes
    w args git prefix (e o : REMOTE_MODE_URL_TYPE) remote mode url rest
    later tr :
  set_urls args = true ->
  Dict.get remote e = Some ((mode, url) :: rest) ->
  Dict.get remote o = None ->
  let remote_prefix := prefix ++ " [" ++ remote ++ "]" in
  let argv := (git ++ ["remote"; "add"; remote; url])%list in
  let before :=
    [Log DEBUG (remote_prefix ++ " remote sync needed");
     Log INFO (remote_prefix ++ " adding...")] in
  let result := subprocess w (tr ++ before)%list argv in
  returncode result <> 0%Z ->
  for_each (sync_remote w args git prefix e) (remote :: later) o tr
  = (Raised (ProcessError {| cmd := argv; output := result |}), o,
     ((tr ++ before) ++ [Run argv result])%list).
Proof.
  intros Hs He Ho remote_prefix argv before result Hr.
  cbn [for_each]. unfold bind at 1. unfold sync_remote at 1.
  unfold bind at 1. unfold load at 1. rewrite He, Ho.
  cbn [opt_eqb]. unfold bind at 1. unfold LOG at 1, emit at 1.
  unfold Dict.mem. rewrite Ho. cbn [negb].
  unfold bind at 1. unfold add_remote. rewrite Hs. cbn [negb].
  unfold bind at 1. unfold LOG at 1, emit at 1.
  cbn [Dict.values map snd].
  unfold bind at 1. unfold run_checked, bind, run, check.
  rewrite <- app_assoc. cbn [app].
  fold remote_prefix. fold argv.
  change (tr ++ [Log DEBUG (remote_prefix ++ " remote sync needed");
                 Log INFO (remote_prefix ++ " adding...")])%list
    with (tr ++ before)%list.
  fold result. apply Z.eqb_neq in Hr. rewrite Hr. reflexivity.
Qed.

(** X16 for the second of three remotes. *)
Lemma X16_witness :
  let w := Fixtures.world Fixtures.add_fails in
  let args := Fixtures.flags false false true in
  let e : REMOTE_MODE_URL_TYPE :=
    [("a", [("fetch", "u1")]); ("b", [("fetch", "u2")]);
     ("c", [("fetch", "u3")])] in
  let o : REMOTE_MODE_URL_TYPE := [("a", both_modes "u1")] in
  let argv := ["git"; "-C"; "/srv/p"; "remote"; "add"; "b"; "u2"] in
  set_urls args = true
  /\ returncode (Fixtures.add_fails argv) <> 0%Z
  /\ for_each (sync_remote w args ["git"; "-C"; "/srv/p"] "[p]" e)
       ["b"; "c"] o []
     = (Raised (ProcessError
                  {| cmd := argv;
                     output := Fixtures.failed "fatal: cannot add" |}), o,
        [Log DEBUG "[p] [b] remote sync needed"; Log INFO "[p] [b] adding...";
         Run argv (Fixtures.failed "fatal: cannot add")]).
Proof.
  intros w args e o argv.
  split; [reflexivity|]. split; [discriminate|].
  apply (@X16_a_failed_remote_add_leaves_the_loop_over_the_remotes
           w args ["git"; "-C"; "/srv/p"] "[p]" e o "b" "fetch" "u2" []
           ["c"] [] eq_refl eq_refl eq_refl).
  discriminate.
Defined.

(** ** The record of the observed remotes after a pass *)

Lemma remote_mode_url_eqb_covered (e o : REMOTE_MODE_URL_TYPE) :
  remote_mode_url_eqb e o = true -> remotes_covered e o.
Proof.
  unfold remote_mode_url_eqb, Dict.eqb. intros H.
  apply andb_prop in H. destruct H as (_ & H).
  rewrite forallb_forall in H.
  intros remote mu Hmu _.
  assert (Hin : In remote (Dict.keys e))
    by (apply DictFacts.in_keys_get; congruence).
  specialize (H remote Hin). rewrite Hmu in H.
  destruct (Dict.get remote o) as [om|]; [|discriminate].
  exists om. split; [reflexivity|]. now apply mode_url_eqb_covered.
Qed.

Section Converges.
Variable w : World.
Variable args : Args.

Lemma sync_project_converges project path prefix e (observed : Topology)
    tr checks observed' tr' :
  set_urls args = true ->
  sync_project w args project path prefix e observed tr
  = (Normal checks, observed', tr') ->
  (checks = true
   /\ exists o', Dict.get project observed' = Some (Remotes o')
                 /\ remotes_covered e o')
  \/ (checks = false /\ Dict.get project observed' = None).
Proof.
  intros Hset H. unfold sync_project in H.
  apply bind_normal_inv in H. destruct H as ([] & s0 & tr0 & H0 & H).
  unfold LOG, emit in H0. injection H0 as <- <-.
  apply bind_normal_inv in H. destruct H as (obs0 & s1 & tr1 & H1 & H).
  unfold load in H1. injection H1 as <- <- <-.
  apply bind_normal_inv in H. destruct H as (present & obs1 & tr1 & Hc & H).
  destruct present.
  - left. apply bind_normal_inv in H. destruct H as ([] & s3 & tr3 & H3 & H).
    unfold LOG, emit in H3. injection H3 as <- <-.
    apply bind_normal_inv in H. destruct H as ([] & s4 & tr4 & Hz & H).
    unfold ret in H. injection H as <- <- _. split; [reflexivity|].
    apply zoom_normal_inv in Hz.
    destruct Hz as (o2 & o' & Hg & Hloop & ->).
    exists o'. split; [apply DictFacts.get_set_same|].
    apply bind_normal_inv in Hloop.
    destruct Hloop as (o3 & s5 & tr5 & H5 & Hloop).
    unfold load in H5. injection H5 as <- <- <-.
    apply sync_remotes_cover in Hloop; [|assumption].
    destruct Hloop as [Hcov _].
    intros remote mu Hmu Hne. apply (Hcov remote); auto.
    apply universe_in. left. apply DictFacts.in_keys_get. congruence.
  - right. unfold ret in H. injection H as <- <- _. split; [reflexivity|].
    unfold Dict.mem in Hc.
    destruct (Dict.get project observed) as [q|] eqn:Ho; cbn [negb] in Hc.
    + unfold ret in Hc. discriminate.
    + unfold clone_project in Hc.
      destruct (clone args); cbn [negb] in Hc.
      * apply bind_normal_inv in Hc.
        destruct Hc as ([] & s2 & tr2 & H2 & Hc).
        unfold LOG, emit in H2. injection H2 as <- <-.
        trace_grows Hc (@extends_clone_from w project path prefix
                            (_fetchable_remote_urls e)) n1 En.
        subst tr1. apply clone_from_inv in Hc.
        destruct Hc as [(Hb & _)|(_ & -> & _)]; [discriminate|exact Ho].
      * apply bind_normal_inv in Hc.
        destruct Hc as ([] & s2 & tr2 & H2 & Hc).
        unfold LOG, emit in H2. injection H2 as <- <-.
        unfold ret in Hc. injection Hc as <- _. exact Ho.
Qed.

End Converges.

(** X17: the record that the program keeps of the remotes of a project,
    the dict [observed] as lines 252, 295 and 345 update it after the
    commands they ran.  When a project of the specification is processed
    to the end with [--set-urls] and [observed] binds it to remotes
    afterwards, then that record binds every remote that the
    specification gives at least one mode, and binds every mode that the
    specification gives a non-empty URL to that URL.  This is a property
    of the record, which is what [--spec-create] exports; what git's
    configuration holds after the commands is not part of it (the record
    of a remote added with one URL and then given the URL of the other
    mode is what lines 295 and 345 wrote, not what [git remote -v] would
    print). *)
Theorem X17_the_record_of_a_processed_project_covers_its_specification
    w args (d : Dict.t REMOTE_MODE_URL_TYPE) project
    (e : REMOTE_MODE_URL_TYPE) search (observed : Topology) tr observed' tr'
    o' :
  re_search args = Regex search ->
  search project = true ->
  set_urls args = true ->
  Dict.get project d = Some e ->
  process_project w args (Some d) project observed tr
  = (Normal tt, observed', tr') ->
  Dict.get project observed' = Some (Remotes o') ->
  remotes_covered e o'.
Proof.
  intros Hre Hsearch Hset Hd H Ho'.
  unfold process_project in H. rewrite Hre, Hsearch in H. cbn [negb] in H.
  apply bind_normal_inv in H. destruct H as ([] & s0 & tr0 & H0 & H).
  unfold LOG, emit in H0. injection H0 as <- <-.
  apply bind_normal_inv in H. destruct H as (obs0 & s1 & tr1 & H1 & H).
  unfold load in H1. injection H1 as <- <- <-.
  rewrite get_expected_of_document, Hd in H. cbn [option_map] in H.
  assert (Hpc : forall path prefix (s s' : Topology) t t' r,
             post_checks w args path prefix s t = (r, s', t') -> s' = s).
  { intros path prefix s s' t t' r E.
    pose proof (@keeps_store_post_checks w args Topology path prefix s t) as K.
    rewrite E in K. exact K. }
  assert (Hgo :
    (checks <-
       (if opt_eqb queried_eqb (Some (Remotes e)) (Dict.get project observed)
        then ret true
        else sync_project w args project
               (os_path_join (projects args) project)
               ("[" ++ project ++ "]") e) ;;
     if checks
     then post_checks w args
            ["git"; "-C"; os_path_join (projects args) project]
            ("[" ++ project ++ "]")
     else ret tt) observed
      (tr ++ [Log DEBUG (("[" ++ project ++ "]") ++ " "
                         ++ os_path_join (projects args) project)])%list
    = (Normal tt, observed', tr') -> remotes_covered e o').
  { clear H. intros H.
    apply bind_normal_inv in H. destruct H as (checks & s2 & tr2 & Hc & H).
    destruct (opt_eqb queried_eqb (Some (Remotes e))
                (Dict.get project observed)) eqn:Eq.
    - unfold ret in Hc. injection Hc as <- <- <-.
      apply Hpc in H. subst observed'. rewrite Ho' in Eq. cbn in Eq.
      now apply remote_mode_url_eqb_covered.
    - apply sync_project_converges in Hc; [|assumption].
      destruct Hc as [(-> & o2 & Ho2 & Hcov)|(-> & Hnone)].
      + apply Hpc in H. subst observed'. rewrite Ho' in Ho2.
        now injection Ho2 as <-.
      + unfold ret in H. injection H as <- _. congruence. }
  destruct (Dict.get project observed) as [[o|exc]|] eqn:Eo.
  - now apply Hgo.
  - unfold LOG, emit in H. injection H as <- _. congruence.
  - now apply Hgo.
Qed.

(** X17 for a project that the pass clones from [origin], whose push URL
    differs from its fetch URL: the record after the pass. *)
Lemma X17_witness :
  let args := Fixtures.flags true false true in
  let e : REMOTE_MODE_URL_TYPE := [("origin", [("fetch", "x"); ("push", "y")])] in
  re_search args = Regex (fun _ => true)
  /\ set_urls args = true
  /\ Dict.get "p" Fixtures.fetch_and_push = Some e
  /\ store_of (process_project Fixtures.everything_works args
                 (Some Fixtures.fetch_and_push) "p" [] [])
     = [("p", Remotes e)]
  /\ commands (trace_of (process_project Fixtures.everything_works args
                           (Some Fixtures.fetch_and_push) "p" [] []))
     = [["git"; "clone"; "--origin"; "origin"; "x"; "/srv/p"];
        ["git"; "-C"; "/srv/p"; "remote"; "set-url"; "--push"; "origin"; "y"];
        ["git"; "-C"; "/srv/p"; "show-ref"; "--heads"];
        ["git"; "-C"; "/srv/p"; "stash"; "list"];
        ["git"; "-C"; "/srv/p"; "ls-files"; "--directory"; "--exclude-standard";
         "--no-empty-directory"; "--other"]]
  /\ remotes_covered e e.
Proof.
  intros args e.
  repeat (split; [reflexivity|]).
  apply (@X17_the_record_of_a_processed_project_covers_its_specification
           Fixtures.everything_works args Fixtures.fetch_and_push "p" e
           (fun _ => true) [] []
           (store_of (process_project Fixtures.everything_works args
                        (Some Fixtures.fetch_and_push) "p" [] []))
           (trace_of (process_project Fixtures.everything_works args
                        (Some Fixtures.fetch_and_push) "p" [] []))
           e eq_refl eq_refl eq_refl eq_refl); reflexivity.
Defined.

(** ** The checks after the reconciliation *)

Lemma bind_step {S A B} (m : M S A) (k : A -> M S B) s tr a s' tr' :
  m s tr = (Normal a, s', tr') -> bind m k s tr = k a s' tr'.
Proof. intros E. unfold bind. now rewrite E. Qed.

Lemma checked_pass_app a b :
  checked_pass a -> checked_pass b -> checked_pass (a ++ b)%list.
Proof.
  intros Ha Hb argv r Hin. apply in_app_or in Hin.
  destruct Hin; [now apply Ha|now apply Hb].
Qed.

Lemma checked_pass_nil : checked_pass [].
Proof. intros argv r []. Qed.

Lemma checked_pass_log level message tr :
  checked_pass tr -> checked_pass (Log level message :: tr).
Proof. intros H argv r [Hin|Hin]; [discriminate|now apply H]. Qed.

Lemma checked_pass_run argv r tr :
  (checked_command argv = true -> returncode r = 0%Z) ->
  checked_pass tr -> checked_pass (Run argv r :: tr).
Proof.
  intros H0 H argv' r' [Hin|Hin]; [|now apply H].
  injection Hin as <- <-. exact H0.
Qed.

Lemma commands_log level message tr :
  commands (Log level message :: tr) = commands tr.
Proof. reflexivity. Qed.

Lemma commands_run argv r tr :
  commands (Run argv r :: tr) = argv :: commands tr.
Proof. reflexivity. Qed.

Ltac listed :=
  repeat first
    [ rewrite commands_app | rewrite commands_log | rewrite commands_run ].

Ltac flatten_in H :=
  repeat first [rewrite <- !app_assoc in H | progress cbn [app] in H].

Ltac flatten := repeat first [rewrite <- !app_assoc | progress cbn [app]].

Ltac pass :=
  repeat first
    [ assumption
    | apply checked_pass_nil
    | apply checked_pass_log
    | apply checked_pass_run; [first [discriminate|intros _; assumption]|]
    | apply checked_pass_app ].

(** X14: the checks that follow the reconciliation of a project never
    change [observed], and run, in this order, the fetch (with [--fetch]
    only), [show-ref], [stash list] and [ls-files], as long as these
    commands start and write text.  The status of the fetch and of
    [show-ref] is only reported; that of [stash list] and of [ls-files] is
    checked.  The checks return exactly when both returned 0; otherwise
    they are left by the [CalledProcessError] of the first of the two that
    did not, right after that command: after a failed [stash list] the
    untracked files are not listed. *)
Theorem X14_the_checks_are_left_by_a_failed_stash_list_or_ls_files
    w args {S} path prefix (s : S) tr :
  let checks := post_checks w args ["git"; "-C"; path] prefix s tr in
  store_of checks = s
  /\ exists new,
       trace_of checks = (tr ++ new)%list
       /\ match result_of checks with
          | Normal _ =>
              commands new
              = (unchecked_commands args path
                 ++ [git_stash_list path; git_ls_files path])%list
              /\ checked_pass new
          | Raised e =>
              exists exc before,
                e = ProcessError exc
                /\ returncode (output exc) <> 0%Z
                /\ new = (before ++ [Run (cmd exc) (output exc)])%list
                /\ checked_pass before
                /\ ((cmd exc = git_stash_list path
                     /\ commands before = unchecked_commands args path)
                    \/ (cmd exc = git_ls_files path
                        /\ commands before
                           = (unchecked_commands args path
                              ++ [git_stash_list path])%list))
          end.
Proof.
  intros checks. split; [apply keeps_store_post_checks|].
  unfold checks, post_checks, unchecked_commands. clear checks.
  (* the fetch *)
  match goal with
  | |- context [bind ?m ?k s tr] =>
      assert (H : exists n,
                 m s tr = (Normal tt, s, (tr ++ n)%list)
                 /\ commands n
                    = (if fetch args then [git_fetch path] else [])
                 /\ checked_pass n)
  end.
  { destruct (fetch args).
    - unfold LOG, bind, emit, run, ret. cbn [app].
      destruct (PyStr.truthy _), (negb _); rewrite <- ?app_assoc; cbn [app];
        eexists; (split; [reflexivity|split; [reflexivity|pass]]).
    - exists []. unfold ret. rewrite app_nil_r.
      split; [reflexivity|split; [reflexivity|pass]]. }
  destruct H as (n1 & E1 & C1 & P1).
  rewrite (@bind_step _ _ _ _ _ _ _ _ _ _ E1). clear E1.
  (* the branches *)
  rewrite (@bind_step _ _ _ (LOG _ _) _ _ _ _ _ _ eq_refl).
  rewrite (@bind_step _ _ _ (run w _) _ _ _ _ _ _ eq_refl).
  match goal with
  | |- context [bind ?m ?k s ?t] =>
      assert (H : exists n,
                 m s t = (Normal tt, s, (t ++ n)%list) /\ commands n = []
                 /\ checked_pass n)
  end.
  { destruct (Z.eqb _ 0).
    - eexists [_]. split; [reflexivity|split; [reflexivity|pass]].
    - exists []. unfold ret. rewrite app_nil_r.
      split; [reflexivity|split; [reflexivity|pass]]. }
  destruct H as (n2 & E2 & C2 & P2).
  rewrite (@bind_step _ _ _ _ _ _ _ _ _ _ E2). clear E2.
  (* the stashed changes *)
  rewrite (@bind_step _ _ _ (LOG _ _) _ _ _ _ _ _ eq_refl).
  match goal with
  | |- context [bind (run_checked w ?argv) ?k s ?t] =>
      destruct (Z.eqb (returncode (subprocess w t argv)) 0) eqn:Ez1;
      [rewrite (@bind_step _ _ _ (run_checked w argv) k s t
                  (subprocess w t argv) s
                  (t ++ [Run argv (subprocess w t argv)])%list)
         by (unfold run_checked, bind, run, check; now rewrite Ez1)
      |assert (Ef : bind (run_checked w argv) k s t
                    = (Raised (ProcessError
                                 {| cmd := argv;
                                    output := subprocess w t argv |}), s,
                       (t ++ [Run argv (subprocess w t argv)])%list))
         by (unfold run_checked, bind, run, check; now rewrite Ez1);
       rewrite Ef; clear Ef]
  end.
  2:{ unfold trace_of, result_of. cbn [fst snd].
      eexists. split; [flatten; reflexivity|].
      eexists {| cmd := _; output := _ |}.
      eexists (n1 ++ _ :: _ :: n2 ++ [_])%list.
      split; [reflexivity|]. cbn [output cmd].
      split; [now apply Z.eqb_neq|].
      split; [flatten; reflexivity|].
      split; [pass|]. left. split; [reflexivity|].
      listed. rewrite C1, C2. reflexivity. }
  apply Z.eqb_eq in Ez1. flatten_in Ez1.
  match goal with
  | |- context [bind ?m ?k s ?t] =>
      assert (H : exists n,
                 m s t = (Normal tt, s, (t ++ n)%list) /\ commands n = []
                 /\ checked_pass n)
  end.
  { destruct (PyStr.truthy _).
    - eexists [_]. split; [reflexivity|split; [reflexivity|pass]].
    - exists []. unfold ret. rewrite app_nil_r.
      split; [reflexivity|split; [reflexivity|pass]]. }
  destruct H as (n3 & E3 & C3 & P3).
  rewrite (@bind_step _ _ _ _ _ _ _ _ _ _ E3). clear E3.
  (* the untracked files *)
  rewrite (@bind_step _ _ _ (LOG _ _) _ _ _ _ _ _ eq_refl).
  match goal with
  | |- context [bind (run_checked w ?argv) ?k s ?t] =>
      destruct (Z.eqb (returncode (subprocess w t argv)) 0) eqn:Ez2;
      [rewrite (@bind_step _ _ _ (run_checked w argv) k s t
                  (subprocess w t argv) s
                  (t ++ [Run argv (subprocess w t argv)])%list)
         by (unfold run_checked, bind, run, check; now rewrite Ez2)
      |assert (Ef : bind (run_checked w argv) k s t
                    = (Raised (ProcessError
                                 {| cmd := argv;
                                    output := subprocess w t argv |}), s,
                       (t ++ [Run argv (subprocess w t argv)])%list))
         by (unfold run_checked, bind, run, check; now rewrite Ez2);
       rewrite Ef; clear Ef]
  end.
  2:{ unfold trace_of, result_of. cbn [fst snd].
      eexists. split; [flatten; reflexivity|].
      eexists {| cmd := _; output := _ |}.
      eexists (n1 ++ _ :: _ :: n2 ++ _ :: _ :: n3 ++ [_])%list.
      split; [reflexivity|]. cbn [output cmd].
      split; [now apply Z.eqb_neq|].
      split; [flatten; reflexivity|].
      split; [pass|]. right. split; [reflexivity|].
      listed. rewrite C1, C2, C3. cbn [commands flat_map app].
      rewrite <- app_assoc. reflexivity. }
  apply Z.eqb_eq in Ez2. flatten_in Ez2.
  match goal with
  | |- context [(if ?c then ?a else ?b) s ?t] =>
      assert (H : exists n,
                 (if c then a else b) s t = (Normal tt, s, (t ++ n)%list)
                 /\ commands n = [] /\ checked_pass n)
  end.
  { destruct (PyStr.truthy _).
    - eexists [_]. split; [reflexivity|split; [reflexivity|pass]].
    - exists []. unfold ret. rewrite app_nil_r.
      split; [reflexivity|split; [reflexivity|pass]]. }
  destruct H as (n4 & E4 & C4 & P4). rewrite E4. clear E4.
  unfold trace_of, result_of. cbn [fst snd].
  eexists. split; [flatten; reflexivity|].
  split.
  - listed. rewrite C1, C2, C3, C4. cbn [commands flat_map app].
    now destruct (fetch args).
  - pass.
Qed.

(** X14 where [git stash list] fails, and where the fetch and
    [git show-ref] do. *)
Lemma X14_witness :
  let args := Fixtures.flags false true false in
  let git := ["git"; "-C"; "/srv/p"] in
  let failing := post_checks (Fixtures.world stash_list_fails) args git "[p]"
                   tt [] in
  let tolerant := post_checks (Fixtures.world fetch_and_show_ref_fail) args git
                    "[p]" tt [] in
  (result_of failing
   = Raised (ProcessError
               {| cmd := ["git"; "-C"; "/srv/p"; "stash"; "list"];
                  output := Fixtures.failed "fatal: not a git repository" |})
   /\ exists new,
        trace_of failing = new
        /\ commands new
           = [["git"; "-C"; "/srv/p"; "fetch"; "--all"; "--tags"; "--prune"];
              ["git"; "-C"; "/srv/p"; "show-ref"; "--heads"];
              ["git"; "-C"; "/srv/p"; "stash"; "list"]])
  /\ result_of tolerant = Normal tt
  /\ exists new,
       trace_of tolerant = new
       /\ checked_pass new
       /\ logged WARNING new
          = ["[p] fetch failed:" ++ PyStr.nl ++ "fatal: unable to access"].
Proof.
  intros args git failing tolerant.
  pose proof (@X14_the_checks_are_left_by_a_failed_stash_list_or_ls_files
                (Fixtures.world stash_list_fails) args unit "/srv/p" "[p]"
                tt []) as H1.
  pose proof (@X14_the_checks_are_left_by_a_failed_stash_list_or_ls_files
                (Fixtures.world fetch_and_show_ref_fail) args unit "/srv/p"
                "[p]" tt []) as H2.
  cbv zeta in H1, H2.
  destruct H1 as (_ & new1 & Et1 & _). destruct H2 as (_ & new2 & Et2 & H2).
  change (post_checks (Fixtures.world stash_list_fails) args
            ["git"; "-C"; "/srv/p"] "[p]" tt []) with failing in Et1.
  change (post_checks (Fixtures.world fetch_and_show_ref_fail) args
            ["git"; "-C"; "/srv/p"] "[p]" tt []) with tolerant in Et2, H2.
  assert (Er : result_of tolerant = Normal tt) by reflexivity.
  rewrite Er in H2. destruct H2 as (_ & Hp).
  cbn [app] in Et1, Et2.
  split; [split; [reflexivity|]|split; [reflexivity|]].
  - exists new1. split; [exact Et1|]. rewrite <- Et1. reflexivity.
  - exists new2. split; [exact Et2|]. split; [exact Hp|].
    rewrite <- Et2. reflexivity.
Defined.

(** ** Unexpected projects *)

(** X11: a project that is observed and that the specification does not
    name is reported as unexpected and then treated like the others by
    the checks of lines 347-389 (the fetch included, with [--fetch]):
    nothing else is done, [observed] does not change and no corrective
    action is performed, whatever the capabilities. *)
Theorem X11_an_unexpected_project_is_reported_and_checked
    w args (d : Dict.t REMOTE_MODE_URL_TYPE) project search
    (observed : Topology) o tr :
  re_search args = Regex search ->
  search project = true ->
  Dict.get project d = None ->
  Dict.get project observed = Some (Remotes o) ->
  let path := os_path_join (projects args) project in
  let prefix := "[" ++ project ++ "]" in
  let run := process_project w args (Some d) project observed tr in
  run
  = post_checks w args ["git"; "-C"; path] prefix observed
      (tr ++ [Log DEBUG (prefix ++ " " ++ path);
              Log WARNING (prefix ++ " unexpected project")])%list
  /\ store_of run = observed
  /\ exists checks,
       trace_of run
       = (tr ++ [Log DEBUG (prefix ++ " " ++ path);
                 Log WARNING (prefix ++ " unexpected project")]
             ++ checks)%list
       /\ actions checks = [].
Proof.
  intros Hre Hsearch Hd Ho path prefix run.
  assert (E : run
              = post_checks w args ["git"; "-C"; path] prefix observed
                  (tr ++ [Log DEBUG (prefix ++ " " ++ path);
                          Log WARNING (prefix ++ " unexpected project")])%list).
  { unfold run, process_project. rewrite Hre, Hsearch. cbn [negb].
    unfold bind at 1. unfold LOG at 1, emit at 1.
    unfold bind at 1. unfold load at 1.
    rewrite get_expected_of_document, Hd, Ho. cbn [option_map].
    unfold bind at 1. unfold LOG at 1, emit at 1.
    rewrite <- app_assoc. reflexivity. }
  split; [exact E|]. rewrite E. split; [apply keeps_store_post_checks|].
  destruct (@adds_only_post_checks w args Topology path prefix observed
              (tr ++ [Log DEBUG (prefix ++ " " ++ path);
                      Log WARNING (prefix ++ " unexpected project")])%list)
    as (checks & Et & Hq).
  exists checks. rewrite Et, <- app_assoc.
  split; [reflexivity|]. now apply not_corrective_actions.
Qed.

(** X11 with every capability. *)
Lemma X11_witness :
  let args := Fixtures.flags true true true in
  let observed : Topology := [("extra", Remotes [("origin", both_modes "u")])] in
  let run :=
    process_project Fixtures.everything_works args (Some []) "extra"
      observed [] in
  re_search args = Regex (fun _ => true)
  /\ store_of run = observed
  /\ logged WARNING (trace_of run) = ["[extra] unexpected project"]
  /\ commands (trace_of run)
     = [["git"; "-C"; "/srv/extra"; "fetch"; "--all"; "--tags"; "--prune"];
        ["git"; "-C"; "/srv/extra"; "show-ref"; "--heads"];
        ["git"; "-C"; "/srv/extra"; "stash"; "list"];
        ["git"; "-C"; "/srv/extra"; "ls-files"; "--directory";
         "--exclude-standard"; "--no-empty-directory"; "--other"]].
Proof.
  intros args observed run. split; [reflexivity|].
  destruct (@X11_an_unexpected_project_is_reported_and_checked
              Fixtures.everything_works args [] "extra" (fun _ => true)
              observed [("origin", both_modes "u")] []
              eq_refl eq_refl eq_refl eq_refl) as (_ & Hs & _).
  split; [exact Hs|]. split; reflexivity.
Defined.

(** ** Queries come first *)

Ltac no_query_step :=
  first
    [ apply adds_only_ret | apply adds_only_load | apply adds_only_raise
    | apply adds_only_set_item
    | apply adds_only_emit; reflexivity
    | apply adds_only_run; intros ?; reflexivity
    | apply adds_only_run_checked; intros ?; reflexivity
    | apply adds_only_zoom
    | apply adds_only_for_each; intros ?
    | apply adds_only_bind; [|intros ?]
    | match goal with
      | |- adds_only _ (if ?b then _ else _) => destruct b
      | |- adds_only _ (match ?x with _ => _ end) => destruct x
      end ].

Section NoQuery.
Variable w : World.
Variable args : Args.

Lemma no_query_sync_remote path prefix e remote :
  adds_only not_query
    (sync_remote w args ["git"; "-C"; path] prefix e remote).
Proof.
  unfold sync_remote, add_remote, sync_mode, LOG. repeat no_query_step.
Qed.

Lemma no_query_clone_from project path prefix cands :
  adds_only not_query (clone_from w project path prefix cands).
Proof.
  induction cands as [|[remote url] rest IH]; cbn [clone_from]; unfold LOG.
  - repeat no_query_step.
  - apply adds_only_bind; [apply adds_only_run; intros ?; reflexivity|].
    intros r. destruct (negb _).
    + apply adds_only_bind; [apply adds_only_emit; reflexivity|].
      intros _. exact IH.
    + repeat no_query_step.
Qed.

Lemma no_query_process_project document project :
  adds_only not_query (process_project w args document project).
Proof.
  unfold process_project, sync_project, clone_project, post_checks,
    parser_error, LOG.
  repeat first [ apply no_query_sync_remote | apply no_query_clone_from
               | no_query_step ].
Qed.

Lemma no_query_after_observe :
  adds_only not_query
    (document <- (@load_spec w args Topology) ;;
     check_every_project w args document ;;
     write_spec w args document ;;
     @raise Topology unit (SystemExit 0)).
Proof.
  unfold load_spec, check_every_project, process_projects, write_spec,
    parser_error, LOG.
  repeat first [ apply no_query_process_project | no_query_step ].
Qed.

End NoQuery.

(** X18: the projects are queried once, before anything else is done,
    and never again.  When every query has a result, the trace of [main]
    is the queries of the listed names, in the order of the listing,
    followed by events none of which is a [git remote -v].  When a query
    has no result (git cannot be started, the encoding is unknown, or the
    output is not text in the encoding), the trace is the queries of the
    names before that one and the query without a result, and no command
    follows. *)
Theorem X18_projects_are_queried_once_at_the_start
    w args names :
  listdir w (projects args) = inr names ->
  exists queries rest,
    forallb not_query rest = true
    /\ ((trace_of (main w args) = (queries ++ rest)%list
         /\ commands queries = map (query_command args) names
         /\ length queries = length names)
        \/ exists done project later failure,
             names = (done ++ project :: later)%list
             /\ trace_of (main w args)
                = (queries
                   ++ Aborted (query_command args project) failure
                   :: rest)%list
             /\ commands queries = map (query_command args) done
             /\ length queries = length done
             /\ commands rest = []).
Proof.
  intros Hl. unfold main, main_body.
  assert (Hp : projects (apply_sync args) = projects args)
    by (unfold apply_sync; now destruct (sync args)).
  assert (Hq : forall l, map (query_command (apply_sync args)) l
                         = map (query_command args) l).
  { intros l. apply map_ext. intros p. apply query_command_apply_sync. }
  rewrite Hp, Hl.
  match goal with |- context [trace_of ?x] => set (run := x) end.
  destruct (observe_spec w (apply_sync args) names Dict.empty [])
    as (s' & new & [(E & Hc & Hlen & _)
                   |(failure & E & done & project & later & queries
                     & -> & -> & Hc & Hlen & _)]).
  - destruct (@no_query_after_observe w (apply_sync args) s' new)
      as (rest & Et & Hr).
    exists new, rest. split; [exact Hr|]. left.
    split; [|rewrite <- Hq; auto].
    unfold run. unfold bind at 1. unfold try_except. rewrite E. cbn [app].
    exact Et.
  - rewrite query_command_apply_sync in E. rewrite Hq in Hc.
    destruct failure as [exc|exc|exc]; cbn [raised_by] in E.
    + exists queries,
        [Usage ("--projects: can't list '" ++ projects args ++ "': " ++ exc)].
      split; [reflexivity|]. right.
      exists done, project, later, (CannotStart exc).
      split; [reflexivity|]. split; [|auto].
      unfold run. unfold bind at 1. unfold try_except. rewrite E.
      unfold parser_error, bind, emit, raise. cbn [trace_of snd app].
      rewrite <- app_assoc. reflexivity.
    + exists queries, []. split; [reflexivity|]. right.
      exists done, project, later, (UnknownEncoding exc).
      split; [reflexivity|]. split; [|auto].
      unfold run. unfold bind at 1. unfold try_except. rewrite E.
      reflexivity.
    + exists queries, []. split; [reflexivity|]. right.
      exists done, project, later, (Undecodable exc).
      split; [reflexivity|]. split; [|auto].
      unfold run. unfold bind at 1. unfold try_except. rewrite E.
      reflexivity.
Qed.

(** X18 where the run clones a project and sets its push URL, and where
    git cannot be started for the second of three projects. *)
Lemma X18_witness :
  let w := one_listed_one_specified in
  let args := Fixtures.flags true false true in
  let missing := CannotStart "[Errno 2] No such file or directory: 'git'" in
  listdir w (projects args) = inr ["q"]
  /\ (exists queries rest,
         trace_of (main w args) = (queries ++ rest)%list
         /\ commands queries = [["git"; "-C"; "/srv/q"; "remote"; "-v"]]
         /\ length queries = 1
         /\ forallb not_query rest = true
         /\ In ["git"; "clone"; "--origin"; "origin"; "x"; "/srv/p"]
              (commands rest))
  /\ commands (trace_of (main (FailureFixtures.second_query missing) args))
     = [["git"; "-C"; "/srv/p1"; "remote"; "-v"]].
Proof.
  intros w args missing. split; [reflexivity|]. split; [|reflexivity].
  destruct (@X18_projects_are_queried_once_at_the_start w args ["q"] eq_refl)
    as (queries & rest & Hq & [(Et & Hc & Hlen)
                              |(done & project & later & failure & _ & Et
                                & _)]).
  - exists queries, rest. repeat (split; [assumption|]).
    assert (Hin : In ["git"; "clone"; "--origin"; "origin"; "x"; "/srv/p"]
                    (commands (trace_of (main w args))))
      by (vm_compute; tauto).
    rewrite Et, commands_app, Hc in Hin.
    destruct Hin as [Hin|Hin]; [discriminate Hin|exact Hin].
  - exfalso.
    assert (Hno : forall argv f, ~ In (Aborted argv f) (trace_of (main w args))).
    { intros argv f Hin. vm_compute in Hin.
      repeat (destruct Hin as [Hin|Hin]; [discriminate Hin|]). exact Hin. }
    apply (Hno (query_command args project) failure).
    rewrite Et. apply in_or_app. right. now left.
Defined.

(** ** The export comes last *)

Section NoWrite.
Variable w : World.
Variable args : Args.

Lemma no_write_observe names :
  adds_only not_a_write (observe w args names).
Proof.
  induction names as [|project rest IH]; cbn [observe].
  - apply adds_only_ret.
  - unfold _remote_mode_url.
    repeat first [ exact IH
                 | apply adds_only_spawn; reflexivity
                 | frames ].
Qed.

Lemma no_write_clone_from project path prefix cands :
  adds_only not_a_write (clone_from w project path prefix cands).
Proof.
  induction cands as [|[remote url] rest IH]; cbn [clone_from]; unfold LOG.
  - repeat frames.
  - apply adds_only_bind; [apply adds_only_run; intros ?; reflexivity|].
    intros r. destruct (negb _).
    + apply adds_only_bind; [apply adds_only_emit; reflexivity|].
      intros _. exact IH.
    + repeat frames.
Qed.

Lemma no_write_check_every_project document :
  adds_only not_a_write (check_every_project w args document).
Proof.
  unfold check_every_project, process_projects, process_project,
    sync_project, clone_project, sync_remote, add_remote, sync_mode,
    post_checks, parser_error, LOG.
  repeat first [apply no_write_clone_from | frames].
Qed.

Lemma calm_queries names :
  calm (try_except (observe w args names)
          (fun e =>
             match e with
             | OSError exc =>
                 Some (parser_error
                         ("--projects: can't list '" ++ projects args ++ "': "
                          ++ exc))
             | _ => None
             end)).
Proof.
  intros s tr.
  destruct (@adds_only_try_except _ _ not_a_write (observe w args names) _
              (no_write_observe names)
              (@adds_only_cannot_list Topology unit not_a_write
                 (projects args) (fun _ => eq_refl)) s tr)
    as (new & Et & Hn).
  exists new. split; [exact Et|]. split; [exact Hn|].
  unfold try_except.
  destruct (observe_spec w args names s tr)
    as (s' & q & [(-> & _)|(failure & -> & _)]); [discriminate|].
  destruct failure; cbn; discriminate.
Qed.

Lemma calm_load_spec : calm (@load_spec w args Topology).
Proof.
  intros s tr. unfold load_spec.
  destruct (spec args) as [path|].
  - unfold parser_error, LOG. unfold bind, emit, raise, ret.
    destruct (read_spec w path); cbn;
      eexists; (split; [rewrite <- ?app_assoc; reflexivity|]);
      (split; [reflexivity|discriminate]).
  - exists []. unfold ret. cbn. rewrite app_nil_r.
    split; [reflexivity|]. split; [reflexivity|discriminate].
Qed.

Lemma calm_check_every_project document :
  calm (check_every_project w args document).
Proof.
  intros s tr.
  destruct (no_write_check_every_project document s tr) as (new & Et & Hn).
  exists new. split; [exact Et|]. split; [exact Hn|].
  pose proof (@safe_check_every_project w args document s tr I) as Hs.
  destruct (check_every_project w args document s tr) as [[[a|e] s'] tr'];
    [discriminate|].
  cbn. intros [= ->]. cbn in Hs. destruct Hs as (H & _). discriminate.
Qed.

End NoWrite.

(** X19: what a run leaves at the destination of [--spec-create].  The
    destination is written at most once, and nothing follows the write
    but the record of its failure; nothing is written without
    [--spec-create].  With it, the run ends in one of three ways.  It
    exits with status 0, and the exported specification is the last thing
    it did.  Or the destination was opened and could not be written: the
    run exits with status 1 after the error record, and the destination
    has been created or truncated and does not hold the specification.
    Or the run ends otherwise, not with status 0, and has written
    nothing. *)
Theorem X19_the_export_comes_last_and_a_failed_write_spoils_it w args :
  let run := main w args in
  exists before,
    forallb not_a_write before = true
    /\ match spec_create args with
       | None => trace_of run = before
       | Some dest =>
           (result_of run = Raised (SystemExit 0)
            /\ write_error w dest = None
            /\ exists written,
                 trace_of run = (before ++ [JsonDump dest written])%list)
           \/ (result_of run = Raised (SystemExit 1)
               /\ open_for_writing w dest (negb (spec_create_overwrite args))
                  = None
               /\ exists exc,
                    write_error w dest = Some exc
                    /\ trace_of run
                       = (before ++ [Spoiled dest; Log ERROR exc])%list)
           \/ (result_of run <> Raised (SystemExit 0)
               /\ trace_of run = before)
       end.
Proof.
  intros run. unfold run, main. clear run.
  assert (Hc : spec_create (apply_sync args) = spec_create args)
    by (unfold apply_sync; now destruct (sync args)).
  assert (Ho : spec_create_overwrite (apply_sync args)
               = spec_create_overwrite args)
    by (unfold apply_sync; now destruct (sync args)).
  rewrite <- Hc, <- Ho. clear Hc Ho.
  generalize (apply_sync args). clear args. intros args.
  pose (outcome := fun x : Res unit * Topology * list Event =>
    exists before,
      forallb not_a_write before = true
      /\ match spec_create args with
         | None => trace_of x = before
         | Some dest =>
             (result_of x = Raised (SystemExit 0)
              /\ write_error w dest = None
              /\ exists written,
                   trace_of x = (before ++ [JsonDump dest written])%list)
             \/ (result_of x = Raised (SystemExit 1)
                 /\ open_for_writing w dest (negb (spec_create_overwrite args))
                    = None
                 /\ exists exc,
                      write_error w dest = Some exc
                      /\ trace_of x
                         = (before ++ [Spoiled dest; Log ERROR exc])%list)
             \/ (result_of x <> Raised (SystemExit 0)
                 /\ trace_of x = before)
         end).
  change (outcome (main_body w args Dict.empty [])).
  assert (Hstop : forall (e : Exception) (s : Topology) tr,
             forallb not_a_write tr = true -> e <> SystemExit 0 ->
             outcome (Raised e, s, tr)).
  { intros e s tr Ht He. exists tr. split; [exact Ht|].
    destruct (spec_create args); [|reflexivity].
    right. right. split; [|reflexivity]. cbn. intros [= ->]. now apply He. }
  assert (Hbind : forall A (m : M Topology A) (k : A -> M Topology unit),
             calm m ->
             (forall a s tr, forallb not_a_write tr = true ->
                             outcome (k a s tr)) ->
             forall s tr, forallb not_a_write tr = true ->
                          outcome (bind m k s tr)).
  { intros A m k Hm Hk s tr Ht. unfold bind.
    destruct (Hm s tr) as (new & Et & Hn & Hr).
    destruct (m s tr) as [[[a|e] s'] tr']; cbn in Et, Hr; subst tr'.
    - apply Hk. rewrite forallb_app, Ht, Hn. reflexivity.
    - apply Hstop; [rewrite forallb_app, Ht, Hn; reflexivity|].
      intros ->. now apply Hr. }
  unfold main_body.
  destruct (listdir w (projects args)) as [exc|names].
  { apply Hstop; [reflexivity|discriminate]. }
  apply Hbind; [apply calm_queries| |reflexivity]. intros _ s0 t0 Ht0.
  apply Hbind; [apply calm_load_spec| |exact Ht0]. intros document s1 t1 Ht1.
  apply Hbind; [apply calm_check_every_project| |exact Ht1].
  intros _ s2 t2 Ht2.
  (* the export *)
  unfold bind at 1. unfold write_spec.
  destruct (spec_create args) as [dest|] eqn:Ed.
  - unfold bind at 1. unfold LOG at 1, emit at 1.
    destruct (open_for_writing w dest _) eqn:Eo.
    + unfold bind, LOG, emit, raise. cbn beta iota.
      eexists. split; [|right; right; split; [discriminate|reflexivity]].
      cbn [trace_of snd]. rewrite !forallb_app, Ht2. reflexivity.
    + unfold bind at 1. unfold load at 1.
      destruct (write_error w dest) as [exc|] eqn:Ew.
      * unfold bind, LOG, emit, raise. cbn beta iota.
        exists (t2 ++ [Log INFO ("writing spec to '" ++ dest ++ "'...")])%list.
        split; [rewrite forallb_app, Ht2; reflexivity|].
        right. left. split; [reflexivity|]. split; [reflexivity|].
        exists exc. split; [reflexivity|]. cbn [trace_of snd].
        rewrite <- !app_assoc. reflexivity.
      * unfold emit, raise. cbn beta iota.
        exists (t2 ++ [Log INFO ("writing spec to '" ++ dest ++ "'...")])%list.
        split; [rewrite forallb_app, Ht2; reflexivity|].
        left. split; [reflexivity|]. split; [reflexivity|].
        eexists. reflexivity.
  - unfold ret, raise. cbn beta iota. exists t2. split; [exact Ht2|].
    reflexivity.
Qed.

(** X19 for an export that succeeds, for one whose destination exists,
    and for one whose destination cannot be written once opened. *)
Lemma X19_witness :
  let args := Fixtures.flags_export false in
  let full := destination false (Some "[Errno 28] No space left on device") in
  (exists before,
      forallb not_a_write before = true
      /\ main Fixtures.everything_works args
         = (Raised (SystemExit 0), [], (before ++ [JsonDump "out.json" []])%list))
  /\ (exists before,
         forallb not_a_write before = true
         /\ main (destination true None) args
            = (Raised (SystemExit 1), [], before))
  /\ exists before,
       forallb not_a_write before = true
       /\ main full args
          = (Raised (SystemExit 1), [],
             (before ++ [Spoiled "out.json";
                         Log ERROR "[Errno 28] No space left on device"])%list).
Proof.
  intros args full.
  pose proof (X19_the_export_comes_last_and_a_failed_write_spoils_it
                Fixtures.everything_works args) as H1.
  pose proof (X19_the_export_comes_last_and_a_failed_write_spoils_it
                (destination true None) args) as H2.
  pose proof (X19_the_export_comes_last_and_a_failed_write_spoils_it
                full args) as H3.
  cbv zeta in H1, H2, H3.
  destruct H1 as (b1 & Hb1 & H1). destruct H2 as (b2 & Hb2 & H2).
  destruct H3 as (b3 & Hb3 & H3).
  change (spec_create args) with (Some "out.json") in H1, H2, H3.
  cbv beta iota in H1, H2, H3.
  split; [|split].
  - exists b1. split; [exact Hb1|].
    destruct H1 as [(_ & _ & written & Et)|[(Hr & _)|(Hr & _)]].
    + assert (E : main Fixtures.everything_works args
                  = (Raised (SystemExit 0), [],
                     trace_of (main Fixtures.everything_works args)))
        by reflexivity.
      rewrite E, Et. f_equal. f_equal.
      assert (Hlast : last (trace_of (main Fixtures.everything_works args))
                        (Log ERROR EmptyString)
                      = JsonDump "out.json" []) by reflexivity.
      rewrite Et, last_last in Hlast. now rewrite Hlast.
    + discriminate Hr.
    + exfalso. apply Hr. reflexivity.
  - exists b2. split; [exact Hb2|].
    destruct H2 as [(Hr & _)|[(_ & Ho & _)|(_ & Et)]].
    + discriminate Hr.
    + discriminate Ho.
    + rewrite <- Et. reflexivity.
  - exists b3. split; [exact Hb3|].
    destruct H3 as [(Hr & _)|[(_ & _ & exc & Hw & Et)|(_ & Et)]].
    + discriminate Hr.
    + injection Hw as <-. rewrite <- Et. reflexivity.
    + exfalso.
      assert (Hin : In (Spoiled "out.json") (trace_of (main full args)))
        by (vm_compute; tauto).
      rewrite Et in Hin. rewrite forallb_forall in Hb3.
      specialize (Hb3 _ Hin). discriminate Hb3.
Defined.

(** ** The prefixes of the log records *)

Lemma prefix_app_self a b : String.prefix a (a ++ b) = true.
Proof.
  induction a as [|c a IH]; cbn; [now destruct b|].
  destruct (ascii_dec c c) as [_|H]; [exact IH|now destruct H].
Qed.

Lemma prefix_app_more a b c :
  String.prefix a b = true -> String.prefix a (b ++ c) = true.
Proof.
  revert b. induction a as [|x a IH]; intros b; cbn.
  - intros _. now destruct (b ++ c).
  - destruct b as [|y b]; [discriminate|]. cbn.
    destruct (ascii_dec x y); [apply IH|discriminate].
Qed.

Lemma prefix_refl a : String.prefix a a = true.
Proof.
  induction a as [|c a IH]; cbn; [reflexivity|].
  destruct (ascii_dec c c) as [_|H]; [exact IH|now destruct H].
Qed.

Ltac starts :=
  cbn [starts_with];
  solve [ reflexivity
        | repeat first [ assumption | apply prefix_refl | apply prefix_app_self
                       | apply prefix_app_more ] ].

Ltac starts_step :=
  first
    [ apply adds_only_ret | apply adds_only_load | apply adds_only_raise
    | apply adds_only_set_item
    | apply adds_only_emit; starts
    | apply adds_only_run; intros ?; reflexivity
    | apply adds_only_run_checked; intros ?; reflexivity
    | apply adds_only_zoom
    | apply adds_only_for_each; intros ?
    | apply adds_only_bind; [|intros ?]
    | match goal with
      | |- adds_only _ (if ?b then _ else _) => destruct b
      | |- adds_only _ (match ?x with _ => _ end) => destruct x
      end ].

Section Prefixes.
Variable w : World.
Variable args : Args.

Lemma starts_sync_mode text git remote_prefix remote e mode :
  String.prefix text (remote_prefix ++ " [" ++ mode ++ "]") = true ->
  adds_only (starts_with text)
    (sync_mode w args git remote_prefix remote e mode).
Proof. intros H. unfold sync_mode, LOG. repeat starts_step. Qed.

Lemma starts_sync_remote text git prefix e remote :
  String.prefix text (prefix ++ " [" ++ remote ++ "]") = true ->
  adds_only (starts_with text) (sync_remote w args git prefix e remote).
Proof.
  intros H. unfold sync_remote, add_remote, LOG.
  repeat first [ apply starts_sync_mode; starts | starts_step ].
Qed.

Lemma starts_clone_from project path prefix cands :
  adds_only (starts_with prefix) (clone_from w project path prefix cands).
Proof.
  induction cands as [|[remote url] rest IH]; cbn [clone_from]; unfold LOG.
  - repeat starts_step.
  - apply adds_only_bind; [apply adds_only_run; intros ?; reflexivity|].
    intros r. destruct (negb _).
    + apply adds_only_bind; [apply adds_only_emit; starts|].
      intros _. exact IH.
    + repeat starts_step.
Qed.

Lemma starts_process_project document project :
  adds_only (starts_with ("[" ++ project ++ "]"))
    (process_project w args document project).
Proof.
  unfold process_project, sync_project, clone_project, post_checks,
    parser_error, LOG.
  repeat first [ apply starts_clone_from | apply starts_sync_remote; starts
               | starts_step ].
Qed.

End Prefixes.

(** X20: the log records carry the names of what they are about.  Every
    record that is logged while a project is processed starts with
    [[project]]; every record that is logged while one of its remotes is
    reconciled starts with [[project] [remote]]; and every record that is
    logged while one of the modes of that remote is reconciled starts
    with [[project] [remote] [mode]]. *)
Theorem X20_log_records_name_the_project_the_remote_and_the_mode
    w args document git project remote mode
    (e : REMOTE_MODE_URL_TYPE) (em : MODE_URL_TYPE)
    (observed : Topology) (o : REMOTE_MODE_URL_TYPE) (om : MODE_URL_TYPE) tr :
  let prefix := "[" ++ project ++ "]" in
  let remote_prefix := prefix ++ " [" ++ remote ++ "]" in
  let mode_remote_prefix := remote_prefix ++ " [" ++ mode ++ "]" in
  (exists new,
      trace_of (process_project w args document project observed tr)
      = (tr ++ new)%list
      /\ forallb (starts_with prefix) new = true)
  /\ (exists new,
         trace_of (sync_remote w args git prefix e remote o tr)
         = (tr ++ new)%list
         /\ forallb (starts_with remote_prefix) new = true)
  /\ (exists new,
         trace_of (sync_mode w args git remote_prefix remote em mode om tr)
         = (tr ++ new)%list
         /\ forallb (starts_with mode_remote_prefix) new = true).
Proof.
  intros prefix remote_prefix mode_remote_prefix. split; [|split].
  - apply starts_process_project.
  - apply starts_sync_remote. apply prefix_refl.
  - apply starts_sync_mode. apply prefix_refl.
Qed.

(** ** The loop over the candidates of a clone *)


